(** * PyXtal: the random atomic-crystal generator ([pyxtal/crystal.py])

    A shallow embedding of the geometry primitives, the lattice sampler,
    the merge resolver, the compatibility predicate and the placement
    driver, followed by the properties established about them.

    Conventions of the embedding.
    - Python floats that only take part in comparisons (distances,
      tolerances, rotation entries) are rationals [Q]: every finite
      float is one, and the model stays executable.
    - Python floats that go through [sqrt], [cos], [sin], [acos] or a
      cube root are exact reals [R].
    - A Python call either returns ([Ok]), raises ([Raise]), leaves the
      finite reals by a division by zero ([NonFinite]: numpy would go on
      with [inf] or [nan], plain floats would raise), or, for the loops
      and the recursion of the source that carry no bound of their own,
      exhausts the fuel of the model ([OutOfFuel]).
    - Functions of the repository that are not in [crystal.py]
      ([distance_matrix], [check_wyckoff_position], the element table,
      the random sources) are parameters. *)

From Stdlib Require Import String Ascii ZArith QArith Qabs Qminmax Reals Lra Lia Bool List.
Import ListNotations.

Set Implicit Arguments.

(* ================================================================== *)
(** * Part I. The program                                              *)
(* ================================================================== *)

(** ** Outcomes of a call *)

Inductive exn : Type :=
| IndexError
| ValueError      (* math domain error, max() of an empty sequence *)
| NameError
| SystemExit.

Inductive result (A : Type) : Type :=
| Ok (a : A)
| Raise (e : exn)
| NonFinite
| OutOfFuel.

Arguments Ok {A} a.
Arguments Raise {A} e.
Arguments NonFinite {A}.
Arguments OutOfFuel {A}.

Definition bind {A B : Type} (r : result A) (k : A -> result B) : result B :=
  match r with
  | Ok a => k a
  | Raise e => Raise e
  | NonFinite => NonFinite
  | OutOfFuel => OutOfFuel
  end.

Declare Scope result_scope.
Delimit Scope result_scope with result.
Notation "x <- r ;; k" := (bind r (fun x => k))
  (at level 61, r at next level, right associativity) : result_scope.
Notation "' p <- r ;; k" := (bind r (fun p => k))
  (at level 61, p pattern, r at next level, right associativity) : result_scope.
Local Open Scope result_scope.

(** [for x in xs: s = body(s, x)], stopping at the first exception. *)
Fixpoint foldM {S X : Type} (body : S -> X -> result S) (xs : list X) (s : S)
  : result S :=
  match xs with
  | [] => Ok s
  | x :: xs' => s' <- body s x ;; foldM body xs' s'
  end.

(** A call has come to an end when it returned or raised. *)
Definition terminated {A : Type} (r : result A) : Prop :=
  match r with
  | Ok _ | Raise _ => True
  | NonFinite | OutOfFuel => False
  end.

(** Python subscripting [l[i]] for [0 <= i]. *)
Definition getitem {A : Type} (l : list A) (i : nat) : result A :=
  match nth_error l i with
  | Some a => Ok a
  | None => Raise IndexError
  end.

(** Python [l[-1]]. *)
Definition getlast {A : Type} (l : list A) : result A :=
  match l with
  | [] => Raise IndexError
  | a :: l' => Ok (last l' a)
  end.

(** The dynamically typed values that [cellsize] and [check_compatible]
    return. *)
Inductive pyval : Type :=
| PyBool (b : bool)
| PyInt (n : Z)
| PyStr (s : string).

(** ** Tunable constants *)

(** [pyxtal/constants.py]. *)
Module constants.
Definition tol_m : Q := 3 # 10.
Definition max1 : nat := 40.
Definition max2 : nat := 10.
Definition max3 : nat := 10.
Definition max4 : nat := 4.
Definition minvec : Q := 1.
End constants.

(** The module-level variables of [pyxtal/crystal.py], lines 86-90.
    [crystal.py] does not import [constants.py]; these are the values
    its functions close over. *)
Definition tol_m : Q := 1.
Definition max1 : nat := 30.
Definition max2 : nat := 30.
Definition max3 : nat := 30.
Definition minvec : Q := 2.

(** A Python keyword argument left out takes its default. *)
Definition default {A : Type} (d : A) (o : option A) : A :=
  match o with
  | Some a => a
  | None => d
  end.

(** ** [cellsize] *)

Section Cellsize.
(** pymatgen's table of international symbols. *)
Variable sg_symbol_from_int_number : Z -> string.


End Cellsize.

(** ** External collaborators (spec section 6) *)

(** The periodic table ([pyxtal.database.element.Element]). *)
Class ElementService : Type := {
  covalent_radius : string -> Q;
  vdw_radius : string -> Q;
  atomic_number : string -> Z
}.

(** The geometry kernels of [pyxtal.operations] that [crystal.py] imports
    and the Wyckoff identification of [pyxtal.symmetry]. *)
Class Geometry (Point Lattice Op : Type) : Type := {
  distance_matrix :
    list Point -> list Point -> Lattice -> list nat -> result (list (list Q));
  check_wyckoff_position :
    list Point -> list (list Op) -> list (list (list Op)) -> list nat ->
    option (nat * Point);
  filtered_coords : list Point -> list nat -> list Point
}.

(** ** [check_distance] *)

(** [tols1] and [tols2] hold atomic symbols or distances; the source
    looks at the type of the first entry. *)
Inductive tolerances : Type :=
| Symbols (l : list string)
| Distances (l : list Q).

Definition get_tol {ES : ElementService} (specie : string) : Q :=
  covalent_radius specie.

Definition tols_from_species {ES : ElementService} (species : list string) : list Q :=
  map get_tol species.

(** [if type(tols[0]) == str: tols = tols_from_species(tols)] *)
Definition convert_tols {ES : ElementService} (t : tolerances) : result (list Q) :=
  match t with
  | Symbols [] | Distances [] => Raise IndexError
  | Symbols l => Ok (tols_from_species l)
  | Distances l => Ok l
  end.

(** numpy's broadcasting along one axis: the common length of two axes
    of lengths [n] and [m], which exists when they are equal or one of
    them is 1. *)
Definition broadcast_axis (n m : nat) : option nat :=
  if (n =? m)%nat then Some n
  else if (n =? 1)%nat then Some m
  else if (m =? 1)%nat then Some n
  else None.

(** Entry [i] along a broadcast axis: an axis of length 1 repeats its
    only entry. *)
Definition stretched {A : Type} (l : list A) (i : nat) : option A :=
  match l with
  | [x] => Some x
  | _ => nth_error l i
  end.

(** [(d < tols).sum()] for [tols[i][j] = tols1[i] + tols2[j]].  [d] is
    the matrix that [distance_matrix] returned, [len(d)] by
    [len(d[0])]; the comparison broadcasts it against the [len(tols1)]
    by [len(tols2)] matrix of the tolerances, and raises [ValueError]
    when the two shapes do not fit. *)
Definition count_below (d : list (list Q)) (tols1 tols2 : list Q)
  : result nat :=
  match broadcast_axis (length d) (length tols1),
        broadcast_axis (length (hd [] d)) (length tols2) with
  | Some rows, Some columns =>
    Ok (length
          (filter
             (fun '(i, j) =>
                match stretched d i, stretched tols1 i, stretched tols2 j with
                | Some row, Some t1, Some t2 =>
                  match stretched row j with
                  | Some x => negb (Qle_bool (t1 + t2) x)
                  | None => false
                  end
                | _, _, _ => false
                end)
             (list_prod (seq 0 rows) (seq 0 columns))))
  | _, _ => Raise ValueError
  end.

Section CheckDistance.
Context {Point Lattice Op : Type} {ES : ElementService} {G : Geometry Point Lattice Op}.

Definition check_distance (coord1 coord2 : list Point)
    (tols1 tols2 : tolerances) (lattice : Lattice) (PBC : list nat)
    (d_factor : Q) : result bool :=
  (* Check that there are points to compare *)
  if (length coord1 <=? 1)%nat || (length coord2 <=? 1)%nat then Ok true
  else
    tols1 <- convert_tols tols1 ;;
    tols2 <- convert_tols tols2 ;;
    d <- distance_matrix coord1 coord2 lattice PBC ;;
    below <- count_below d tols1 tols2 ;;
    if (0 <? below)%nat then Ok false else Ok true.
End CheckDistance.

(** ** [find_short_dist] *)

Definition enumerate {A : Type} (l : list A) : list (nat * A) :=
  combine (seq 0 (length l)) l.

(** [np.where(d <= tol)]: the row indices and the column indices of the
    hits, in row-major order. *)
Definition where_le (d : list (list Q)) (tol : Q) : list nat * list nat :=
  let hits :=
    flat_map (fun '(i, row) =>
                map (fun '(j, _) => (i, j))
                    (filter (fun '(_, x) => Qle_bool x tol) (enumerate row)))
             (enumerate d) in
  (map fst hits, map snd hits).

(** [np.unique]: the distinct values, ascending. *)
Definition unique (l : list nat) : list nat :=
  filter (fun i => existsb (Nat.eqb i) l) (seq 0 (S (list_max l))).

(** [graph[i].append(x)] *)
Fixpoint append_at (graph : list (list nat)) (i x : nat)
  : result (list (list nat)) :=
  match graph, i with
  | [], _ => Raise IndexError
  | l :: g, O => Ok ((l ++ [x]) :: g)
  | l :: g, S i' => g' <- append_at g i' x ;; Ok (l :: g')
  end.

Definition pair_dist (p : nat * nat * Q) : Q := snd p.

(** Python's [min] of a non-empty sequence. *)
Definition min_list (x : Q) (xs : list Q) : Q := fold_left Qmin xs x.

(** The body of [find_short_dist] after [d = distance_matrix(...)];
    [n = len(coor)]. *)
Definition short_dist_of_matrix (n : nat) (d : list (list Q)) (tol : Q)
  : result (list (nat * nat * Q) * list (list nat)) :=
  let graph := repeat ([] : list nat) n in
  let ijs := where_le d tol in
  pairs <- foldM (fun pairs i =>
                    j <- getitem (snd ijs) i ;;
                    if (j <=? i)%nat then Ok pairs
                    else
                      row <- getitem d i ;;
                      dij <- getitem row j ;;
                      Ok (pairs ++ [(i, j, dij)]))
                 (unique (fst ijs)) [] ;;
  match pairs with
  | [] => Ok (pairs, graph)
  | p :: ps =>
    let d_min := min_list (pair_dist p) (map pair_dist ps) + (1 # 1000) in
    let pairs := filter (fun q => Qle_bool (pair_dist q) d_min) pairs in
    graph <- foldM (fun g '(pair0, pair1, _) =>
                      g' <- append_at g pair0 pair1 ;;
                      append_at g' pair1 pair0)
                   pairs graph ;;
    Ok (pairs, graph)
  end.

Section FindShortDist.
Context {Point Lattice Op : Type} {G : Geometry Point Lattice Op}.

Definition find_short_dist (coor : list Point) (lattice : Lattice) (tol : Q)
    (PBC : list nat) : result (list (nat * nat * Q) * list (list nat)) :=
  d <- distance_matrix coor coor lattice PBC ;;
  short_dist_of_matrix (length coor) d tol.
End FindShortDist.

(** ** [connected_components] *)

Definition mem (x : nat) (l : list nat) : bool := existsb (Nat.eqb x) l.

(** The inner function [add_neighbors(el, seen)].  The list [seen] is
    shared by all recursive calls and grows in place, so it is threaded
    through them.  One unit of fuel per level of recursion; the
    recursion is never deeper than the graph has vertices
    ([add_neighbors_returns]). *)
Fixpoint add_neighbors (fuel : nat) (graph : list (list nat)) (el : nat)
    (seen : list nat) : result (list nat) :=
  match fuel with
  | O => OutOfFuel
  | S fuel' =>
    let seen := match seen with [] => [el] | _ => seen end in
    nbrs <- getitem graph el ;;
    foldM (fun seen x =>
             if mem x seen then Ok seen
             else add_neighbors fuel' graph x (seen ++ [x]))
          nbrs seen
  end.

(** [unseen.remove(y)]: drops the first occurrence. *)
Fixpoint remove_first (y : nat) (l : list nat) : list nat :=
  match l with
  | [] => []
  | x :: l' => if Nat.eqb y x then l' else x :: remove_first y l'
  end.

(** [for y in component: if y in unseen: unseen.remove(y)] *)
Definition remove_seen (component unseen : list nat) : list nat :=
  fold_left (fun u y => if mem y u then remove_first y u else u) component unseen.

(** The [while (unseen != [])] loop, one unit of fuel per round. *)
Fixpoint components_loop (fuel : nat) (graph : list (list nat))
    (unseen : list nat) (sets : list (list nat)) : result (list (list nat)) :=
  match unseen with
  | [] => Ok sets
  | u0 :: us =>
    match fuel with
    | O => OutOfFuel
    | S fuel' =>
      let x := last us u0 in
      let unseen := removelast unseen in
      component <- add_neighbors (S (length graph)) graph x [] ;;
      components_loop fuel' graph (remove_seen component unseen)
                      (sets ++ [component])
    end
  end.

Definition connected_components (graph : list (list nat))
  : result (list (list nat)) :=
  components_loop (length graph) graph (seq 0 (length graph)) [].

(** ** [merge_coordinate] *)

(** numpy's [coor[group]] *)
Definition select {A : Type} (coor : list A) (group : list nat)
  : result (list A) :=
  foldM (fun acc i => p <- getitem coor i ;; Ok (acc ++ [p])) group [].

(** One round of the [while True] loop either returns or goes on with
    the merged points. *)
Inductive round (Point : Type) : Type :=
| Return (coor : list Point) (index : option (nat * Point))
| Continue (merged : list Point).

Arguments Return {Point} coor index.
Arguments Continue {Point} merged.

Section MergeCoordinate.
Context {Point Lattice Op : Type} {G : Geometry Point Lattice Op}.
(** [get_center] only feeds the centroid of a cluster back into the
    loop; its value is left open. *)
Variable get_center : list Point -> Lattice -> list nat -> Point.

Definition merge_round (coor : list Point) (lattice : Lattice)
    (wyckoffs : list (list Op)) (w_symm_all : list (list (list Op)))
    (tol : Q) (PBC : list nat) : result (round Point) :=
  '(pairs, graph) <- find_short_dist coor lattice tol PBC ;;
  if (0 <? length pairs)%nat then
    smallest <- getlast wyckoffs ;;
    if (length smallest <? length coor)%nat then
      groups <- connected_components graph ;;
      merged <- foldM (fun merged group =>
                         pts <- select coor group ;;
                         Ok (merged ++ [get_center pts lattice PBC]))
                      groups [] ;;
      match check_wyckoff_position merged wyckoffs w_symm_all PBC with
      | None => Ok (Return coor None)
      | Some _ => Ok (Continue merged)
      end
    else (* no way to merge *)
      Ok (Return coor None)
  else
    Ok (Return coor (check_wyckoff_position coor wyckoffs w_symm_all PBC)).

(** [merge_coordinate], one unit of fuel per round of the loop. *)
Fixpoint merge_coordinate (fuel : nat) (coor : list Point) (lattice : Lattice)
    (wyckoffs : list (list Op)) (w_symm_all : list (list (list Op)))
    (tol : Q) (PBC : list nat)
  : result (list Point * option (nat * Point)) :=
  match fuel with
  | O => OutOfFuel
  | S fuel' =>
    r <- merge_round coor lattice wyckoffs w_symm_all tol PBC ;;
    match r with
    | Return coor index => Ok (coor, index)
    | Continue merged =>
      merge_coordinate fuel' merged lattice wyckoffs w_symm_all tol PBC
    end
  end.
End MergeCoordinate.

(** ** [choose_wyckoff] *)

(** [random.choice], the draw being the integer [r]. *)
Definition choose {A : Type} (r : nat) (l : list A) : result A :=
  getitem l (r mod length l)%nat.

(** [len(wyckoff[0]) <= number] *)
Definition fits {Op : Type} (wyckoff : list (list Op)) (number : Z)
  : result bool :=
  wp0 <- getitem wyckoff 0%nat ;;
  Ok (Z.of_nat (length wp0) <=? number)%Z.

(** [choose_wyckoff(wyckoffs, number)] with the draws made explicit: [u]
    is [rand_u(0,1)] and [r] drives [choose].  [None] is Python's
    [False]. *)
Definition choose_wyckoff {Op : Type} (u : Q) (r : nat)
    (wyckoffs : list (list (list Op))) (number : Z)
  : result (option (list Op)) :=
  if negb (Qle_bool u (1 # 2)) then
    (* choose from high to low *)
    (fix scan (ws : list (list (list Op))) : result (option (list Op)) :=
       match ws with
       | [] => Ok None
       | wyckoff :: ws' =>
         ok <- fits wyckoff number ;;
         if ok then w <- choose r wyckoff ;; Ok (Some w) else scan ws'
       end) wyckoffs
  else
    good_wyckoff <- foldM (fun good wyckoff =>
                             ok <- fits wyckoff number ;;
                             Ok (if ok then good ++ wyckoff else good))
                          wyckoffs [] ;;
    match good_wyckoff with
    | [] => Ok None
    | _ => w <- choose r good_wyckoff ;; Ok (Some w)
    end.

(** ** [random_crystal.check_compatible] *)

(** A symmetry operation: rotation part and translation part. *)
Record SymmOp : Type := {
  rotation_matrix : list (list Q);
  translation_vector : list Q
}.

(** [m.all()]: every entry is non-zero. *)
Definition ndarray_all (m : list (list Q)) : bool :=
  forallb (forallb (fun q => negb (Qeq_bool q 0))) m.

(** [np.allclose(m, np.zeros([3,3]))] with numpy's [atol = 1e-8]. *)
Definition allclose_zeros (m : list (list Q)) : bool :=
  forallb (forallb (fun q => Qle_bool (Qabs q) (1 # 100000000))) m.

Definition list_eqb {A : Type} (eqb : A -> A -> bool) : list A -> list A -> bool :=
  fix go (l1 l2 : list A) : bool :=
    match l1, l2 with
    | [], [] => true
    | x :: l1', y :: l2' => eqb x y && go l1' l2'
    | _, _ => false
    end.

(** Equality of operations; the entries of the tables are exact. *)
Definition SymmOp_eqb (o1 o2 : SymmOp) : bool :=
  list_eqb (list_eqb Qeq_bool) (rotation_matrix o1) (rotation_matrix o2)
  && list_eqb Qeq_bool (translation_vector o1) (translation_vector o2).

Definition wp_in (wp : list SymmOp) (wps : list (list SymmOp)) : bool :=
  existsb (list_eqb SymmOp_eqb wp) wps.

(** The two variables that [check_compatible] updates across species. *)
Record compat_state : Type := {
  has_freedom : bool;
  removed_wyckoffs : list (list SymmOp)
}.

(** [while remaining >= len(wp) and wp not in removed_wyckoffs: ...] *)
Fixpoint subtract_wp (fuel : nat) (wp : list SymmOp) (st : compat_state)
    (remaining : Z) : result (compat_state * Z) :=
  if (Z.of_nat (length wp) <=? remaining)%Z
     && negb (wp_in wp (removed_wyckoffs st)) then
    match fuel with
    | O => OutOfFuel
    | S fuel' =>
      (* Check if WP has at least one degree of freedom *)
      op <- getitem wp 0%nat ;;
      let remaining := (remaining - Z.of_nat (length wp))%Z in
      if allclose_zeros (rotation_matrix op) then
        subtract_wp fuel' wp
          {| has_freedom := has_freedom st;
             removed_wyckoffs := removed_wyckoffs st ++ [wp] |} remaining
      else
        subtract_wp fuel' wp
          {| has_freedom := true;
             removed_wyckoffs := removed_wyckoffs st |} remaining
    end
  else Ok (st, remaining).

(** numpy's integer remainder: zero, with a warning, for a zero divisor. *)
Definition np_mod (a b : Z) : Z := if (b =? 0)%Z then 0%Z else (a mod b)%Z.

Section CheckCompatible.
Variable wyckoffs_organized : list (list (list SymmOp)).

Definition N_site : result (list nat) :=
  foldM (fun acc x => wp0 <- getitem x 0%nat ;; Ok (acc ++ [length wp0]))
        wyckoffs_organized [].

(** The loop [for numIon in self.numIons] and what follows it. *)
Fixpoint compatible_loop (n_site : list nat) (numIons : list Z)
    (st : compat_state) : result pyval :=
  match numIons with
  | [] =>
    if has_freedom st then Ok (PyBool true)
    else (* Wyckoff Positions have no degrees of freedom *) Ok (PyInt 0)
  | numIon :: rest =>
    (* Check that the number of ions is a multiple of the smallest
       Wyckoff position *)
    smallest <- getlast n_site ;;
    if (0 <? np_mod numIon (Z.of_nat smallest))%Z then Ok (PyBool false)
    else
      (* Check if smallest WP has at least one degree of freedom *)
      group <- getlast wyckoffs_organized ;;
      wp <- getlast group ;;
      op <- getitem wp 0%nat ;;
      if ndarray_all (rotation_matrix op) then
        compatible_loop n_site rest
          {| has_freedom := true; removed_wyckoffs := removed_wyckoffs st |}
      else
        '(st', remaining) <-
          foldM (fun acc x =>
                   foldM (fun '(st, remaining) wp =>
                            subtract_wp (S (Z.to_nat remaining)) wp st remaining)
                         x acc)
                wyckoffs_organized (st, numIon) ;;
        if negb (remaining =? 0)%Z then Ok (PyBool false)
        else compatible_loop n_site rest st'
  end.

Definition check_compatible (numIons : list Z) : result pyval :=
  n_site <- N_site ;;
  compatible_loop n_site numIons
    {| has_freedom := false; removed_wyckoffs := [] |}.
End CheckCompatible.

(** ** [random_crystal.generate_crystal] *)

(** The attributes of [self] that [generate_crystal] reads. *)
Record random_crystal (Point Lattice CellPara : Type) : Type := {
  dim : nat;
  sg : Z;
  number : Z;
  species : list string;
  numIons : list Z;
  volume : Q;
  wyckoffs : list (list SymmOp);
  wyckoffs_organized : list (list (list SymmOp));
  w_symm : list (list (list SymmOp));
  PBC : list nat
}.

(** What a call leaves in [self].  [numattempts] is the attribute of the
    source; [lattice_attempts] and [structure_attempts] count the rounds
    of the two outer loops. *)
Record generated (Point Lattice : Type) : Type := {
  valid : bool;
  lattice : option Lattice;
  coordinates : list Point;
  sites : list string;
  numattempts : nat;
  lattice_attempts : nat;
  structure_attempts : nat
}.

(** The placed atoms: [coordinates_*] and [sites_*]. *)
Definition atoms (Point : Type) : Type := (list Point * list string)%type.

Section GenerateCrystal.
Context {Point Lattice CellPara : Type}.
Context {ES : ElementService} {G : Geometry Point Lattice SymmOp}.

(** The lattice stage of round [cycle1]: [generate_lattice] (or its 2D
    and 1D variants) with [minvec = minvector], [para2matrix], and the
    determinant of the matrix compared with the volume. *)
Variable generate_lattice_for :
  random_crystal Point Lattice CellPara -> nat -> Q -> result (option CellPara).
Variable para2matrix_of : CellPara -> result Lattice.
Variable volume_differs : Q -> Lattice -> bool.
(** The random draws of placement attempt [n]: [rand_u(0,1)], the
    draw of [choose], and [np.random.random(3)] after the shift of the
    non-periodic axes. *)
Variable rand_u : nat -> Q.
Variable rand_choice : nat -> nat.
Variable random_point : nat -> Point.
Variable operate : SymmOp -> Point -> Point.
Variable get_center : list Point -> Lattice -> list nat -> Point.
Variable Add_vacuum : Lattice -> list Point -> list nat -> Lattice * list Point.

Variable self : random_crystal Point Lattice CellPara.

(** The loop [for cycle3 in range(max3)] for one species.  It returns
    the attempt counter, the temporary atoms, [numIon_added] and, when
    it left by [break], the atoms copied to [coordinates_total]. *)
Fixpoint cycle3_loop (cell_matrix : Lattice) (cycle3 : nat) (numIon : Z)
    (specie : string) (tol : Q)
    (attempts : nat) (tmp : atoms Point) (numIon_added : Z)
  : result (nat * atoms Point * Z * option (atoms Point)) :=
  match cycle3 with
  | O => Ok (attempts, tmp, numIon_added, None)
  | S cycle3' =>
    let n := attempts in
    let attempts := S attempts in
    ops <- choose_wyckoff (rand_u n) (rand_choice n)
             (wyckoffs_organized self) (numIon - numIon_added)%Z ;;
    match ops with
    | None => cycle3_loop cell_matrix cycle3' numIon specie tol attempts tmp numIon_added
    | Some ops =>
      let point := random_point n in
      let coords := map (fun op => operate op point) ops in
      '(coords_toadd, good_merge) <-
        merge_coordinate get_center (S (length coords)) coords cell_matrix
          (wyckoffs self) (w_symm self) tol (PBC self) ;;
      match good_merge with
      | None => cycle3_loop cell_matrix cycle3' numIon specie tol attempts tmp numIon_added
      | Some _ =>
        let coords_toadd := filtered_coords coords_toadd (PBC self) in
        let new_sites := repeat specie (length coords_toadd) in
        far <- check_distance (fst tmp) coords_toadd (Symbols (snd tmp))
                 (Symbols new_sites) cell_matrix (PBC self) 1 ;;
        let tmp :=
          if far then (fst tmp ++ coords_toadd, snd tmp ++ new_sites) else tmp in
        let numIon_added :=
          if far then (numIon_added + Z.of_nat (length coords_toadd))%Z
          else numIon_added in
        if (numIon_added =? numIon)%Z then
          Ok (attempts, tmp, numIon_added, Some tmp)
        else cycle3_loop cell_matrix cycle3' numIon specie tol attempts tmp numIon_added
      end
    end
  end.

(** [for numIon, specie in zip(self.numIons, self.species)], with the
    [break] on a species that could not be placed.  The boolean is
    the test [numIon_added == numIon] that follows the loop; it is
    undefined when the loop body never ran. *)
Fixpoint species_loop (cell_matrix : Lattice) (max3 : nat)
    (todo : list (Z * string))
    (attempts : nat) (tmp total : atoms Point) (placed : option bool)
  : result (nat * atoms Point * atoms Point * option bool) :=
  match todo with
  | [] => Ok (attempts, tmp, total, placed)
  | (numIon, specie) :: todo' =>
    let tol := Qmax ((1 # 2) * covalent_radius specie) tol_m in
    '(attempts, tmp, numIon_added, copied) <-
      cycle3_loop cell_matrix max3 numIon specie tol attempts tmp 0%Z ;;
    let total := match copied with Some t => t | None => total end in
    if negb (numIon_added =? numIon)%Z then
      (* need to repeat from the 1st species *)
      Ok (attempts, tmp, total, Some false)
    else species_loop cell_matrix max3 todo' attempts tmp total (Some true)
  end.

(** [for cycle2 in range(max2)]: the atoms of a good structure, if
    any, with the two counters. *)
Fixpoint cycle2_loop (cell_matrix : Lattice) (max3 : nat) (cycle2 : nat)
    (attempts rounds : nat)
    (total : atoms Point) : result (nat * nat * option (atoms Point)) :=
  match cycle2 with
  | O => Ok (attempts, rounds, None)
  | S cycle2' =>
    let rounds := S rounds in
    let tmp := total in
    '(attempts, tmp, total, placed) <-
      species_loop cell_matrix max3 (combine (numIons self) (species self))
                   attempts tmp total None ;;
    match placed with
    | None => Raise NameError
    | Some true => Ok (attempts, rounds, Some total)
    | Some false =>
      (* reset the coordinates and sites *)
      cycle2_loop cell_matrix max3 cycle2' attempts rounds ([], [])
    end
  end.

Definition failed (attempts lattices rounds : nat) : generated Point Lattice :=
  {| valid := false; lattice := None; coordinates := []; sites := [];
     numattempts := attempts; lattice_attempts := lattices;
     structure_attempts := rounds |}.

(** [for cycle1 in range(max1)]; [cycle1] counts the rounds left and
    [lattices] the rounds done. *)
Fixpoint cycle1_loop (minvector : Q) (max2 max3 : nat) (cycle1 : nat)
    (attempts lattices rounds : nat) : result (generated Point Lattice) :=
  match cycle1 with
  | O => Ok (failed attempts lattices rounds)
  | S cycle1' =>
    (* 1, Generate a lattice *)
    cell_para <- generate_lattice_for self lattices minvector ;;
    let lattices' := S lattices in
    match cell_para with
    | None => Ok (failed attempts lattices' rounds)
    | Some cell_para =>
      cell_matrix <- para2matrix_of cell_para ;;
      if volume_differs (volume self) cell_matrix then Raise SystemExit
      else
        '(attempts, rounds, good_structure) <-
          cycle2_loop cell_matrix max3 max2 attempts rounds ([], []) ;;
        match good_structure with
        | Some (coordinates_total, sites_total) =>
          let '(final_lattice, final_coor) :=
            Add_vacuum cell_matrix coordinates_total (PBC self) in
          Ok {| valid := true; lattice := Some final_lattice;
                coordinates := final_coor; sites := sites_total;
                numattempts := attempts; lattice_attempts := lattices';
                structure_attempts := rounds |}
        | None =>
          cycle1_loop minvector max2 max3 cycle1' attempts lattices' rounds
        end
    end
  end.

(** The budgets that the three loops run with: the caller's, else the
    defaults bound when the method was defined, else 5 when
    [check_compatible] returned [0]. *)
Definition budgets (degrees : pyval) (max1_arg max2_arg max3_arg : option nat)
  : nat * nat * nat :=
  match degrees with
  | PyInt 0 => (5, 5, 5)%nat
  | _ => (default max1 max1_arg, default max2 max2_arg, default max3 max3_arg)
  end.

(** [max(2.0*Element(specie).covalent_radius for specie in self.species)] *)
Definition max_diameter : result Q :=
  match map (fun specie => 2 * covalent_radius specie) (species self) with
  | [] => Raise ValueError
  | x :: xs => Ok (fold_left Qmax xs x)
  end.

Definition generate_crystal (max1_arg max2_arg max3_arg : option nat)
  : result (generated Point Lattice) :=
  (* Check the minimum number of degrees of freedom within the Wyckoff
     positions *)
  degrees <- check_compatible (wyckoffs_organized self) (numIons self) ;;
  match degrees with
  | PyBool false => Ok (failed 0 0 0)
  | _ =>
    let '(max1, max2, max3) := budgets degrees max1_arg max2_arg max3_arg in
    (* Calculate a minimum vector length for generating a lattice *)
    widest <- max_diameter ;;
    let minvector := Qmax widest tol_m in
    cycle1_loop minvector max2 max3 max1 0 0 0
  end.
End GenerateCrystal.

(** ** Lattice parameters and lattice matrices *)

Section Lattices.
Local Open Scope R_scope.

Definition vec3 : Type := (R * R * R)%type.
(** The rows are the lattice vectors. *)
Definition mat3 : Type := (vec3 * vec3 * vec3)%type.
(** [[a, b, c, alpha, beta, gamma]] *)
Definition cell_para : Type := (R * R * R * R * R * R)%type.

Definition Rltb (x y : R) : bool := if Rlt_dec x y then true else false.

(** [math.sqrt]: a math domain error below zero. *)
Definition math_sqrt (x : R) : result R :=
  if Rlt_dec x 0 then Raise ValueError else Ok (sqrt x).

(** [math.acos]: a math domain error outside [-1, 1]. *)
Definition math_acos (x : R) : result R :=
  if Rlt_dec x (-1) then Raise ValueError
  else if Rlt_dec 1 x then Raise ValueError
  else Ok (acos x).

(** Division; by zero it leaves the finite reals. *)
Definition fdiv (x y : R) : result R :=
  if Req_dec_T y 0 then NonFinite else Ok (x / y).

(** [np.cbrt], the real cube root. *)
Definition np_cbrt (x : R) : R :=
  if Rlt_dec 0 x then Rpower x (/ 3)
  else if Rlt_dec x 0 then - Rpower (- x) (/ 3)
  else 0.

(** [x ** (1./3.)] on floats: no real value below zero. *)
Definition pow_third (x : R) : result R :=
  if Rlt_dec x 0 then NonFinite else Ok (np_cbrt x).

Definition dot (u v : vec3) : R :=
  let '(u0, u1, u2) := u in
  let '(v0, v1, v2) := v in
  u0 * v0 + u1 * v1 + u2 * v2.

(** [np.linalg.norm] of a vector. *)
Definition norm (u : vec3) : R := sqrt (dot u u).

(** [np.linalg.det] of a 3x3 matrix. *)
Definition det3 (m : mat3) : R :=
  let '((m00, m01, m02), (m10, m11, m12), (m20, m21, m22)) := m in
  m00 * (m11 * m22 - m12 * m21)
  - m01 * (m10 * m22 - m12 * m20)
  + m02 * (m10 * m21 - m11 * m20).

Definition lower_triangular (m : mat3) : Prop :=
  let '((_, m01, m02), (_, _, m12), _) := m in
  m01 = 0 /\ m02 = 0 /\ m12 = 0.

(** Modelled from the spec: [angle] of [pyxtal.operations], which
    [matrix2para] calls and [crystal.py] only imports.  Spec 4.1:
    "angles via the arccos of normalized dot products". *)
Definition angle (v1 v2 : vec3) : result R :=
  cosine <- fdiv (dot v1 v2) (norm v1 * norm v2) ;;
  math_acos cosine.

Inductive matrix_format : Type := lower | symmetric | upper.

Definition zeros3 : mat3 := ((0, 0, 0), (0, 0, 0), (0, 0, 0)).

(** The radicand of the last entry of the lower-triangular form. *)
Definition lower_radicand (p : cell_para) : R :=
  let '(a, b, c, alpha, beta, gamma) := p in
  let c1 := c * cos beta in
  let c2 := (c * (cos alpha - cos beta * cos gamma)) / sin gamma in
  c ^ 2 - c1 ^ 2 - c2 ^ 2.

Definition para2matrix (p : cell_para) (radians : bool)
    (format : matrix_format) : result mat3 :=
  let '(a, b, c, alpha, beta, gamma) := p in
  let rad := PI / 180 in
  let alpha := if radians then alpha else alpha * rad in
  let beta := if radians then beta else beta * rad in
  let gamma := if radians then gamma else gamma * rad in
  let cos_alpha := cos alpha in
  let cos_beta := cos beta in
  let cos_gamma := cos gamma in
  let sin_gamma := sin gamma in
  let sin_alpha := sin alpha in
  match format with
  | lower =>
    (* Generate a lower-diagonal matrix *)
    let c1 := c * cos_beta in
    c2 <- fdiv (c * (cos_alpha - cos_beta * cos_gamma)) sin_gamma ;;
    m22 <- math_sqrt (c ^ 2 - c1 ^ 2 - c2 ^ 2) ;;
    Ok ((a, 0, 0), (b * cos_gamma, b * sin_gamma, 0), (c1, c2, m22))
  | symmetric => Ok zeros3
  | upper =>
    (* Generate an upper-diagonal matrix *)
    let a3 := a * cos_beta in
    a2 <- fdiv (a * (cos_gamma - cos_beta * cos_alpha)) sin_alpha ;;
    m00 <- math_sqrt (a ^ 2 - a3 ^ 2 - a2 ^ 2) ;;
    Ok ((m00, a2, a3), (0, b * sin_alpha, b * cos_alpha), (0, 0, c))
  end.

Definition matrix2para (matrix : mat3) (radians : bool) : result cell_para :=
  let '(row0, row1, row2) := matrix in
  let a := norm row0 in
  let b := norm row1 in
  let c := norm row2 in
  alpha <- angle row1 row2 ;;
  beta <- angle row0 row2 ;;
  gamma <- angle row0 row1 ;;
  let deg := 180 / PI in
  if radians then Ok (a, b, c, alpha, beta, gamma)
  else Ok (a, b, c, alpha * deg, beta * deg, gamma * deg).

(** ** [generate_lattice] *)

(** The random draws of one attempt: [random_shear_matrix(width=0.2)],
    [random_vector()], and the value that [gaussian(minangle,
    maxangle)] returns. *)
Record draw : Type := {
  shear : mat3;
  vec : vec3;
  gauss : R
}.

(** [a, b, c = vec[i]*np.cbrt(abc)/np.cbrt(xyz)] *)
Definition scaled_edges (vec : vec3) (abc : R) : result (R * R * R) :=
  let '(vec0, vec1, vec2) := vec in
  let xyz := vec0 * vec1 * vec2 in
  a <- fdiv (vec0 * np_cbrt abc) (np_cbrt xyz) ;;
  b <- fdiv (vec1 * np_cbrt abc) (np_cbrt xyz) ;;
  c <- fdiv (vec2 * np_cbrt abc) (np_cbrt xyz) ;;
  Ok (a, b, c).

(** [c = vec[2]/(vec[0]*vec[1])*np.cbrt(volume/x)] and
    [a = b = sqrt((volume/x)/c)] *)
Definition square_base (vec : vec3) (volume x : R) : result (R * R * R) :=
  let '(vec0, vec1, vec2) := vec in
  vx <- fdiv volume x ;;
  ratio <- fdiv vec2 (vec0 * vec1) ;;
  let c := ratio * np_cbrt vx in
  area <- fdiv vx c ;;
  a <- math_sqrt area ;;
  Ok (a, a, c).

(** The parameters drawn in one round of the loop, by crystal system. *)
Definition sample_para (sg : Z) (volume : R) (d : draw) : result cell_para :=
  if (sg <=? 2)%Z then
    (* Triclinic *)
    '(_, _, _, alpha, beta, gamma) <- matrix2para (shear d) true ;;
    x <- math_sqrt (1 - cos alpha ^ 2 - cos beta ^ 2 - cos gamma ^ 2
                    + 2 * (cos alpha * cos beta * cos gamma)) ;;
    abc <- fdiv volume x ;;
    '(a, b, c) <- scaled_edges (vec d) abc ;;
    Ok (a, b, c, alpha, beta, gamma)
  else if (sg <=? 15)%Z then
    (* Monoclinic *)
    let alpha := PI / 2 in
    let gamma := PI / 2 in
    let beta := gauss d in
    let x := sin beta in
    abc <- fdiv volume x ;;
    '(a, b, c) <- scaled_edges (vec d) abc ;;
    Ok (a, b, c, alpha, beta, gamma)
  else if (sg <=? 74)%Z then
    (* Orthorhombic *)
    let x := 1 in
    abc <- fdiv volume x ;;
    '(a, b, c) <- scaled_edges (vec d) abc ;;
    Ok (a, b, c, PI / 2, PI / 2, PI / 2)
  else if (sg <=? 142)%Z then
    (* Tetragonal *)
    '(a, b, c) <- square_base (vec d) volume 1 ;;
    Ok (a, b, c, PI / 2, PI / 2, PI / 2)
  else if (sg <=? 194)%Z then
    (* Trigonal/Rhombohedral/Hexagonal *)
    '(a, b, c) <- square_base (vec d) volume (sqrt 3 / 2) ;;
    Ok (a, b, c, PI / 2, PI / 2, PI / 3 * 2)
  else
    (* Cubic *)
    s <- pow_third volume ;;
    Ok (s, s, s, PI / 2, PI / 2, PI / 2).

(** [smallvec] *)
Definition smallvec (p : cell_para) : R :=
  let '(a, b, c, alpha, beta, gamma) := p in
  Rmin (a * cos (Rmax beta gamma))
       (Rmin (b * cos (Rmax alpha gamma)) (c * cos (Rmax alpha beta))).

(** "Check that lattice meets requirements" *)
Definition meets_requirements (p : cell_para) (minvec minangle max_ratio : R)
  : result bool :=
  let '(a, b, c, alpha, beta, gamma) := p in
  let maxangle := PI - minangle in
  maxvec <- fdiv (a * b * c) (minvec ^ 2) ;;
  if Rltb minvec maxvec then
    Ok (Rltb minvec a && Rltb minvec b && Rltb minvec c
        && Rltb a maxvec && Rltb b maxvec && Rltb c maxvec
        && Rltb (smallvec p) minvec
        && Rltb minangle alpha && Rltb minangle beta && Rltb minangle gamma
        && Rltb alpha maxangle && Rltb beta maxangle && Rltb gamma maxangle
        && Rltb (a / b) max_ratio && Rltb (a / c) max_ratio
        && Rltb (b / c) max_ratio && Rltb (b / a) max_ratio
        && Rltb (c / a) max_ratio && Rltb (c / b) max_ratio)
  else Ok false.

(** [for n in range(maxattempts)]: [left] rounds to go, round [n] next. *)
Fixpoint lattice_loop (sg : Z) (volume minvec minangle max_ratio : R)
    (draws : nat -> draw) (left n : nat) : result (option cell_para) :=
  match left with
  | O => Ok None
  | S left' =>
    p <- sample_para sg volume (draws n) ;;
    good <- meets_requirements p minvec minangle max_ratio ;;
    if good then Ok (Some p)
    else lattice_loop sg volume minvec minangle max_ratio draws left' (S n)
  end.

(** [generate_lattice(sg, volume, minvec, minangle, max_ratio,
    maxattempts)]; the defaults of the last four are [tol_m], [pi/6],
    [10.0] and [100].  With no round at all the error message reads an
    unbound [n]. *)
Definition generate_lattice (sg : Z) (volume minvec minangle max_ratio : R)
    (maxattempts : nat) (draws : nat -> draw) : result (option cell_para) :=
  match maxattempts with
  | O => Raise NameError
  | _ => lattice_loop sg volume minvec minangle max_ratio draws maxattempts 0
  end.

(** The acceptance predicate of spec sections 3 and 4.2. *)
Definition accepted (p : cell_para) (minvec minangle max_ratio : R) : Prop :=
  let '(a, b, c, alpha, beta, gamma) := p in
  (minvec <= a /\ minvec <= b /\ minvec <= c)
  /\ (minangle < alpha < PI - minangle
      /\ minangle < beta < PI - minangle
      /\ minangle < gamma < PI - minangle)
  /\ (a / b <= max_ratio /\ a / c <= max_ratio /\ b / c <= max_ratio
      /\ b / a <= max_ratio /\ c / a <= max_ratio /\ c / b <= max_ratio)
  /\ Rmin (a * cos (Rmax beta gamma))
          (Rmin (b * cos (Rmax alpha gamma)) (c * cos (Rmax alpha beta)))
     < minvec.

(** The lattice stage of the driver for a 3D crystal (lines 1124 and
    1129-1136): sample, convert, compare the determinant with the
    volume. *)
Definition lattice_stage (sg : Z) (volume minvector : R)
    (draws : nat -> draw) : result (option mat3) :=
  cell_para <- generate_lattice sg volume minvector (PI / 6) 10 100 draws ;;
  match cell_para with
  | None => Ok None
  | Some cell_para =>
    cell_matrix <- para2matrix cell_para true lower ;;
    if Rltb 1 (Rabs (volume - det3 cell_matrix)) then Raise SystemExit
    else Ok (Some cell_matrix)
  end.
End Lattices.

(** ** The same notions as the specification words them *)

(** Spec section 3: "A WP is said to have positional freedom when its
    first operation's rotation is not the zero matrix." *)
Definition spec_positional_freedom (wp : list SymmOp) : bool :=
  match wp with
  | [] => false
  | op :: _ =>
    negb (forallb (forallb (fun q => Qeq_bool q 0)) (rotation_matrix op))
  end.

(** The entries above the diagonal of a distance matrix. *)
Definition off_diagonal (d : list (list Q)) : list (nat * nat * Q) :=
  flat_map (fun '(i, row) =>
              flat_map (fun '(j, x) => if (i <? j)%nat then [(i, j, x)] else [])
                       (enumerate row))
           (enumerate d).

(** Spec section 4.4, steps 2 and 3: "Let d_min be the smallest
    off-diagonal distance", "edges are pairs (i,j) with
    d(i,j) <= d_min + 10^-3". *)
Definition spec_edges (d : list (list Q)) : list (nat * nat) :=
  match map pair_dist (off_diagonal d) with
  | [] => []
  | x :: xs =>
    let d_min := min_list x xs in
    map fst (filter (fun e => Qle_bool (pair_dist e) (d_min + (1 # 1000)))
                    (off_diagonal d))
  end.

(** The edges [(i, j)], [i < j], of a connectivity map. *)
Definition graph_edges (graph : list (list nat)) : list (nat * nat) :=
  flat_map (fun '(i, nbrs) =>
              map (fun j => (i, j)) (filter (fun j => (i <? j)%nat) nbrs))
           (enumerate graph).

(** Some off-diagonal distance is within the tolerance. *)
Definition some_short (d : list (list Q)) (tol : Q) : bool :=
  existsb (fun e => Qle_bool (pair_dist e) tol) (off_diagonal d).

(** ** Concrete inputs *)

Definition symm_op (r : list (list Q)) (t : list Q) : SymmOp :=
  {| rotation_matrix := r; translation_vector := t |}.

(** The first operations of the Wyckoff positions 24c [(x,y,z)], 12b
    [(x,0,1/4)] and 8a [(x,x,x)] of space group 199 (I2_1 3). *)
Definition op_xyz : SymmOp := symm_op [[1; 0; 0]; [0; 1; 0]; [0; 0; 1]] [0; 0; 0].
Definition op_x0q : SymmOp := symm_op [[1; 0; 0]; [0; 0; 0]; [0; 0; 0]] [0; 0; 1 # 4].
Definition op_xxx : SymmOp := symm_op [[1; 0; 0]; [1; 0; 0]; [1; 0; 0]] [0; 0; 0].

(** [wyckoffs_organized] of space group 199, by multiplicity; the
    predicate reads the length of a position and its first operation
    only. *)
Definition wp_24c : list SymmOp := repeat op_xyz 24.
Definition wp_12b : list SymmOp := repeat op_x0q 12.
Definition wp_8a : list SymmOp := repeat op_xxx 8.
Definition sg199_organized : list (list (list SymmOp)) :=
  [[wp_24c]; [wp_12b]; [wp_8a]].

(** Points on the x axis of a cubic cell: a point is its fractional x
    coordinate, the lattice is the edge of the cell, and the
    minimum-image distance is taken over the images -1, 0 and 1. *)
Definition axis_distance (edge x1 x2 : Q) : Q :=
  edge * Qmin (Qabs (x2 - x1)) (Qmin (Qabs (x2 - x1 + 1)) (Qabs (x2 - x1 - 1))).

Definition cubic_axis : Geometry Q Q SymmOp :=
  {| distance_matrix := fun c1 c2 edge _ =>
       Ok (map (fun x1 => map (fun x2 => axis_distance edge x1 x2) c2) c1);
     check_wyckoff_position := fun _ _ _ _ => None;
     filtered_coords := fun c _ => c |}.

(** x = 0, 0.5 and 0.01 in a cell of edge 10: the first and the third
    point are 0.1 apart, the second is 5 and 4.9 away from them. *)
Definition three_on_axis : list Q := [0; 1 # 2; 1 # 100].

(** A periodic table that knows carbon. *)
Definition carbon_table : ElementService :=
  {| covalent_radius := fun _ => 76 # 100;
     vdw_radius := fun _ => 17 # 10;
     atomic_number := fun _ => 6%Z |}.

(** A geometry in which no orbit is ever recognised as a Wyckoff
    position. *)
Definition never_placed : Geometry unit unit SymmOp :=
  {| distance_matrix := fun c1 c2 _ _ =>
       Ok (map (fun _ => map (fun _ => 0) c2) c1);
     check_wyckoff_position := fun _ _ _ _ => None;
     filtered_coords := fun c _ => c |}.






(** A geometry whose [distance_matrix] cannot be called without the
    call showing. *)
Definition no_distances : Geometry Q unit SymmOp :=
  {| distance_matrix := fun _ _ _ _ => Raise SystemExit;
     check_wyckoff_position := fun _ _ _ _ => None;
     filtered_coords := fun c _ => c |}.


(** ** Notions used to state the properties *)

(** Two parameter tuples agree within [eps], component by component. *)
Definition close_para (eps : R) (p q : cell_para) : Prop :=
  let '(a, b, c, alpha, beta, gamma) := p in
  let '(a', b', c', alpha', beta', gamma') := q in
  (Rabs (a' - a) <= eps /\ Rabs (b' - b) <= eps /\ Rabs (c' - c) <= eps
   /\ Rabs (alpha' - alpha) <= eps /\ Rabs (beta' - beta) <= eps
   /\ Rabs (gamma' - gamma) <= eps)%R.

(** The Gram determinant of three unit vectors with the given angles:
    the radicand of [x] in the triclinic branch of [generate_lattice]. *)
Definition gram (alpha beta gamma : R) : R :=
  (1 - cos alpha ^ 2 - cos beta ^ 2 - cos gamma ^ 2
   + 2 * (cos alpha * cos beta * cos gamma))%R.

(** [j] is in the list of [i] in a connectivity map. *)
Definition adjacent (graph : list (list nat)) (i j : nat) : Prop :=
  exists l, nth_error graph i = Some l /\ In j l.

Definition symmetric_graph (graph : list (list nat)) : Prop :=
  forall i j, adjacent graph i j -> adjacent graph j i.

Definition well_formed (graph : list (list nat)) : Prop :=
  forall i j, adjacent graph i j -> (j < length graph)%nat.

(** Every neighbour of a vertex of [vs] is in [seen]. *)
Definition closed_on (graph : list (list nat)) (vs seen : list nat) : Prop :=
  forall v w, In v vs -> adjacent graph v w -> In w seen.

(** The list that [add_neighbors] works on: [[el]] on the first call. *)
Definition seen_or_start (el : nat) (seen : list nat) : list nat :=
  match seen with
  | [] => [el]
  | _ => seen
  end.

(** A table of distances between [n] points: square, and no point away
    from itself. *)
Definition distance_table (n : nat) (d : list (list Q)) : Prop :=
  length d = n
  /\ (forall row, In row d -> length row = n)
  /\ (forall i row x, nth_error d i = Some row -> nth_error row i = Some x -> x == 0).

(** The geometry of [cubic_axis] in which every point set is recognised
    as a Wyckoff position, and the plain mean in place of [get_center]. *)
Definition axis_placed : Geometry Q Q SymmOp :=
  {| distance_matrix := fun c1 c2 edge _ =>
       Ok (map (fun x1 => map (fun x2 => axis_distance edge x1 x2) c2) c1);
     check_wyckoff_position := fun pts _ _ _ => Some (0%nat, hd 0 pts);
     filtered_coords := fun c _ => c |}.

Definition plain_mean (pts : list Q) (edge : Q) (PBC : list nat) : Q :=
  fold_right Qplus 0 pts / inject_Z (Z.of_nat (length pts)).

(** [three_on_axis] after one round: the mean of the second and third
    point, and the first point. *)
Definition merged_on_axis : list Q := [102 # 400; 0].

(** Three carbon atoms on an axis of length 10, for a group with one
    position of three operations, x, x + 1/2 and x + 1/20, and one of a
    single operation.  The orbit of x = 0 has two atoms 0.5 apart. *)
Definition shift (t : Q) : SymmOp := symm_op [[1]] [t].

Definition axis_carbon : random_crystal Q Q Q :=
  {| dim := 3; sg := 1; number := 1; species := ["C"%string]; numIons := [3%Z];
     volume := 10;
     wyckoffs := [[shift 0; shift (1 # 2); shift (1 # 20)]; [shift 0]];
     wyckoffs_organized :=
       [[[shift 0; shift (1 # 2); shift (1 # 20)]]; [[shift 0]]];
     w_symm := []; PBC := [1; 2; 3]%nat |}.

(** The driver on [axis_carbon]: the cell has edge 10, every point drawn
    is x = 0, every point set is recognised, and the centre of a group
    is its plain mean. *)
Definition axis_carbon_run : result (generated Q Q) :=
  @generate_crystal Q Q Q carbon_table axis_placed
    (fun _ _ _ => Ok (Some 10)) (fun edge => Ok edge) (fun _ _ => false)
    (fun _ => 1) (fun _ => 0%nat) (fun _ => 0)
    (fun op x => x + hd 0 (translation_vector op))
    plain_mean (fun l c _ => (l, c))
    axis_carbon None None None.

(** ** The remaining functions of [crystal.py], and the notions and
    inputs of their properties *)

From Stdlib Require Import Permutation.

Unset Implicit Arguments.

(** The sites of a finished crystal as the driver lays them out: the
    species in the order given, each with its number of atoms. *)
Definition expected_sites (todo : list (Z * string)) : list string :=
  flat_map (fun '(numIon, specie) => repeat specie (Z.to_nat numIon)) todo.

(** [v] can be reached from [u] along the lists of a connectivity map. *)
Inductive connected (graph : list (list nat)) : nat -> nat -> Prop :=
| connected_here : forall u, connected graph u u
| connected_step : forall u v w,
    adjacent graph u v -> connected graph v w -> connected graph u w.

(** What the loop of [connected_components] keeps true of the vertices
    still [unseen] and the components found so far. *)
Definition components_invariant (graph : list (list nat))
    (unseen : list nat) (sets : list (list nat)) : Prop :=
  NoDup (concat sets ++ unseen)
  /\ (forall v, In v (concat sets ++ unseen) <-> (v < length graph)%nat)
  /\ (forall s, In s sets -> closed_on graph s s)
  /\ (forall s, In s sets -> exists x, In x s /\ forall v, In v s -> connected graph x v).

(** [well_formed] and [symmetric_graph], decided. *)
Definition well_formedb (graph : list (list nat)) : bool :=
  forallb (forallb (fun j => (j <? length graph)%nat)) graph.

Definition symmetricb (graph : list (list nat)) : bool :=
  forallb (fun '(i, l) =>
             forallb (fun j => match nth_error graph j with
                               | Some l' => mem i l'
                               | None => false
                               end) l)
          (enumerate graph).

(** Three vertices, the first two joined. *)
Definition one_edge : list (list nat) := [[1]; [0]; []]%nat.

(** Points that all coincide, on the axis of [cubic_axis]. *)
Definition three_coincident : list Q := [1 # 4; 1 # 4; 1 # 4].

(** ** [verify_distances] *)

Section VerifyDistances.
Context {Point Lattice : Type} {ES : ElementService}.

(** [distance(np.array(c2) - np.array(c1), lattice, PBC=PBC)] for the
    points [c1] and [c2]; [distance] is imported, like
    [distance_matrix]. *)
Variable distance : Point -> Point -> Lattice -> list nat -> Q.

Variable species : list string.
Variable lattice : Lattice.
Variable factor : Q.
Variable PBC : list nat.

(** [for j, c2 in enumerate(coordinates)]: [Ok false] is the
    [return False] of the body, [Ok true] the end of the loop. *)
Fixpoint verify_inner (i : nat) (specie1 : string) (c1 : Point)
    (rest : list (nat * Point)) : result bool :=
  match rest with
  | [] => Ok true
  | (j, c2) :: rest' =>
    if (i <? j)%nat then
      specie2 <- getitem species j ;;
      let d_min := distance c1 c2 lattice PBC in
      let tol := factor * (1 # 2)
                 * (covalent_radius specie1 + covalent_radius specie2) in
      if negb (Qle_bool tol d_min) then Ok false
      else verify_inner i specie1 c1 rest'
    else verify_inner i specie1 c1 rest'
  end.

(** [for i, c1 in enumerate(coordinates)] *)
Fixpoint verify_outer (coordinates todo : list (nat * Point)) : result bool :=
  match todo with
  | [] => Ok true
  | (i, c1) :: todo' =>
    specie1 <- getitem species i ;;
    far <- verify_inner i specie1 c1 coordinates ;;
    if far then verify_outer coordinates todo' else Ok false
  end.
End VerifyDistances.

Definition verify_distances {Point Lattice : Type} {ES : ElementService}
    (distance : Point -> Point -> Lattice -> list nat -> Q)
    (coordinates : list Point) (species : list string) (lattice : Lattice)
    (factor : Q) (PBC : list nat) : result bool :=
  verify_outer distance species lattice factor PBC
    (enumerate coordinates) (enumerate coordinates).

(** Two atoms half a cell edge apart on an axis. *)
Definition carbon_pair : list Q := [0; 1 # 2].

(** Two groups of positions, of multiplicity 2 and 1. *)
Definition two_groups : list (list (list nat)) :=
  [[[1; 2]; [3; 4]]; [[5]]]%nat.

(** A call that returns a value satisfying [P] or raises [IndexError]. *)
Definition returns_or_index_error {A : Type} (P : A -> Prop) (r : result A)
  : Prop :=
  match r with
  | Ok a => P a
  | Raise IndexError => True
  | _ => False
  end.

(** An operation whose rotation matrix has no zero entry, and a space
    group whose only position consists of it. *)
Definition op_sum : SymmOp := symm_op [[1; 1; 1]; [1; 1; 1]; [1; 1; 1]] [0; 0; 0].
Definition one_position : list (list (list SymmOp)) := [[[op_sum; op_sum]]].

(** ** [gaussian] *)

Section Gaussian.
Local Open Scope R_scope.

(** [np.random.normal(scale=ratio, loc=center)]: the value drawn in
    round [n]. *)
Variable normal : R -> R -> nat -> R.

(** [while True]: round [n] next.  [np.random.normal] refuses a
    negative scale. *)
Fixpoint gaussian_loop (min max ratio center : R) (fuel n : nat) : result R :=
  match fuel with
  | O => OutOfFuel
  | S fuel' =>
    if Rltb ratio 0 then Raise ValueError
    else
      let x := normal ratio center n in
      if Rltb min x && Rltb x max then Ok x
      else gaussian_loop min max ratio center fuel' (S n)
  end.

Definition gaussian (fuel : nat) (min max sigma : R) : result R :=
  let center := (max + min) * (1 / 2) in
  let delta := Rabs (max - min) * (1 / 2) in
  ratio <- fdiv delta sigma ;;
  gaussian_loop min max ratio center fuel 0.
End Gaussian.

(** Draws that move away from the centre until the third one. *)
Definition third_draw (scale loc : R) (n : nat) : R :=
  match n with
  | 0%nat => (loc + 10 * scale)%R
  | 1%nat => (loc - 10 * scale)%R
  | _ => loc
  end.

(** ** [estimate_volume] *)

Section EstimateVolume.
Context {ES : ElementService}.
Local Open Scope R_scope.

(** [rand_u(a, b)]: the value drawn by call [n]. *)
Variable rand_u : R -> R -> nat -> R.

Definition estimate_volume (numIons : list Z) (species : list string)
    (factor : R) : R :=
  let volume :=
    fold_left
      (fun volume '(n, (numIon, specie)) =>
         let r := rand_u (Q2R (covalent_radius specie))
                         (Q2R (vdw_radius specie)) n in
         volume + IZR numIon * 4 / 3 * PI * r ^ 3)
      (enumerate (combine numIons species)) 0 in
  factor * volume.
End EstimateVolume.

Definition upper_triangular (m : mat3) : Prop :=
  let '(_, (m10, _, _), (m20, m21, _)) := m in
  (m10 = 0 /\ m20 = 0 /\ m21 = 0)%R.

(** ** [generate_lattice_2D] and [generate_lattice_1D] *)

Section LowDimensionalLattices.
Local Open Scope R_scope.

(** The random draws of one attempt of [generate_lattice_2D] or
    [generate_lattice_1D]: [v = random_vector()] for the thickness, and
    the draws of the crystal-system branches. *)
Record layer_draw : Type := {
  thickness_vector : vec3;
  others : draw
}.

(** [np.cbrt(volume)*(v[0]/(v[0]*v[1]*v[2]))] *)
Definition chosen_thickness (volume : R) (v : vec3) : result R :=
  let '(v0, v1, v2) := v in
  ratio <- fdiv v0 (v0 * v1 * v2) ;;
  Ok (np_cbrt volume * ratio).

(** [ratio = a/b; abc[0] = sqrt(ab*ratio); abc[1] = sqrt(ab/ratio)] *)
Definition split_area (ab a b : R) : result (R * R) :=
  ratio <- fdiv a b ;;
  abc0 <- math_sqrt (ab * ratio) ;;
  q <- fdiv ab ratio ;;
  abc1 <- math_sqrt q ;;
  Ok (abc0, abc1).

(** The triclinic branch, the same in both functions. *)
Definition triclinic_layer (volume thickness1 : R) (d : draw) : result cell_para :=
  '(a, b, c, alpha, beta, gamma) <- matrix2para (shear d) true ;;
  x <- math_sqrt (1 - cos alpha ^ 2 - cos beta ^ 2 - cos gamma ^ 2
                  + 2 * (cos alpha * cos beta * cos gamma)) ;;
  (* scale thickness by outer product of vectors *)
  abc2 <- fdiv thickness1 x ;;
  ab <- fdiv volume (abc2 * x) ;;
  '(abc0, abc1) <- split_area ab a b ;;
  Ok (abc0, abc1, abc2, alpha, beta, gamma).

(** The orthorhombic branch. *)
Definition orthorhombic_layer (volume thickness1 : R) (d : draw)
  : result cell_para :=
  let '(vec0, vec1, _) := vec d in
  q <- fdiv vec0 vec1 ;;
  let ratio := Rabs q in
  r <- fdiv volume (thickness1 * ratio) ;;
  abc1 <- math_sqrt r ;;
  Ok (abc1 * ratio, abc1, thickness1, PI / 2, PI / 2, PI / 2).

(** The tetragonal branch. *)
Definition tetragonal_layer (volume thickness1 : R) : result cell_para :=
  q <- fdiv volume thickness1 ;;
  s <- math_sqrt q ;;
  Ok (s, s, thickness1, PI / 2, PI / 2, PI / 2).

(** The trigonal, rhombohedral and hexagonal branch. *)
Definition hexagonal_layer (volume thickness1 : R) : result cell_para :=
  let x := sqrt 3 / 2 in
  vx <- fdiv volume x ;;
  q <- fdiv vx thickness1 ;;
  s <- math_sqrt q ;;
  Ok (s, s, thickness1, PI / 2, PI / 2, PI / 3 * 2).

(** One round of [generate_lattice_2D].  The non-periodic axis [NPA]
    is 3, so of the tests on [NPA] the first always holds.  The unique
    axis of a monoclinic group is c for 3 to 7 and a for 8 to 18. *)
Definition sample_para_2D (num : Z) (volume : R) (thickness : option R)
    (d : layer_draw) : result cell_para :=
  thickness1 <- match thickness with
                | None => chosen_thickness volume (thickness_vector d)
                | Some thickness => Ok thickness
                end ;;
  if (num <=? 2)%Z then
    (* Triclinic *)
    triclinic_layer volume thickness1 (others d)
  else if (num <=? 18)%Z then
    (* Monoclinic *)
    let '(a, b, c) := vec (others d) in
    if (num <? 8)%Z then
      let gamma := gauss (others d) in
      let x := sin gamma in
      ab <- fdiv volume (thickness1 * x) ;;
      '(abc0, abc1) <- split_area ab a b ;;
      Ok (abc0, abc1, thickness1, PI / 2, PI / 2, gamma)
    else
      let alpha := gauss (others d) in
      let x := sin alpha in
      ab <- fdiv volume (thickness1 * x) ;;
      '(abc0, abc1) <- split_area ab a b ;;
      Ok (abc0, abc1, thickness1, alpha, PI / 2, PI / 2)
  else if (num <=? 48)%Z then
    (* Orthorhombic *)
    orthorhombic_layer volume thickness1 (others d)
  else if (num <=? 64)%Z then
    (* Tetragonal *)
    tetragonal_layer volume thickness1
  else if (num <=? 80)%Z then
    (* Trigonal/Rhombohedral/Hexagonal *)
    hexagonal_layer volume thickness1
  else Ok (1, 1, thickness1, PI / 2, PI / 2, PI / 2).

(** One round of [generate_lattice_1D].  The periodic axis [PA] is 3.
    The unique axis of a monoclinic group is a for 3 to 7 and c for 8
    to 12; for the axis a the angle drawn is bound to the name [alhpa],
    which nothing reads, and [x] is the sine of the right angle. *)
Definition sample_para_1D (num : Z) (volume : R) (area : option R)
    (d : layer_draw) : result cell_para :=
  thickness1 <- match area with
                | None => chosen_thickness volume (thickness_vector d)
                | Some area => fdiv volume area
                end ;;
  if (num <=? 2)%Z then
    (* Triclinic *)
    triclinic_layer volume thickness1 (others d)
  else if (num <=? 12)%Z then
    (* Monoclinic *)
    let '(a, b, c) := vec (others d) in
    if (num <? 8)%Z then
      let alhpa := gauss (others d) in
      let x := sin (PI / 2) in
      ab <- fdiv volume (thickness1 * x) ;;
      '(abc0, abc1) <- split_area ab a b ;;
      Ok (abc0, abc1, thickness1, PI / 2, PI / 2, PI / 2)
    else
      let gamma := gauss (others d) in
      let x := sin gamma in
      ab <- fdiv volume (thickness1 * x) ;;
      '(abc0, abc1) <- split_area ab a b ;;
      Ok (abc0, abc1, thickness1, PI / 2, PI / 2, gamma)
  else if (num <=? 22)%Z then
    (* Orthorhombic *)
    orthorhombic_layer volume thickness1 (others d)
  else if (num <=? 41)%Z then
    (* Tetragonal *)
    tetragonal_layer volume thickness1
  else if (num <=? 75)%Z then
    (* Trigonal/Rhombohedral/Hexagonal *)
    hexagonal_layer volume thickness1
  else Ok (1, 1, thickness1, PI / 2, PI / 2, PI / 2).

(** [for n in range(maxattempts)] around a sampler and the acceptance
    test, as in [generate_lattice]. *)
Fixpoint sampling_loop (sample : layer_draw -> result cell_para)
    (minvec minangle max_ratio : R) (draws : nat -> layer_draw)
    (left n : nat) : result (option cell_para) :=
  match left with
  | O => Ok None
  | S left' =>
    p <- sample (draws n) ;;
    good <- meets_requirements p minvec minangle max_ratio ;;
    if good then Ok (Some p)
    else sampling_loop sample minvec minangle max_ratio draws left' (S n)
  end.

Definition generate_lattice_2D (num : Z) (volume : R) (thickness : option R)
    (minvec minangle max_ratio : R) (maxattempts : nat)
    (draws : nat -> layer_draw) : result (option cell_para) :=
  match maxattempts with
  | O => Raise NameError
  | _ => sampling_loop (sample_para_2D num volume thickness)
                       minvec minangle max_ratio draws maxattempts 0
  end.

Definition generate_lattice_1D (num : Z) (volume : R) (area : option R)
    (minvec minangle max_ratio : R) (maxattempts : nat)
    (draws : nat -> layer_draw) : result (option cell_para) :=
  match maxattempts with
  | O => Raise NameError
  | _ => sampling_loop (sample_para_1D num volume area)
                       minvec minangle max_ratio draws maxattempts 0
  end.
End LowDimensionalLattices.

(** Draws with [random_vector() = (1, 1, 1)] and the angle drawn
    [2 pi / 5]. *)
Definition unit_draws (n : nat) : layer_draw :=
  {| thickness_vector := (1, 1, 1)%R;
     others := {| shear := zeros3; vec := (1, 1, 1)%R; gauss := (2 * (PI / 5))%R |} |}.

(** ** [Add_vacuum] *)

Section AddVacuum.
Local Open Scope R_scope.

(** What a call of [Add_vacuum] comes to: the pair it returns; the
    [LinAlgError] of [np.linalg.inv] on a singular matrix; or, for a
    lattice vector of length zero, values that are no finite reals. *)
Inductive vacuum_outcome : Type :=
| Padded (lattice : mat3) (new_coor : list vec3)
| Singular
| NotFinite.

(** [np.dot] of a row vector and a matrix. *)
Definition vec_dot_mat (x : vec3) (m : mat3) : vec3 :=
  let '(x0, x1, x2) := x in
  let '((m00, m01, m02), (m10, m11, m12), (m20, m21, m22)) := m in
  (x0 * m00 + x1 * m10 + x2 * m20,
   x0 * m01 + x1 * m11 + x2 * m21,
   x0 * m02 + x1 * m12 + x2 * m22).

(** [np.dot(coor, lattice)] for a list of points. *)
Definition np_dot (coor : list vec3) (m : mat3) : list vec3 :=
  map (fun x => vec_dot_mat x m) coor.

(** [np.linalg.inv]; [None] is the [LinAlgError]. *)
Definition np_linalg_inv (m : mat3) : option mat3 :=
  let '((m00, m01, m02), (m10, m11, m12), (m20, m21, m22)) := m in
  let d := det3 m in
  if Req_dec_T d 0 then None
  else Some (((m11 * m22 - m12 * m21) / d, (m02 * m21 - m01 * m22) / d,
              (m01 * m12 - m02 * m11) / d),
             ((m12 * m20 - m10 * m22) / d, (m00 * m22 - m02 * m20) / d,
              (m02 * m10 - m00 * m12) / d),
             ((m10 * m21 - m11 * m20) / d, (m01 * m20 - m00 * m21) / d,
              (m00 * m11 - m01 * m10) / d)).

(** [if a not in PBC: lattice[a-1] += (lattice[a-1]/norm(lattice[a-1])) * vacuum];
    [None] for a vector of length zero. *)
Definition add_vacuum_row (a : nat) (PBC : list nat) (vacuum : R) (row : vec3)
  : option vec3 :=
  if mem a PBC then Some row
  else if Req_dec_T (norm row) 0 then None
  else
    let '(u0, u1, u2) := row in
    let n := norm row in
    Some (u0 + u0 / n * vacuum, u1 + u1 / n * vacuum, u2 + u2 / n * vacuum).

End AddVacuum.

Module Vacuum.
Local Open Scope R_scope.

(** [Add_vacuum(lattice, coor, vacuum, PBC)]; [vacuum] is 10 by
    default. *)
Definition Add_vacuum (lattice : mat3) (coor : list vec3) (vacuum : R)
    (PBC : list nat) : vacuum_outcome :=
  let absolute_coords := np_dot coor lattice in
  let '(row1, row2, row3) := lattice in
  match add_vacuum_row 1 PBC vacuum row1,
        add_vacuum_row 2 PBC vacuum row2,
        add_vacuum_row 3 PBC vacuum row3 with
  | Some row1, Some row2, Some row3 =>
    let lattice := (row1, row2, row3) in
    match np_linalg_inv lattice with
    | None => Singular
    | Some inverse => Padded lattice (np_dot absolute_coords inverse)
    end
  | _, _, _ => NotFinite
  end.
End Vacuum.

(** The rows of a lattice with their axis numbers 1, 2 and 3. *)
Definition axes (lattice : mat3) : list (nat * vec3) :=
  let '(row1, row2, row3) := lattice in
  [(1%nat, row1); (2%nat, row2); (3%nat, row3)].

(** A cell with edges 2, 3 and 4 along the axes, and one atom in it. *)
Definition slab : mat3 := ((2, 0, 0), (0, 3, 0), (0, 0, 4))%R.
Definition slab_atom : list vec3 := [(1 / 2, 1 / 2, 1 / 2)%R].

(** The slab with 10 of vacuum along its third axis. *)
Definition padded_slab : mat3 := ((2, 0, 0), (0, 3, 0), (0, 0, 14))%R.
Definition padded_atom : list vec3 := [(1 / 2, 1 / 2, 1 / 7)%R].

(* ================================================================== *)
(** * Part II. Properties                                              *)
(* ================================================================== *)

Unset Implicit Arguments.

(** Case analysis on a hypothesis that a chain of binds returned. *)
Ltac bind_inv :=
  repeat match goal with
  | H : Ok _ = Ok _ |- _ => inversion H; subst; clear H
  | H : bind ?r _ = Ok _ |- _ =>
    let E := fresh "E" in destruct r eqn:E; cbn [bind] in H; try discriminate H
  | H : (let '(_, _) := ?p in _) = Ok _ |- _ => destruct p
  | H : match ?x with _ => _ end = Ok _ |- _ =>
    let E := fresh "E" in destruct x eqn:E; try discriminate H
  end.

(** ** [cellsize] *)




(** ** [check_distance] *)

(** C10.  With at most one point in [coord1] or at most one point in
    [coord2], [check_distance] returns [True], whatever the tolerances
    and whatever [distance_matrix] would have answered: it is not
    called. *)
Theorem check_distance_single_point :
  forall (Point Lattice Op : Type) (ES : ElementService)
         (G : Geometry Point Lattice Op)
         (coord1 coord2 : list Point) (tols1 tols2 : tolerances)
         (lattice : Lattice) (PBC : list nat) (d_factor : Q),
    (length coord1 <= 1 \/ length coord2 <= 1)%nat ->
    check_distance coord1 coord2 tols1 tols2 lattice PBC d_factor = Ok true.
Proof.
  intros Point Lattice Op ES G coord1 coord2 tols1 tols2 lattice PBC d_factor Hlen.
  unfold check_distance.
  destruct Hlen as [Hlen | Hlen]; apply Nat.leb_le in Hlen; rewrite Hlen.
  - reflexivity.
  - now rewrite orb_true_r.
Qed.

(** One placed atom and an orbit of two atoms sitting on it, in a
    geometry where any call of [distance_matrix] would raise. *)
Lemma check_distance_single_point_witness :
  @check_distance Q unit SymmOp carbon_table no_distances
    [0] [0; 1 # 2] (Symbols ["C"%string]) (Symbols ["C"; "C"]%string) tt [1; 2; 3]%nat 1
  = Ok true.
Proof.
  apply check_distance_single_point. left. simpl. lia.
Defined.

(** The same distances are rejected once both sides hold two atoms. *)
Lemma check_distance_two_points :
  @check_distance unit unit SymmOp carbon_table never_placed
    [tt; tt] [tt; tt] (Symbols ["C"; "C"]%string) (Symbols ["C"; "C"]%string)
    tt [1; 2; 3]%nat 1
  = Ok false.
Proof. reflexivity. Qed.

(** ** [check_compatible] *)

(** C1, at the conventional cell of space group 199 with 16 atoms of one
    species.  16 is a multiple of the smallest multiplicity, 8, and the
    first operation of the smallest position, (x,x,x), is not the zero
    matrix; two copies of 8a hold the atoms.  [check_compatible]
    returns [False]: the test [rotation_matrix.all()] fails on the zero
    entries of (x,x,x), and the subtraction that follows starts from 12b
    and is left with 4. *)
Theorem check_compatible_sg199 :
  Forall (fun numIon => (numIon mod Z.of_nat (length wp_8a) = 0)%Z) [16%Z]
  /\ spec_positional_freedom wp_8a = true
  /\ ndarray_all (rotation_matrix op_xxx) = false
  /\ check_compatible sg199_organized [16%Z] = Ok (PyBool false).
Proof.
  repeat split.
  constructor; [reflexivity | constructor].
Qed.

(** ** [find_short_dist] *)

(** C2, at three points of which the first and the third are 0.1 apart
    and the second is 5 and 4.9 away from them, with tolerance 0.3.
    The specification's graph has the one edge (0,2).  The graph of
    [find_short_dist] has the one edge (1,2): row 1 of the matrix is
    paired with the column of the second hit of [np.where], not with
    a column of its own hits. *)
Theorem find_short_dist_three_on_axis :
  exists d pairs,
    @distance_matrix _ _ _ cubic_axis three_on_axis three_on_axis 10 [1; 2; 3]%nat
    = Ok d
    /\ some_short d (3 # 10) = true
    /\ spec_edges d = [(0, 2)]%nat
    /\ @find_short_dist _ _ _ cubic_axis three_on_axis 10 (3 # 10) [1; 2; 3]%nat
       = Ok (pairs, [[]; [2]; [1]]%nat)
    /\ map fst pairs = [(1, 2)]%nat
    /\ graph_edges [[]; [2]; [1]]%nat = [(1, 2)]%nat.
Proof.
  eexists. eexists.
  split; [reflexivity |].
  split; [reflexivity |].
  split; [reflexivity |].
  split; [vm_compute; reflexivity |].
  split; reflexivity.
Qed.
(** ** The retry budgets of [generate_crystal] *)

Section DriverBounds.
Context {Point Lattice CellPara : Type}.
Context {ES : ElementService} {G : Geometry Point Lattice SymmOp}.
Variable generate_lattice_for :
  random_crystal Point Lattice CellPara -> nat -> Q -> result (option CellPara).
Variable para2matrix_of : CellPara -> result Lattice.
Variable volume_differs : Q -> Lattice -> bool.
Variable rand_u : nat -> Q.
Variable rand_choice : nat -> nat.
Variable random_point : nat -> Point.
Variable operate : SymmOp -> Point -> Point.
Variable get_center : list Point -> Lattice -> list nat -> Point.
Variable Add_vacuum : Lattice -> list Point -> list nat -> Lattice * list Point.
Variable self : random_crystal Point Lattice CellPara.

Local Abbreviation cycle3 := (cycle3_loop rand_u rand_choice random_point operate get_center self).
Local Abbreviation per_species := (species_loop rand_u rand_choice random_point operate get_center self).
Local Abbreviation cycle2 := (cycle2_loop rand_u rand_choice random_point operate get_center self).
Local Abbreviation cycle1 :=
  (cycle1_loop generate_lattice_for para2matrix_of volume_differs rand_u
               rand_choice random_point operate get_center Add_vacuum self).





End DriverBounds.

(** The driver asks the lattice generator for one minimum vector length
    only. *)
Section DriverLattice.
Context {Point Lattice CellPara : Type}.
Context {ES : ElementService} {G : Geometry Point Lattice SymmOp}.
Variables generate_lattice_for generate_lattice_for' :
  random_crystal Point Lattice CellPara -> nat -> Q -> result (option CellPara).
Variable para2matrix_of : CellPara -> result Lattice.
Variable volume_differs : Q -> Lattice -> bool.
Variable rand_u : nat -> Q.
Variable rand_choice : nat -> nat.
Variable random_point : nat -> Point.
Variable operate : SymmOp -> Point -> Point.
Variable get_center : list Point -> Lattice -> list nat -> Point.
Variable Add_vacuum : Lattice -> list Point -> list nat -> Lattice * list Point.
Variable self : random_crystal Point Lattice CellPara.


End DriverLattice.




(** ** [para2matrix] and [matrix2para] *)

Section LatticeFacts.
Local Open Scope R_scope.

Lemma fdiv_ok : forall x y, y <> 0 -> fdiv x y = Ok (x / y).
Proof.
  intros x y Hy. unfold fdiv. destruct (Req_dec_T y 0); [contradiction | reflexivity].
Qed.

Lemma math_sqrt_ok : forall x, 0 <= x -> math_sqrt x = Ok (sqrt x).
Proof.
  intros x Hx. unfold math_sqrt. destruct (Rlt_dec x 0); [lra | reflexivity].
Qed.

Lemma math_sqrt_error : forall x, x < 0 -> math_sqrt x = Raise ValueError.
Proof.
  intros x Hx. unfold math_sqrt. destruct (Rlt_dec x 0); [reflexivity | lra].
Qed.

Lemma para2matrix_lower :
  forall a b c alpha beta gamma,
    sin gamma <> 0 ->
    para2matrix (a, b, c, alpha, beta, gamma) true lower
    = (m22 <- math_sqrt (lower_radicand (a, b, c, alpha, beta, gamma)) ;;
       Ok ((a, 0, 0), (b * cos gamma, b * sin gamma, 0),
           (c * cos beta,
            c * (cos alpha - cos beta * cos gamma) / sin gamma, m22))).
Proof.
  intros a b c alpha beta gamma Hsin.
  unfold para2matrix, lower_radicand. rewrite (fdiv_ok _ _ Hsin). reflexivity.
Qed.

(** C8.  For parameters with [sin gamma] not zero, [para2matrix] in the
    lower format raises the math domain error exactly when the radicand
    [c^2 - c1^2 - c2^2] is negative, and otherwise returns a
    lower-triangular matrix. *)
Theorem para2matrix_domain_error :
  forall a b c alpha beta gamma : R,
    sin gamma <> 0 ->
    let p := (a, b, c, alpha, beta, gamma) in
    (para2matrix p true lower = Raise ValueError <-> lower_radicand p < 0)
    /\ (0 <= lower_radicand p ->
        exists M, para2matrix p true lower = Ok M /\ lower_triangular M).
Proof.
  intros a b c alpha beta gamma Hsin p. subst p.
  rewrite (para2matrix_lower a b c alpha beta gamma Hsin).
  split; [split |].
  - intros Herr. destruct (Rlt_dec (lower_radicand (a, b, c, alpha, beta, gamma)) 0) as [Hneg | Hpos];
      [exact Hneg |].
    rewrite math_sqrt_ok in Herr by lra. discriminate Herr.
  - intros Hneg. rewrite (math_sqrt_error _ Hneg). reflexivity.
  - intros Hpos. rewrite (math_sqrt_ok _ Hpos). simpl.
    eexists. split; [reflexivity |]. simpl. auto.
Qed.

Lemma para2matrix_domain_error_witness :
  exists M, para2matrix (1, 1, 1, PI / 2, PI / 2, PI / 2) true lower = Ok M
            /\ lower_triangular M.
Proof.
  assert (Hsin : sin (PI / 2) <> 0) by (rewrite sin_PI2; lra).
  apply (proj2 (para2matrix_domain_error 1 1 1 (PI / 2) (PI / 2) (PI / 2) Hsin)).
  unfold lower_radicand. rewrite cos_PI2, sin_PI2. lra.
Defined.
End LatticeFacts.

Section RoundTrip.
Local Open Scope R_scope.

Lemma math_acos_cos : forall t, 0 <= t <= PI -> math_acos (cos t) = Ok t.
Proof.
  intros t Ht. unfold math_acos.
  pose proof (COS_bound t) as [Hlo Hhi].
  destruct (Rlt_dec (cos t) (-1)); [lra |].
  destruct (Rlt_dec 1 (cos t)); [lra |].
  now rewrite acos_cos.
Qed.

Lemma angle_of_cos :
  forall u v n1 n2 t,
    norm u = n1 -> norm v = n2 -> n1 * n2 <> 0 ->
    dot u v = n1 * n2 * cos t -> 0 <= t <= PI ->
    angle u v = Ok t.
Proof.
  intros u v n1 n2 t Hu Hv Hn Hdot Ht.
  unfold angle. rewrite Hu, Hv, Hdot, fdiv_ok by exact Hn. simpl.
  replace (n1 * n2 * cos t / (n1 * n2)) with (cos t)
    by (field; split; intros E; apply Hn; rewrite E; ring).
  now apply math_acos_cos.
Qed.

Lemma sqrt_sq : forall x, 0 <= x -> sqrt (x * x) = x.
Proof. intros x Hx. now apply sqrt_square. Qed.

Lemma sin2_cos2' : forall t, sin t * sin t + cos t * cos t = 1.
Proof. intros t. pose proof (sin2_cos2 t) as H. unfold Rsqr in H. exact H. Qed.

Lemma norm_row0 : forall a, 0 <= a -> norm (a, 0, 0) = a.
Proof.
  intros a Ha. unfold norm, dot.
  replace (a * a + 0 * 0 + 0 * 0) with (a * a) by ring. now apply sqrt_sq.
Qed.

Lemma norm_row1 :
  forall b gamma, 0 <= b -> norm (b * cos gamma, b * sin gamma, 0) = b.
Proof.
  intros b gamma Hb. unfold norm, dot.
  replace (b * cos gamma * (b * cos gamma) + b * sin gamma * (b * sin gamma) + 0 * 0)
    with (b * b * (sin gamma * sin gamma + cos gamma * cos gamma)) by ring.
  rewrite sin2_cos2', Rmult_1_r. now apply sqrt_sq.
Qed.

Lemma norm_row2 :
  forall c c1 c2, 0 <= c -> 0 <= c ^ 2 - c1 ^ 2 - c2 ^ 2 ->
    norm (c1, c2, sqrt (c ^ 2 - c1 ^ 2 - c2 ^ 2)) = c.
Proof.
  intros c c1 c2 Hc Hrad. unfold norm, dot.
  rewrite sqrt_sqrt by exact Hrad.
  replace (c1 * c1 + c2 * c2 + (c ^ 2 - c1 ^ 2 - c2 ^ 2)) with (c * c) by ring.
  now apply sqrt_sq.
Qed.

(** C9.  For positive edges, angles strictly between 0 and pi and a
    non-negative radicand, [para2matrix] in the lower format succeeds
    and [matrix2para] gives the six parameters back: exactly in real
    arithmetic, hence within 10^-8. *)
Theorem matrix2para_para2matrix :
  forall a b c alpha beta gamma : R,
    0 < a -> 0 < b -> 0 < c ->
    0 < alpha < PI -> 0 < beta < PI -> 0 < gamma < PI ->
    0 <= lower_radicand (a, b, c, alpha, beta, gamma) ->
    let p := (a, b, c, alpha, beta, gamma) in
    exists M q,
      para2matrix p true lower = Ok M
      /\ matrix2para M true = Ok q
      /\ q = p
      /\ close_para (/ 100000000) p q.
Proof.
  intros a b c alpha beta gamma Ha Hb Hc Halpha Hbeta Hgamma Hrad p. subst p.
  assert (Hsin : sin gamma <> 0).
  { apply Rgt_not_eq. apply sin_gt_0; lra. }
  rewrite (para2matrix_lower a b c alpha beta gamma Hsin).
  rewrite (math_sqrt_ok _ Hrad). cbn [bind].
  eexists. exists (a, b, c, alpha, beta, gamma).
  split; [reflexivity |].
  unfold lower_radicand in *.
  set (c1 := c * cos beta) in *.
  set (c2 := c * (cos alpha - cos beta * cos gamma) / sin gamma) in *.
  assert (N0 : norm (a, 0, 0) = a) by (apply norm_row0; lra).
  assert (N1 : norm (b * cos gamma, b * sin gamma, 0) = b) by (apply norm_row1; lra).
  assert (N2 : norm (c1, c2, sqrt (c ^ 2 - c1 ^ 2 - c2 ^ 2)) = c)
    by (apply norm_row2; [lra | exact Hrad]).
  assert (A : angle (b * cos gamma, b * sin gamma, 0)
                    (c1, c2, sqrt (c ^ 2 - c1 ^ 2 - c2 ^ 2)) = Ok alpha).
  { apply (angle_of_cos _ _ b c alpha N1 N2); [nra | | lra].
    unfold dot, c1, c2. field. exact Hsin. }
  assert (B : angle (a, 0, 0) (c1, c2, sqrt (c ^ 2 - c1 ^ 2 - c2 ^ 2)) = Ok beta).
  { apply (angle_of_cos _ _ a c beta N0 N2); [nra | | lra].
    unfold dot, c1. ring. }
  assert (C : angle (a, 0, 0) (b * cos gamma, b * sin gamma, 0) = Ok gamma).
  { apply (angle_of_cos _ _ a b gamma N0 N1); [nra | | lra].
    unfold dot. ring. }
  split.
  - unfold matrix2para. rewrite A, B, C. cbn [bind]. rewrite N0, N1, N2. reflexivity.
  - split; [reflexivity |].
    unfold close_para.
    repeat split; rewrite Rminus_diag, Rabs_R0; lra.
Qed.

Lemma matrix2para_para2matrix_witness :
  exists M q,
    para2matrix (1, 1, 1, PI / 2, PI / 2, PI / 2) true lower = Ok M
    /\ matrix2para M true = Ok q
    /\ q = (1, 1, 1, PI / 2, PI / 2, PI / 2)
    /\ close_para (/ 100000000) (1, 1, 1, PI / 2, PI / 2, PI / 2) q.
Proof.
  pose proof PI_RGT_0 as Hpi.
  apply (matrix2para_para2matrix 1 1 1 (PI / 2) (PI / 2) (PI / 2)); try lra.
  unfold lower_radicand. rewrite cos_PI2, sin_PI2. lra.
Defined.
End RoundTrip.

Section Volume.
Local Open Scope R_scope.

Lemma Rltb_true : forall x y, Rltb x y = true -> x < y.
Proof. intros x y. unfold Rltb. destruct (Rlt_dec x y); [auto | discriminate]. Qed.

Lemma Rltb_false : forall x y, Rltb x y = false -> ~ x < y.
Proof. intros x y. unfold Rltb. destruct (Rlt_dec x y); [discriminate | auto]. Qed.

Lemma lower_radicand_gram :
  forall a b c alpha beta gamma,
    sin gamma <> 0 ->
    lower_radicand (a, b, c, alpha, beta, gamma)
    = c ^ 2 * gram alpha beta gamma / sin gamma ^ 2.
Proof.
  intros a b c alpha beta gamma Hsin.
  unfold lower_radicand, gram.
  pose proof (sin2_cos2' gamma) as Hsc.
  generalize dependent (sin gamma). generalize (cos gamma) (cos alpha) (cos beta).
  intros cg ca cb s Hs Hsc.
  assert (E : s * s + cg * cg - 1 = 0) by lra.
  replace (1 - ca ^ 2 - cb ^ 2 - cg ^ 2 + 2 * (ca * cb * cg))
    with (s ^ 2 * (1 - cb ^ 2) - (ca - cb * cg) ^ 2
          - (s * s + cg * cg - 1) * (1 - cb ^ 2)) by ring.
  rewrite E. field. exact Hs.
Qed.

(** The determinant of the lower-triangular form. *)
Lemma det3_lower :
  forall a b c alpha beta gamma,
    0 < c -> 0 < sin gamma -> 0 <= gram alpha beta gamma ->
    exists M,
      para2matrix (a, b, c, alpha, beta, gamma) true lower = Ok M
      /\ det3 M = a * b * c * sqrt (gram alpha beta gamma).
Proof.
  intros a b c alpha beta gamma Hc Hsin Hgram.
  assert (Hsin0 : sin gamma <> 0) by lra.
  rewrite (para2matrix_lower a b c alpha beta gamma Hsin0).
  rewrite (lower_radicand_gram a b c alpha beta gamma Hsin0).
  assert (Hrad : 0 <= c ^ 2 * gram alpha beta gamma / sin gamma ^ 2).
  { apply Rmult_le_pos; [apply Rmult_le_pos; [nra | exact Hgram] |].
    apply Rlt_le, Rinv_0_lt_compat. nra. }
  rewrite (math_sqrt_ok _ Hrad). cbn [bind].
  eexists. split; [reflexivity |].
  assert (Hsq : sqrt (c ^ 2 * gram alpha beta gamma / sin gamma ^ 2)
                = c * sqrt (gram alpha beta gamma) / sin gamma).
  { apply sqrt_lem_1.
    - exact Hrad.
    - apply Rmult_le_pos; [apply Rmult_le_pos; [lra | apply sqrt_pos] |].
      apply Rlt_le, Rinv_0_lt_compat. exact Hsin.
    - pose proof (sqrt_sqrt _ Hgram) as Hss.
      set (g := sqrt (gram alpha beta gamma)) in *.
      rewrite <- Hss. field. exact Hsin0. }
  unfold det3. rewrite Hsq. field. exact Hsin0.
Qed.
End Volume.

Section Sampler.
Local Open Scope R_scope.

Lemma math_sqrt_inv : forall y x, math_sqrt y = Ok x -> 0 <= y /\ x = sqrt y.
Proof.
  intros y x. unfold math_sqrt. destruct (Rlt_dec y 0); [discriminate |].
  intros [= <-]. split; [lra | reflexivity].
Qed.

Lemma fdiv_inv : forall x y z, fdiv x y = Ok z -> y <> 0 /\ z = x / y.
Proof.
  intros x y z. unfold fdiv. destruct (Req_dec_T y 0); [discriminate |].
  intros [= <-]. split; [assumption | reflexivity].
Qed.

Lemma Rpower_third_cube : forall x, 0 < x -> Rpower x (/ 3) ^ 3 = x.
Proof.
  intros x Hx.
  rewrite <- (Rpower_pow 3) by apply exp_pos.
  rewrite Rpower_mult.
  replace (/ 3 * INR 3) with 1 by (simpl; field).
  now apply Rpower_1.
Qed.

Lemma np_cbrt_cube : forall x, np_cbrt x ^ 3 = x.
Proof.
  intros x. unfold np_cbrt.
  destruct (Rlt_dec 0 x) as [Hpos | Hnpos].
  - now apply Rpower_third_cube.
  - destruct (Rlt_dec x 0) as [Hneg | Hnneg].
    + replace ((- Rpower (- x) (/ 3)) ^ 3) with (- (Rpower (- x) (/ 3) ^ 3)) by ring.
      rewrite Rpower_third_cube by lra. ring.
    + replace x with 0 by lra. ring.
Qed.

Lemma scaled_edges_product :
  forall v abc a b c, scaled_edges v abc = Ok (a, b, c) -> a * b * c = abc.
Proof.
  intros [[v0 v1] v2] abc a b c Hrun. unfold scaled_edges in Hrun.
  bind_inv.
  apply fdiv_inv in E, E0, E1.
  destruct E as [Hm ->], E0 as [_ ->], E1 as [_ ->].
  pose proof (np_cbrt_cube abc) as Hk.
  pose proof (np_cbrt_cube (v0 * v1 * v2)) as Hxyz.
  set (k := np_cbrt abc) in *. set (m := np_cbrt (v0 * v1 * v2)) in *.
  replace (v0 * k / m * (v1 * k / m) * (v2 * k / m))
    with (v0 * v1 * v2 * k ^ 3 / m ^ 3) by (field; exact Hm).
  rewrite Hk, <- Hxyz. field. exact Hm.
Qed.

Lemma square_base_product :
  forall v volume x a b c,
    square_base v volume x = Ok (a, b, c) -> x <> 0 /\ a * b * c * x = volume.
Proof.
  intros [[v0 v1] v2] volume x a b c Hrun. unfold square_base in Hrun.
  bind_inv.
  apply fdiv_inv in E, E0, E1. apply math_sqrt_inv in E2.
  destruct E as [Hx ->], E0 as [_ ->], E1 as [Hc ->], E2 as [Harea ->].
  split; [exact Hx |].
  set (c := v2 / (v0 * v1) * np_cbrt (volume / x)) in *.
  replace (sqrt (volume / x / c) * sqrt (volume / x / c))
    with (volume / x / c) by (symmetry; now apply sqrt_sqrt).
  field. split; assumption.
Qed.

Lemma gram_right_right :
  forall beta, gram (PI / 2) beta (PI / 2) = sin beta ^ 2.
Proof.
  intros beta. unfold gram. rewrite cos_PI2.
  pose proof (sin2_cos2' beta). nra.
Qed.

Lemma gram_hexagonal : gram (PI / 2) (PI / 2) (PI / 3 * 2) = (sqrt 3 / 2) ^ 2.
Proof.
  unfold gram. rewrite cos_PI2.
  replace (PI / 3 * 2) with (2 * (PI / 3)) by ring. rewrite cos_2PI3.
  assert (H3 : sqrt 3 * sqrt 3 = 3) by (apply sqrt_sqrt; lra). nra.
Qed.

Lemma sqrt_pow2_pos : forall x, 0 <= x -> sqrt (x ^ 2) = x.
Proof. intros x Hx. now apply sqrt_pow2. Qed.

(** What one round draws has the volume asked for, as soon as its
    angles lie strictly between 0 and pi. *)
Lemma sample_para_volume :
  forall sg volume d a b c alpha beta gamma,
    sample_para sg volume d = Ok (a, b, c, alpha, beta, gamma) ->
    0 < beta < PI ->
    0 <= gram alpha beta gamma
    /\ a * b * c * sqrt (gram alpha beta gamma) = volume.
Proof.
  intros sg volume d a b c alpha beta gamma Hrun Hbeta.
  unfold sample_para in Hrun.
  destruct (sg <=? 2)%Z.
  { (* Triclinic *)
    bind_inv.
    apply math_sqrt_inv in E0. apply fdiv_inv in E1.
    apply scaled_edges_product in E2.
    destruct E0 as [Hg ->], E1 as [Hx ->].
    fold (gram alpha beta gamma) in *.
    split; [exact Hg |]. rewrite E2. field. exact Hx. }
  destruct (sg <=? 15)%Z.
  { (* Monoclinic *)
    bind_inv.
    apply fdiv_inv in E. apply scaled_edges_product in E0.
    destruct E as [Hx ->].
    rewrite gram_right_right.
    assert (Hsin : 0 < sin (gauss d)) by (apply sin_gt_0; lra).
    split; [nra |].
    rewrite sqrt_pow2_pos by lra. rewrite E0. field. exact Hx. }
  destruct (sg <=? 74)%Z.
  { (* Orthorhombic *)
    bind_inv.
    apply fdiv_inv in E. apply scaled_edges_product in E0.
    destruct E as [Hx ->].
    rewrite gram_right_right, sin_PI2.
    replace (1 ^ 2) with 1 by ring. rewrite sqrt_1.
    split; [lra |]. rewrite E0. field. }
  destruct (sg <=? 142)%Z.
  { (* Tetragonal *)
    bind_inv.
    apply square_base_product in E. destruct E as [_ Hvol].
    rewrite gram_right_right, sin_PI2.
    replace (1 ^ 2) with 1 by ring. rewrite sqrt_1.
    split; [lra |]. lra. }
  destruct (sg <=? 194)%Z.
  { (* Trigonal/Rhombohedral/Hexagonal *)
    bind_inv.
    apply square_base_product in E. destruct E as [_ Hvol].
    rewrite gram_hexagonal.
    assert (H3 : 0 <= sqrt 3 / 2).
    { pose proof (sqrt_pos 3). lra. }
    split; [nra |].
    rewrite sqrt_pow2_pos by exact H3. exact Hvol. }
  (* Cubic *)
  bind_inv.
  unfold pow_third in E. destruct (Rlt_dec volume 0); [discriminate |].
  injection E as <-.
  rewrite gram_right_right, sin_PI2.
  replace (1 ^ 2) with 1 by ring. rewrite sqrt_1.
  split; [lra |].
  pose proof (np_cbrt_cube volume). nra.
Qed.
End Sampler.

Section Acceptance.
Local Open Scope R_scope.

Lemma Rltb_intro : forall x y, x < y -> Rltb x y = true.
Proof. intros x y H. unfold Rltb. destruct (Rlt_dec x y); [reflexivity | contradiction]. Qed.

(** Every test of the acceptance condition, read off a positive
    answer. *)
Lemma meets_requirements_inv :
  forall a b c alpha beta gamma minvec minangle max_ratio,
    meets_requirements (a, b, c, alpha, beta, gamma) minvec minangle max_ratio
    = Ok true ->
    (minvec < a /\ minvec < b /\ minvec < c)
    /\ smallvec (a, b, c, alpha, beta, gamma) < minvec
    /\ (minangle < alpha < PI - minangle
        /\ minangle < beta < PI - minangle
        /\ minangle < gamma < PI - minangle)
    /\ (a / b < max_ratio /\ a / c < max_ratio /\ b / c < max_ratio
        /\ b / a < max_ratio /\ c / a < max_ratio /\ c / b < max_ratio).
Proof.
  intros a b c alpha beta gamma minvec minangle max_ratio Hrun.
  unfold meets_requirements in Hrun.
  bind_inv.
  repeat match goal with
         | H : _ && _ = true |- _ => apply andb_prop in H; destruct H
         | H : Rltb _ _ = true |- _ => apply Rltb_true in H
         end.
  repeat split; assumption.
Qed.

Lemma lattice_loop_some :
  forall sg volume minvec minangle max_ratio draws left n p,
    lattice_loop sg volume minvec minangle max_ratio draws left n = Ok (Some p) ->
    exists k,
      sample_para sg volume (draws k) = Ok p
      /\ meets_requirements p minvec minangle max_ratio = Ok true.
Proof.
  intros sg volume minvec minangle max_ratio draws left.
  induction left as [| left IH]; intros n p Hrun; simpl in Hrun.
  - discriminate.
  - bind_inv.
    + exists n. split; assumption.
    + eapply IH. eassumption.
Qed.

Lemma generate_lattice_some :
  forall sg volume minvec minangle max_ratio maxattempts draws p,
    generate_lattice sg volume minvec minangle max_ratio maxattempts draws
    = Ok (Some p) ->
    exists k,
      sample_para sg volume (draws k) = Ok p
      /\ meets_requirements p minvec minangle max_ratio = Ok true.
Proof.
  intros sg volume minvec minangle max_ratio maxattempts draws p Hrun.
  unfold generate_lattice in Hrun.
  destruct maxattempts; [discriminate |].
  eapply lattice_loop_some. eassumption.
Qed.

(** C7.  A 6-tuple returned by [generate_lattice] has its edges at least
    [minvec], its angles strictly between [minangle] and
    [pi - minangle], its six edge ratios at most [max_ratio], and the
    least of [a cos(max(beta,gamma))], [b cos(max(alpha,gamma))],
    [c cos(max(alpha,beta))] strictly below [minvec]. *)
Theorem generate_lattice_accepted :
  forall (sg : Z) (volume minvec minangle max_ratio : R) (maxattempts : nat)
         (draws : nat -> draw) (p : cell_para),
    generate_lattice sg volume minvec minangle max_ratio maxattempts draws
    = Ok (Some p) ->
    accepted p minvec minangle max_ratio.
Proof.
  intros sg volume minvec minangle max_ratio maxattempts draws p Hrun.
  apply generate_lattice_some in Hrun. destruct Hrun as (k & _ & Hgood).
  destruct p as [[[[[a b] c] alpha] beta] gamma].
  apply meets_requirements_inv in Hgood.
  destruct Hgood as ((Ha & Hb & Hc) & Hsmall & Hangles & Hr1 & Hr2 & Hr3 & Hr4 & Hr5 & Hr6).
  unfold accepted. unfold smallvec in Hsmall.
  repeat split; try lra; tauto.
Qed.

Lemma np_cbrt_1 : np_cbrt 1 = 1.
Proof.
  unfold np_cbrt. destruct (Rlt_dec 0 1); [| lra].
  unfold Rpower. rewrite ln_1, Rmult_0_r. apply exp_0.
Qed.

Lemma Rmax_same : forall x, Rmax x x = x.
Proof. intros x. unfold Rmax. destruct (Rle_dec x x); reflexivity. Qed.

Lemma Rmin_same : forall x, Rmin x x = x.
Proof. intros x. unfold Rmin. destruct (Rle_dec x x); reflexivity. Qed.

(** A cubic cell of volume 1 passes at the first round. *)
Lemma generate_lattice_unit_cube :
  forall draws,
    generate_lattice 230 1 (/ 2) (PI / 6) 10 100 draws
    = Ok (Some (1, 1, 1, PI / 2, PI / 2, PI / 2)).
Proof.
  intros draws. pose proof PI_RGT_0 as Hpi.
  unfold generate_lattice. cbn [lattice_loop].
  unfold sample_para. cbn [Z.leb Z.compare Pos.compare Pos.compare_cont].
  unfold pow_third. destruct (Rlt_dec 1 0); [lra |]. rewrite np_cbrt_1.
  cbn [bind]. unfold meets_requirements, smallvec.
  rewrite fdiv_ok by lra. cbn [bind].
  rewrite !Rmax_same, cos_PI2, !Rmin_same.
  repeat (rewrite Rltb_intro by lra). reflexivity.
Qed.

Lemma generate_lattice_accepted_witness :
  accepted (1, 1, 1, PI / 2, PI / 2, PI / 2) (/ 2) (PI / 6) 10.
Proof.
  exact (generate_lattice_accepted 230 1 (/ 2) (PI / 6) 10 100
           (fun _ => {| shear := zeros3; vec := (1, 1, 1); gauss := 0 |})
           _ (generate_lattice_unit_cube _)).
Defined.

(** An accepted sample converts into a matrix of the volume asked
    for. *)
Lemma accepted_sample_det :
  forall sg volume d p minvec minangle max_ratio,
    0 < minvec -> 0 <= minangle ->
    sample_para sg volume d = Ok p ->
    meets_requirements p minvec minangle max_ratio = Ok true ->
    exists M, para2matrix p true lower = Ok M /\ det3 M = volume.
Proof.
  intros sg volume d p minvec minangle max_ratio Hvec Hangle Hsample Hgood.
  destruct p as [[[[[a b] c] alpha] beta] gamma].
  apply meets_requirements_inv in Hgood.
  destruct Hgood as ((Ha & Hb & Hc) & _ & (Halpha & Hbeta & Hgamma) & _).
  apply sample_para_volume in Hsample; [| lra].
  destruct Hsample as (Hgram & Hvol).
  destruct (det3_lower a b c alpha beta gamma) as (M & HM & Hdet);
    [lra | apply sin_gt_0; lra | exact Hgram |].
  exists M. split; [exact HM | now rewrite Hdet].
Qed.

(** C3.  With a positive [minvec] and a non-negative [minangle] (the
    driver passes at least [tol_m] and [pi/6]), the parameters returned
    by [generate_lattice] convert without error into a lower-triangular
    matrix whose determinant is the volume asked for, so the test
    [abs(volume - det) > 1.0] of the driver fails. *)
Theorem generate_lattice_volume :
  forall (sg : Z) (volume minvec minangle max_ratio : R) (maxattempts : nat)
         (draws : nat -> draw) (p : cell_para),
    0 < minvec -> 0 <= minangle ->
    generate_lattice sg volume minvec minangle max_ratio maxattempts draws
    = Ok (Some p) ->
    exists M,
      para2matrix p true lower = Ok M
      /\ det3 M = volume
      /\ Rabs (volume - det3 M) <= 1
      /\ Rltb 1 (Rabs (volume - det3 M)) = false.
Proof.
  intros sg volume minvec minangle max_ratio maxattempts draws p Hvec Hangle Hrun.
  apply generate_lattice_some in Hrun. destruct Hrun as (k & Hsample & Hgood).
  destruct (accepted_sample_det _ _ _ _ _ _ _ Hvec Hangle Hsample Hgood)
    as (M & HM & Hdet).
  exists M. rewrite Hdet, Rminus_diag, Rabs_R0.
  repeat split; try lra; try assumption.
  unfold Rltb. destruct (Rlt_dec 1 0); [lra | reflexivity].
Qed.

Lemma generate_lattice_volume_witness :
  exists M,
    para2matrix (1, 1, 1, PI / 2, PI / 2, PI / 2) true lower = Ok M
    /\ det3 M = 1
    /\ Rabs (1 - det3 M) <= 1
    /\ Rltb 1 (Rabs (1 - det3 M)) = false.
Proof.
  pose proof PI_RGT_0 as Hpi.
  apply (generate_lattice_volume 230 1 (/ 2) (PI / 6) 10 100
           (fun _ => {| shear := zeros3; vec := (1, 1, 1); gauss := 0 |}));
    [lra | lra | apply generate_lattice_unit_cube].
Defined.

(** The lattice stage of the driver never stops on the volume test. *)
Lemma lattice_stage_passes :
  forall sg volume minvector draws p,
    0 < minvector ->
    generate_lattice sg volume minvector (PI / 6) 10 100 draws = Ok (Some p) ->
    exists M,
      lattice_stage sg volume minvector draws = Ok (Some M)
      /\ para2matrix p true lower = Ok M
      /\ det3 M = volume.
Proof.
  intros sg volume minvector draws p Hvec Hrun.
  pose proof PI_RGT_0 as Hpi.
  destruct (generate_lattice_some _ _ _ _ _ _ _ _ Hrun) as (k & Hsample & Hgood).
  destruct (accepted_sample_det sg volume (draws k) p minvector (PI / 6) 10)
    as (M & HM & Hdet); [lra | lra | exact Hsample | exact Hgood |].
  exists M. unfold lattice_stage. rewrite Hrun. cbn [bind].
  rewrite HM. cbn [bind]. rewrite Hdet, Rminus_diag, Rabs_R0.
  unfold Rltb. destruct (Rlt_dec 1 0); [lra | auto].
Qed.
End Acceptance.

(** ** The graph of [find_short_dist] *)

Lemma getitem_ok :
  forall (A : Type) (l : list A) i a, getitem l i = Ok a -> nth_error l i = Some a.
Proof.
  intros A l i a. unfold getitem. destruct (nth_error l i); [| discriminate].
  now intros [= ->].
Qed.

Lemma mem_In : forall x l, mem x l = true <-> In x l.
Proof.
  intros x l. unfold mem. rewrite existsb_exists. split.
  - intros (y & Hy & Heq). apply Nat.eqb_eq in Heq. now subst.
  - intros Hx. exists x. split; [assumption | apply Nat.eqb_refl].
Qed.

Lemma mem_not_In : forall x l, mem x l = false <-> ~ In x l.
Proof.
  intros x l. rewrite <- mem_In. destruct (mem x l); split; congruence.
Qed.

Lemma adjacent_cons_O :
  forall l g v, adjacent (l :: g) 0 v <-> In v l.
Proof.
  intros l g v. split.
  - intros (l' & Hl' & Hv). simpl in Hl'. now injection Hl' as <-.
  - intros Hv. exists l. simpl. auto.
Qed.

Lemma adjacent_cons_S :
  forall l g u v, adjacent (l :: g) (S u) v <-> adjacent g u v.
Proof.
  intros l g u v. split; intros (l' & Hl' & Hv); exists l'; simpl in *; auto.
Qed.

Lemma append_at_spec :
  forall graph i x graph',
    append_at graph i x = Ok graph' ->
    length graph' = length graph
    /\ (i < length graph)%nat
    /\ forall u v, adjacent graph' u v <-> adjacent graph u v \/ (u = i /\ v = x).
Proof.
  induction graph as [| l g IH]; intros i x graph' Hrun; simpl in Hrun.
  - discriminate.
  - destruct i as [| i].
    + injection Hrun as <-. simpl. repeat split; try lia.
      * destruct u as [| u].
        -- rewrite !adjacent_cons_O, in_app_iff. simpl. intuition.
        -- rewrite !adjacent_cons_S. auto.
      * destruct u as [| u].
        -- rewrite !adjacent_cons_O, in_app_iff. simpl. intuition.
        -- rewrite !adjacent_cons_S. intros [H | [H _]]; [auto | discriminate].
    + bind_inv. apply IH in E. destruct E as (Hlen & Hi & Hadj).
      simpl. repeat split; try lia.
      * destruct u as [| u].
        -- rewrite !adjacent_cons_O. auto.
        -- rewrite !adjacent_cons_S, Hadj. intuition.
      * destruct u as [| u].
        -- rewrite !adjacent_cons_O. intros [H | [H _]]; [auto | discriminate].
        -- rewrite !adjacent_cons_S, Hadj. intuition.
Qed.

Lemma adjacent_repeat_nil : forall n i j, ~ adjacent (repeat ([] : list nat) n) i j.
Proof.
  intros n i j (l & Hl & Hj).
  apply nth_error_In, repeat_spec in Hl. subst l. contradiction.
Qed.

(** The second loop of [find_short_dist] keeps a graph symmetric and its
    entries below the number of points, and turns every pair into an
    edge. *)
Lemma graph_fold_spec :
  forall (pairs : list (nat * nat * Q)) graph graph',
    foldM (fun g '(pair0, pair1, _) =>
             g' <- append_at g pair0 pair1 ;; append_at g' pair1 pair0)
          pairs graph = Ok graph' ->
    symmetric_graph graph -> well_formed graph ->
    length graph' = length graph
    /\ symmetric_graph graph' /\ well_formed graph'
    /\ (forall u v, adjacent graph u v -> adjacent graph' u v)
    /\ forall i j x, In (i, j, x) pairs -> adjacent graph' i j.
Proof.
  induction pairs as [| [[i j] x] pairs IH]; intros graph graph' Hrun Hsym Hwf;
    simpl in Hrun.
  - injection Hrun as <-.
    split; [reflexivity |]. split; [exact Hsym |]. split; [exact Hwf |].
    split; [auto |]. intros i j x [].
  - bind_inv.
    apply append_at_spec in E0. destruct E0 as (Hlen0 & Hi & Hadj0).
    apply append_at_spec in E. destruct E as (Hlen1 & Hj & Hadj1).
    assert (Hadj : forall u v, adjacent a u v <->
                               adjacent graph u v \/ (u = i /\ v = j) \/ (u = j /\ v = i)).
    { intros u v. rewrite Hadj1, Hadj0. tauto. }
    apply IH in Hrun.
    + destruct Hrun as (Hlen & Hsym' & Hwf' & Hmono & Hedges).
      split; [lia |]. split; [exact Hsym' |]. split; [exact Hwf' |]. split.
      * intros u v Huv. apply Hmono, Hadj. auto.
      * intros i' j' x' [Heq | Hin].
        -- injection Heq as <- <- <-. apply Hmono, Hadj. auto.
        -- eapply Hedges. eassumption.
    + intros u v Huv. apply Hadj in Huv. apply Hadj.
      destruct Huv as [Huv | [[-> ->] | [-> ->]]]; auto.
    + intros u v Huv. apply Hadj in Huv. rewrite Hlen1, Hlen0.
      destruct Huv as [Huv | [[-> ->] | [-> ->]]]; [exact (Hwf _ _ Huv) | lia | lia].
Qed.

(** The first loop of [find_short_dist] only keeps pairs [(i, j)] with
    [i < j]. *)
Lemma pairs_fold_ordered :
  forall (d : list (list Q)) (cols rows : list nat) pairs pairs',
    foldM (fun pairs i =>
             j <- getitem cols i ;;
             if (j <=? i)%nat then Ok pairs
             else
               row <- getitem d i ;;
               dij <- getitem row j ;;
               Ok (pairs ++ [(i, j, dij)]))
          rows pairs = Ok pairs' ->
    (forall i j x, In (i, j, x) pairs -> (i < j)%nat) ->
    forall i j x, In (i, j, x) pairs' -> (i < j)%nat.
Proof.
  intros d cols rows. induction rows as [| r rows IH]; intros pairs pairs' Hrun Hord;
    simpl in Hrun.
  - injection Hrun as <-. exact Hord.
  - bind_inv.
    + eapply IH; eassumption.
    + eapply IH; [eassumption |].
      intros i j x Hin. apply in_app_or in Hin. destruct Hin as [Hin | [Heq | []]].
      * eapply Hord. eassumption.
      * injection Heq as <- <- <-. apply Nat.leb_gt in E1. exact E1.
Qed.

Lemma short_dist_of_matrix_graph :
  forall n d tol pairs graph,
    short_dist_of_matrix n d tol = Ok (pairs, graph) ->
    length graph = n
    /\ symmetric_graph graph /\ well_formed graph
    /\ (pairs <> [] ->
        exists i j, i <> j /\ adjacent graph i j).
Proof.
  intros n d tol pairs graph Hrun. unfold short_dist_of_matrix in Hrun.
  assert (Hsym0 : symmetric_graph (repeat ([] : list nat) n)).
  { intros u v Huv. now apply adjacent_repeat_nil in Huv. }
  assert (Hwf0 : well_formed (repeat ([] : list nat) n)).
  { intros u v Huv. now apply adjacent_repeat_nil in Huv. }
  destruct (foldM _ (unique _) []) as [raw | | |] eqn:Hraw;
    cbn [bind] in Hrun; try discriminate.
  destruct raw as [| p ps].
  - injection Hrun as <- <-. rewrite repeat_length.
    split; [reflexivity |]. split; [exact Hsym0 |]. split; [exact Hwf0 |].
    intros Hne. now contradiction Hne.
  - set (kept := filter _ (p :: ps)) in *.
    destruct (foldM _ kept _) as [g | | |] eqn:Hg;
      cbn [bind] in Hrun; try discriminate.
    injection Hrun as <- <-.
    apply graph_fold_spec in Hg; auto.
    destruct Hg as (Hlen & Hsym & Hwf & _ & Hedges).
    rewrite repeat_length in Hlen.
    split; [exact Hlen |]. split; [exact Hsym |]. split; [exact Hwf |].
    intros Hne.
    destruct kept as [| [[i j] x] kept'] eqn:Hkept; [now contradiction Hne |].
    exists i, j. split.
    + assert (Hin : In (i, j, x) (p :: ps)).
      { eapply proj1. apply filter_In. subst kept. rewrite Hkept. simpl. auto. }
      assert (i < j)%nat; [| lia].
      eapply pairs_fold_ordered; [exact Hraw | | exact Hin].
      intros ? ? ? [].
    + eapply Hedges. simpl. eauto.
Qed.

(** ** [connected_components] *)

Lemma seen_or_start_app :
  forall el seen x, seen_or_start el (seen ++ [x]) = seen ++ [x].
Proof. intros el [| s seen] x; reflexivity. Qed.

Lemma adjacent_getitem :
  forall graph el nbrs w,
    getitem graph el = Ok nbrs -> (adjacent graph el w <-> In w nbrs).
Proof.
  intros graph el nbrs w Hget. apply getitem_ok in Hget. split.
  - intros (l & Hl & Hw). congruence.
  - intros Hw. exists nbrs. auto.
Qed.

(** A returned [add_neighbors] extends [seen] by vertices all of whose
    neighbours it has seen, and has seen the neighbours of [el]. *)
Lemma add_neighbors_closed :
  forall fuel graph el seen seen',
    add_neighbors fuel graph el seen = Ok seen' ->
    exists ext,
      seen' = seen_or_start el seen ++ ext
      /\ (forall w, adjacent graph el w -> In w seen')
      /\ closed_on graph ext seen'.
Proof.
  induction fuel as [| fuel IH]; intros graph el seen seen' Hrun; simpl in Hrun.
  - discriminate.
  - fold (seen_or_start el seen) in Hrun.
    destruct (getitem graph el) as [nbrs | | |] eqn:Hget;
      cbn [bind] in Hrun; try discriminate.
    assert (Hloop : forall xs cur out,
               foldM (fun seen x =>
                        if mem x seen then Ok seen
                        else add_neighbors fuel graph x (seen ++ [x]))
                     xs cur = Ok out ->
               exists ext,
                 out = cur ++ ext
                 /\ (forall w, In w xs -> In w out)
                 /\ closed_on graph ext out).
    { induction xs as [| x xs IHxs]; intros cur out Hfold; simpl in Hfold.
      - injection Hfold as <-. exists []. rewrite app_nil_r.
        split; [reflexivity |]. split; [intros w [] |]. intros v w [].
      - destruct (mem x cur) eqn:Hmem; cbn [bind] in Hfold.
        + apply IHxs in Hfold. destruct Hfold as (ext & -> & Hxs & Hclosed).
          exists ext. split; [reflexivity |]. split; [| exact Hclosed].
          intros w [<- | Hw]; [| now apply Hxs].
          apply in_or_app. left. now apply mem_In.
        + destruct (add_neighbors fuel graph x (cur ++ [x])) as [s1 | | |] eqn:Hrec;
            cbn [bind] in Hfold; try discriminate.
          apply IH in Hrec. destruct Hrec as (e1 & -> & Hnbrs & Hclosed1).
          rewrite seen_or_start_app in *.
          apply IHxs in Hfold. destruct Hfold as (e2 & -> & Hxs & Hclosed2).
          exists ([x] ++ e1 ++ e2).
          split; [now rewrite <- !app_assoc |]. split.
          * intros w [<- | Hw]; [| now apply Hxs].
            rewrite !in_app_iff. simpl. auto.
          * intros v w Hv Hvw. rewrite !in_app_iff in Hv.
            destruct Hv as [[<- | []] | [Hv | Hv]].
            -- apply in_or_app. left. now apply Hnbrs.
            -- apply in_or_app. left. eapply Hclosed1; eassumption.
            -- eapply Hclosed2; eassumption. }
    apply Hloop in Hrun. destruct Hrun as (ext & -> & Hnbrs & Hclosed).
    exists ext. split; [reflexivity |]. split; [| exact Hclosed].
    intros w Hw. apply Hnbrs. now apply (adjacent_getitem graph el nbrs w Hget).
Qed.

(** The component of [x]: it holds [x] and is closed under adjacency. *)
Lemma add_neighbors_component :
  forall fuel graph x component,
    add_neighbors fuel graph x [] = Ok component ->
    In x component /\ closed_on graph component component.
Proof.
  intros fuel graph x component Hrun.
  apply add_neighbors_closed in Hrun. destruct Hrun as (ext & -> & Hx & Hclosed).
  simpl. split; [auto |].
  intros v w [<- | Hv] Hvw; [now apply Hx | eapply Hclosed; eassumption].
Qed.

Lemma bounded_NoDup_length :
  forall n l, NoDup l -> (forall v, In v l -> (v < n)%nat) -> (length l <= n)%nat.
Proof.
  intros n l Hnd Hb.
  assert (Hle : (length l <= length (seq 0 n))%nat).
  { apply NoDup_incl_length; [exact Hnd |].
    intros v Hv. apply in_seq. specialize (Hb v Hv). lia. }
  now rewrite length_seq in Hle.
Qed.

(** With one unit of fuel per vertex not yet seen, [add_neighbors]
    returns. *)
Lemma add_neighbors_returns :
  forall graph, well_formed graph ->
  forall fuel el seen,
    let start := seen_or_start el seen in
    NoDup start -> (forall v, In v start -> (v < length graph)%nat) ->
    (el < length graph)%nat ->
    (length graph < fuel + length start)%nat ->
    exists seen',
      add_neighbors fuel graph el seen = Ok seen'
      /\ NoDup seen' /\ (forall v, In v seen' -> (v < length graph)%nat)
      /\ (length start <= length seen')%nat.
Proof.
  intros graph Hwf. induction fuel as [| fuel IH]; intros el seen start Hnd Hb Hel Hfuel.
  - pose proof (bounded_NoDup_length _ _ Hnd Hb). lia.
  - simpl. fold (seen_or_start el seen). fold start.
    destruct (nth_error graph el) as [nbrs |] eqn:Hnth;
      [| apply nth_error_None in Hnth; lia].
    unfold getitem. rewrite Hnth. cbn [bind].
    assert (Hnbrs : forall w, In w nbrs -> (w < length graph)%nat).
    { intros w Hw. apply (Hwf el w). exists nbrs. auto. }
    clear Hnth. revert Hnbrs.
    assert (Hloop : forall xs cur,
               (forall w, In w xs -> (w < length graph)%nat) ->
               NoDup cur -> (forall v, In v cur -> (v < length graph)%nat) ->
               (length start <= length cur)%nat ->
               exists out,
                 foldM (fun seen x =>
                          if mem x seen then Ok seen
                          else add_neighbors fuel graph x (seen ++ [x]))
                       xs cur = Ok out
                 /\ NoDup out /\ (forall v, In v out -> (v < length graph)%nat)
                 /\ (length start <= length out)%nat).
    { induction xs as [| x xs IHxs]; intros cur Hxs Hndc Hbc Hlen; simpl.
      - exists cur. auto.
      - destruct (mem x cur) eqn:Hmem; cbn [bind].
        + apply IHxs; auto. intros w Hw. apply Hxs. now right.
        + apply mem_not_In in Hmem.
          assert (Hnd1 : NoDup (cur ++ [x])).
          { apply NoDup_app; [exact Hndc | repeat constructor; auto |].
            intros v Hv [<- | []]. contradiction. }
          assert (Hb1 : forall v, In v (cur ++ [x]) -> (v < length graph)%nat).
          { intros v Hv. apply in_app_or in Hv. destruct Hv as [Hv | [<- | []]];
              [now apply Hbc | apply Hxs; now left]. }
          destruct (IH x (cur ++ [x])) as (s1 & Hs1 & Hnds & Hbs & Hlens).
          * now rewrite seen_or_start_app.
          * now rewrite seen_or_start_app.
          * apply Hxs. now left.
          * rewrite seen_or_start_app, length_app. simpl. lia.
          * rewrite Hs1. cbn [bind].
            rewrite seen_or_start_app, length_app in Hlens. simpl in Hlens.
            apply IHxs; auto; [intros w Hw; apply Hxs; now right | lia]. }
    intros Hnbrs. apply Hloop; auto.
Qed.

Lemma remove_first_length :
  forall y l, (length (remove_first y l) <= length l)%nat.
Proof.
  intros y l. induction l as [| x l IH]; simpl; [lia |].
  destruct (Nat.eqb y x); simpl; lia.
Qed.

Lemma remove_first_length_In :
  forall y l, In y l -> S (length (remove_first y l)) = length l.
Proof.
  intros y l. induction l as [| x l IH]; simpl; [intros [] |].
  intros Hin. destruct (Nat.eqb y x) eqn:Heq; [reflexivity |].
  apply Nat.eqb_neq in Heq. simpl. f_equal. apply IH.
  destruct Hin as [-> | Hin]; [contradiction | exact Hin].
Qed.

Lemma remove_first_keeps :
  forall y v l, In v l -> v <> y -> In v (remove_first y l).
Proof.
  intros y v l. induction l as [| x l IH]; simpl; [auto |].
  intros [-> | Hin] Hne.
  - destruct (Nat.eqb y v) eqn:Heq; [| now left].
    apply Nat.eqb_eq in Heq. congruence.
  - destruct (Nat.eqb y x); [exact Hin | right; auto].
Qed.

Lemma remove_first_incl :
  forall y v l, In v (remove_first y l) -> In v l.
Proof.
  intros y v l. induction l as [| x l IH]; simpl; [auto |].
  destruct (Nat.eqb y x); [auto |]. intros [-> | Hin]; auto.
Qed.

Lemma remove_seen_length :
  forall component unseen,
    (length (remove_seen component unseen) <= length unseen)%nat.
Proof.
  unfold remove_seen. induction component as [| y component IH]; intros unseen; simpl.
  - lia.
  - etransitivity; [apply IH |].
    destruct (mem y unseen); [apply remove_first_length | lia].
Qed.

Lemma remove_seen_incl :
  forall component unseen v, In v (remove_seen component unseen) -> In v unseen.
Proof.
  unfold remove_seen. induction component as [| y component IH]; intros unseen v; simpl.
  - auto.
  - intros Hin. apply IH in Hin.
    destruct (mem y unseen); [eapply remove_first_incl; eassumption | exact Hin].
Qed.

Lemma remove_seen_keeps :
  forall component unseen v,
    ~ In v component -> In v unseen -> In v (remove_seen component unseen).
Proof.
  unfold remove_seen. induction component as [| y component IH]; intros unseen v; simpl.
  - auto.
  - intros Hnot Hin. apply IH; [tauto |].
    destruct (mem y unseen); [apply remove_first_keeps; [exact Hin | intros ->; tauto] | exact Hin].
Qed.

Lemma remove_seen_drops :
  forall component unseen y,
    In y component -> In y unseen ->
    (length (remove_seen component unseen) < length unseen)%nat.
Proof.
  induction component as [| x component IH]; intros unseen y Hy Hin;
    [contradiction |].
  change (remove_seen (x :: component) unseen)
    with (remove_seen component (if mem x unseen then remove_first x unseen else unseen)).
  destruct (Nat.eq_dec x y) as [-> | Hne].
  - rewrite (proj2 (mem_In y unseen) Hin).
    pose proof (remove_seen_length component (remove_first y unseen)).
    pose proof (remove_first_length_In y unseen Hin). lia.
  - destruct Hy as [Hy | Hy]; [contradiction |].
    destruct (mem x unseen).
    + pose proof (remove_first_length x unseen).
      assert (In y (remove_first x unseen)) by (apply remove_first_keeps; auto).
      specialize (IH (remove_first x unseen) y Hy H0). lia.
    + now apply (IH unseen y).
Qed.

Lemma last_cons : forall (A : Type) (l : list A) (a d : A), last (a :: l) d = last l a.
Proof.
  intros A l. induction l as [| b l IH]; intros a d; [reflexivity |].
  change (last (a :: b :: l) d) with (last (b :: l) d).
  now rewrite (IH b d), (IH b a).
Qed.

Lemma split_last :
  forall (u0 : nat) us, u0 :: us = removelast (u0 :: us) ++ [last us u0].
Proof.
  intros u0 us. rewrite <- (last_cons nat us u0 0%nat).
  apply app_removelast_last. discriminate.
Qed.

Lemma popped :
  forall (u0 : nat) us v,
    In v (u0 :: us) -> v = last us u0 \/ In v (removelast (u0 :: us)).
Proof.
  intros u0 us v Hin. pose proof (split_last u0 us) as Hs.
  rewrite Hs in Hin.
  apply in_app_or in Hin. destruct Hin as [Hin | [<- | []]]; auto.
Qed.

Lemma removelast_length_cons :
  forall (u0 : nat) us, length (removelast (u0 :: us)) = length us.
Proof.
  intros u0 us. pose proof (f_equal (@length nat) (split_last u0 us)) as Hlen.
  rewrite length_app in Hlen. simpl in Hlen. simpl. lia.
Qed.

Lemma removelast_incl :
  forall (l : list nat) v, In v (removelast l) -> In v l.
Proof.
  intros l v Hin. destruct l as [| u0 us]; [contradiction |].
  rewrite (split_last u0 us). apply in_or_app. now left.
Qed.

Lemma components_loop_nil :
  forall fuel graph sets, components_loop fuel graph [] sets = Ok sets.
Proof. intros [| fuel] graph sets; reflexivity. Qed.

Lemma components_loop_step :
  forall fuel graph u0 us sets,
    components_loop (S fuel) graph (u0 :: us) sets
    = (component <- add_neighbors (S (length graph)) graph (last us u0) [] ;;
       components_loop fuel graph
         (remove_seen component (removelast (u0 :: us))) (sets ++ [component])).
Proof. reflexivity. Qed.

(** Each round of the loop takes at least one vertex out of [unseen]. *)
Lemma components_loop_count :
  forall fuel graph unseen sets out,
    components_loop fuel graph unseen sets = Ok out ->
    (length out <= length sets + length unseen)%nat.
Proof.
  induction fuel as [| fuel IH]; intros graph unseen sets out Hrun;
    destruct unseen as [| u0 us];
    rewrite ?components_loop_nil, ?components_loop_step in Hrun;
    try discriminate.
  - injection Hrun as <-. simpl. lia.
  - injection Hrun as <-. simpl. lia.
  - destruct (add_neighbors _ graph _ []) as [component | | |] eqn:Hcomp;
      cbn [bind] in Hrun; try discriminate.
    apply IH in Hrun. rewrite length_app in Hrun. simpl in Hrun.
    pose proof (remove_seen_length component (removelast (u0 :: us))) as Hlen.
    rewrite removelast_length_cons in Hlen. simpl. simpl in Hlen. lia.
Qed.

(** Two adjacent vertices leave [unseen] in the same round, so there are
    fewer components than vertices. *)
Lemma components_loop_merges :
  forall graph i j,
    symmetric_graph graph -> i <> j -> adjacent graph i j ->
    forall fuel unseen sets out,
      In i unseen -> In j unseen ->
      components_loop fuel graph unseen sets = Ok out ->
      (S (length out) <= length sets + length unseen)%nat.
Proof.
  intros graph i j Hsym Hij Hadj.
  induction fuel as [| fuel IH]; intros unseen sets out Hi Hj Hrun;
    destruct unseen as [| u0 us]; try contradiction;
    rewrite ?components_loop_step in Hrun; try discriminate.
  destruct (add_neighbors _ graph _ []) as [component | | |] eqn:Hcomp;
    cbn [bind] in Hrun; try discriminate.
  apply add_neighbors_component in Hcomp. destruct Hcomp as (Hx & Hclosed).
  pose proof (removelast_length_cons u0 us) as Hpop.
  set (rest := removelast (u0 :: us)) in *.
  assert (Hboth : In i component <-> In j component).
  { split; intros H; [apply (Hclosed i j H Hadj) | apply (Hclosed j i H (Hsym _ _ Hadj))]. }
  destruct (in_dec Nat.eq_dec i component) as [Hic | Hic].
  - (* both endpoints are in the component of x *)
    assert (Hjc : In j component) by tauto.
    assert (Hdrop : (length (remove_seen component rest) < length rest)%nat).
    { destruct (popped u0 us i Hi) as [Hix | Hir].
      - destruct (popped u0 us j Hj) as [Hjx | Hjr]; [congruence |].
        apply (remove_seen_drops component rest j); assumption.
      - apply (remove_seen_drops component rest i); assumption. }
    apply components_loop_count in Hrun. rewrite length_app in Hrun.
    simpl in *. lia.
  - (* neither is: both stay in unseen *)
    assert (Hjc : ~ In j component) by tauto.
    assert (Hir : In i rest).
    { destruct (popped u0 us i Hi) as [Hix | Hir]; [congruence | exact Hir]. }
    assert (Hjr : In j rest).
    { destruct (popped u0 us j Hj) as [Hjx | Hjr]; [congruence | exact Hjr]. }
    apply IH in Hrun;
      [| now apply remove_seen_keeps | now apply remove_seen_keeps].
    rewrite length_app in Hrun.
    pose proof (remove_seen_length component rest).
    simpl in *. lia.
Qed.

Lemma components_loop_returns :
  forall graph, well_formed graph ->
  forall fuel unseen sets,
    (forall v, In v unseen -> (v < length graph)%nat) ->
    (length unseen <= fuel)%nat ->
    exists out, components_loop fuel graph unseen sets = Ok out.
Proof.
  intros graph Hwf. induction fuel as [| fuel IH]; intros unseen sets Hb Hfuel;
    destruct unseen as [| u0 us]; simpl in Hfuel; try lia.
  - exists sets. reflexivity.
  - exists sets. reflexivity.
  - rewrite components_loop_step.
    assert (Hx : (last us u0 < length graph)%nat).
    { apply Hb. rewrite (split_last u0 us).
      apply in_or_app. right. simpl. auto. }
    destruct (add_neighbors_returns graph Hwf (S (length graph)) (last us u0) [])
      as (component & Hcomp & _).
    + simpl. repeat constructor. intros [].
    + simpl. intros v [<- | []]. exact Hx.
    + exact Hx.
    + simpl. lia.
    + rewrite Hcomp. cbn [bind].
      apply IH.
      * intros v Hv. apply remove_seen_incl, removelast_incl in Hv. now apply Hb.
      * pose proof (remove_seen_length component (removelast (u0 :: us))) as Hlen.
        rewrite removelast_length_cons in Hlen. lia.
Qed.

Lemma connected_components_returns :
  forall graph, well_formed graph -> exists groups, connected_components graph = Ok groups.
Proof.
  intros graph Hwf. unfold connected_components.
  apply components_loop_returns; [exact Hwf | | now rewrite length_seq].
  intros v Hv. apply in_seq in Hv. lia.
Qed.

Lemma connected_components_merges :
  forall graph groups i j,
    symmetric_graph graph -> well_formed graph ->
    i <> j -> adjacent graph i j ->
    connected_components graph = Ok groups ->
    (length groups < length graph)%nat /\ (2 <= length graph)%nat.
Proof.
  intros graph groups i j Hsym Hwf Hij Hadj Hrun.
  assert (Hj : (j < length graph)%nat) by exact (Hwf _ _ Hadj).
  assert (Hi : (i < length graph)%nat) by exact (Hwf _ _ (Hsym _ _ Hadj)).
  split; [| lia].
  unfold connected_components in Hrun.
  apply (components_loop_merges graph i j Hsym Hij Hadj) in Hrun.
  - rewrite length_seq in Hrun. simpl in Hrun. lia.
  - apply in_seq. lia.
  - apply in_seq. lia.
Qed.

(** ** [merge_coordinate] *)

Lemma terminated_bind :
  forall (A B : Type) (r : result A) (k : A -> result B),
    terminated r -> (forall a, r = Ok a -> terminated (k a)) ->
    terminated (bind r k).
Proof.
  intros A B [a | e | |] k Hr Hk; simpl in *; auto.
Qed.

Lemma foldM_terminated :
  forall (S X : Type) (body : S -> X -> result S) xs s,
    (forall s x, terminated (body s x)) -> terminated (foldM body xs s).
Proof.
  intros S X body xs. induction xs as [| x xs IH]; intros s Hbody; simpl.
  - exact I.
  - apply terminated_bind; [apply Hbody |]. intros s' _. now apply IH.
Qed.

Lemma getitem_terminated :
  forall (A : Type) (l : list A) i, terminated (getitem l i).
Proof. intros A l i. unfold getitem. destruct (nth_error l i); exact I. Qed.

Lemma getlast_terminated : forall (A : Type) (l : list A), terminated (getlast l).
Proof. intros A [| a l]; exact I. Qed.

Lemma append_at_terminated : forall graph i x, terminated (append_at graph i x).
Proof.
  induction graph as [| l g IH]; intros i x; simpl; [exact I |].
  destruct i as [| i]; [exact I |].
  apply terminated_bind; [apply IH | intros; exact I].
Qed.

Lemma select_terminated :
  forall (A : Type) (coor : list A) group, terminated (select coor group).
Proof.
  intros A coor group. unfold select. apply foldM_terminated.
  intros s x. apply terminated_bind; [apply getitem_terminated | intros; exact I].
Qed.

Lemma short_dist_of_matrix_terminated :
  forall n d tol, terminated (short_dist_of_matrix n d tol).
Proof.
  intros n d tol. unfold short_dist_of_matrix.
  apply terminated_bind.
  - apply foldM_terminated. intros pairs i.
    apply terminated_bind; [apply getitem_terminated |]. intros j _.
    destruct (j <=? i)%nat; [exact I |].
    apply terminated_bind; [apply getitem_terminated |]. intros row _.
    apply terminated_bind; [apply getitem_terminated |]. intros; exact I.
  - intros [| p ps] _; [exact I |].
    apply terminated_bind; [| intros; exact I].
    apply foldM_terminated. intros g [[pair0 pair1] x].
    apply terminated_bind; [apply append_at_terminated |]. intros g' _.
    apply append_at_terminated.
Qed.

Lemma merged_length :
  forall (A P : Type) (coor : list A) (center : list A -> P) groups acc merged,
    foldM (fun merged group =>
             pts <- select coor group ;; Ok (merged ++ [center pts]))
          groups acc = Ok merged ->
    length merged = (length acc + length groups)%nat.
Proof.
  intros A P coor center groups.
  induction groups as [| g groups IH]; intros acc merged Hrun; simpl in Hrun.
  - injection Hrun as <-. simpl. lia.
  - bind_inv. apply IH in Hrun. rewrite length_app in Hrun. simpl in *. lia.
Qed.

Section MergeFacts.
Context {Point Lattice Op : Type} {G : Geometry Point Lattice Op}.
Variable get_center : list Point -> Lattice -> list nat -> Point.
Variable lattice : Lattice.
Variable wyckoffs : list (list Op).
Variable w_symm_all : list (list (list Op)).
Variable tol : Q.
Variable PBC : list nat.

Local Abbreviation one_round coor :=
  (merge_round get_center coor lattice wyckoffs w_symm_all tol PBC).
Local Abbreviation merge fuel coor :=
  (merge_coordinate get_center fuel coor lattice wyckoffs w_symm_all tol PBC).

(** A round that goes on does so with fewer points. *)
Lemma merge_round_decreases :
  forall coor merged,
    one_round coor = Ok (Continue merged) ->
    (length merged < length coor)%nat /\ (2 <= length coor)%nat.
Proof.
  intros coor merged Hrun. unfold merge_round, find_short_dist in Hrun.
  destruct (distance_matrix coor coor lattice PBC) as [d | | |];
    cbn [bind] in Hrun; try discriminate.
  destruct (short_dist_of_matrix (length coor) d tol) as [[pairs graph] | | |] eqn:Hshort;
    cbn [bind] in Hrun; try discriminate.
  apply short_dist_of_matrix_graph in Hshort.
  destruct Hshort as (Hlen & Hsym & Hwf & Hedge).
  destruct (0 <? length pairs)%nat eqn:Hpairs; [| discriminate].
  apply Nat.ltb_lt in Hpairs.
  destruct Hedge as (i & j & Hij & Hadj); [destruct pairs; [simpl in Hpairs; lia | discriminate] |].
  destruct (getlast wyckoffs) as [smallest | | |]; cbn [bind] in Hrun; try discriminate.
  destruct (length smallest <? length coor)%nat; [| discriminate].
  destruct (connected_components graph) as [groups | | |] eqn:Hgroups;
    cbn [bind] in Hrun; try discriminate.
  destruct (foldM _ groups []) as [merged' | | |] eqn:Hmerged;
    cbn [bind] in Hrun; try discriminate.
  destruct (check_wyckoff_position merged' wyckoffs w_symm_all PBC);
    [| discriminate].
  injection Hrun as <-.
  apply merged_length in Hmerged. simpl in Hmerged.
  destruct (connected_components_merges graph groups i j Hsym Hwf Hij Hadj Hgroups).
  lia.
Qed.

Hypothesis distance_matrix_terminated :
  forall c1 c2 l pbc, terminated (distance_matrix c1 c2 l pbc).

Lemma merge_round_terminated : forall coor, terminated (one_round coor).
Proof.
  intros coor. unfold merge_round, find_short_dist.
  apply terminated_bind.
  - apply terminated_bind; [apply distance_matrix_terminated |].
    intros d _. apply short_dist_of_matrix_terminated.
  - intros [pairs graph] Hfind.
    destruct (0 <? length pairs)%nat; [| exact I].
    apply terminated_bind; [apply getlast_terminated |]. intros smallest _.
    destruct (length smallest <? length coor)%nat; [| exact I].
    assert (Hwf : well_formed graph).
    { destruct (distance_matrix coor coor lattice PBC) as [d | | |];
        cbn [bind] in Hfind; try discriminate.
      now apply short_dist_of_matrix_graph in Hfind. }
    destruct (connected_components_returns graph Hwf) as (groups & ->).
    cbn [bind].
    apply terminated_bind.
    + apply foldM_terminated. intros merged group.
      apply terminated_bind; [apply select_terminated | intros; exact I].
    + intros merged _. destruct (check_wyckoff_position _ _ _ _); exact I.
Qed.

Lemma merge_coordinate_enough :
  forall fuel coor,
    (length coor <= fuel)%nat -> (1 <= fuel)%nat -> terminated (merge fuel coor).
Proof.
  induction fuel as [| fuel IH]; intros coor Hlen Hfuel; [lia |].
  simpl. apply terminated_bind; [apply merge_round_terminated |].
  intros [coor' index | merged] Hround; [exact I |].
  apply merge_round_decreases in Hround. apply IH; lia.
Qed.
End MergeFacts.

(** ** [merge_coordinate] on a table of distances *)

Lemma enumerate_from :
  forall (A : Type) (l : list A) start i a,
    In (i, a) (combine (seq start (length l)) l)
    <-> (start <= i)%nat /\ nth_error l (i - start) = Some a.
Proof.
  intros A l. induction l as [| x l IH]; intros start i a; simpl.
  - split; [intros [] |]. intros [_ H]. destruct (i - start)%nat; discriminate.
  - rewrite IH. split.
    + intros [Heq | [Hle Hnth]].
      * injection Heq as <- <-. rewrite Nat.sub_diag. auto.
      * split; [lia |]. replace (i - start)%nat with (S (i - S start)) by lia.
        exact Hnth.
    + intros [Hle Hnth]. destruct (Nat.eq_dec start i) as [<- | Hne].
      * rewrite Nat.sub_diag in Hnth. left. simpl in Hnth. congruence.
      * right. split; [lia |].
        replace (i - start)%nat with (S (i - S start)) in Hnth by lia.
        exact Hnth.
Qed.

Lemma In_enumerate :
  forall (A : Type) (l : list A) i a,
    In (i, a) (enumerate l) <-> nth_error l i = Some a.
Proof.
  intros A l i a. unfold enumerate. rewrite enumerate_from, Nat.sub_0_r.
  split; [tauto | intros H; split; [lia | exact H]].
Qed.

(** The hits of [np.where(d <= tol)]. *)
Lemma In_where_le :
  forall d tol i j,
    In (i, j) (combine (fst (where_le d tol)) (snd (where_le d tol)))
    <-> exists row x,
        nth_error d i = Some row /\ nth_error row j = Some x
        /\ Qle_bool x tol = true.
Proof.
  intros d tol i j. unfold where_le. cbn [fst snd].
  set (hits := flat_map _ (enumerate d)).
  assert (Hzip : combine (map fst hits) (map snd hits) = hits).
  { clearbody hits. induction hits as [| [a b] hits IH]; simpl; [reflexivity |].
    now rewrite IH. }
  rewrite Hzip. subst hits. rewrite in_flat_map. split.
  - intros ([i' row] & Hrow & Hin). apply In_enumerate in Hrow.
    apply in_map_iff in Hin. destruct Hin as ([j' x] & Heq & Hin).
    injection Heq as <- <-. apply filter_In in Hin. destruct Hin as [Hin Hle].
    apply In_enumerate in Hin. exists row, x. auto.
  - intros (row & x & Hrow & Hx & Hle). exists (i, row).
    split; [now apply In_enumerate |].
    apply in_map_iff. exists (j, x). split; [reflexivity |].
    apply filter_In. split; [now apply In_enumerate | exact Hle].
Qed.

Lemma flat_map_length_ge :
  forall (A B : Type) (f : A -> list B) l,
    (forall a, In a l -> f a <> []) -> (length l <= length (flat_map f l))%nat.
Proof.
  intros A B f l. induction l as [| a l IH]; intros Hne; simpl; [lia |].
  rewrite length_app.
  assert (Ha : f a <> []) by (apply Hne; now left).
  assert (Hl : (length l <= length (flat_map f l))%nat)
    by (apply IH; intros b Hb; apply Hne; now right).
  destruct (f a); [contradiction | simpl; lia].
Qed.

Lemma where_le_lengths :
  forall d tol, length (fst (where_le d tol)) = length (snd (where_le d tol)).
Proof. intros d tol. unfold where_le. cbn [fst snd]. now rewrite !length_map. Qed.

Lemma In_combine_fst :
  forall (A B : Type) (l1 : list A) (l2 : list B) a,
    length l1 = length l2 -> In a l1 -> exists b, In (a, b) (combine l1 l2).
Proof.
  intros A B l1. induction l1 as [| x l1 IH]; intros [| y l2] a Hlen Hin;
    simpl in *; try contradiction; try discriminate.
  destruct Hin as [-> | Hin]; [exists y; auto |].
  destruct (IH l2 a) as (b & Hb); [lia | exact Hin |]. exists b. auto.
Qed.

Lemma In_combine_snd :
  forall (A B : Type) (l1 : list A) (l2 : list B) b,
    length l1 = length l2 -> In b l2 -> exists a, In (a, b) (combine l1 l2).
Proof.
  intros A B l1. induction l1 as [| x l1 IH]; intros [| y l2] b Hlen Hin;
    simpl in *; try contradiction; try discriminate.
  destruct Hin as [-> | Hin]; [exists x; auto |].
  destruct (IH l2 b) as (a & Ha); [lia | exact Hin |]. exists a. auto.
Qed.

Lemma Qle_bool_diag :
  forall x tol, x == 0 -> 0 <= tol -> Qle_bool x tol = true.
Proof. intros x tol Hx Htol. apply Qle_bool_iff. now rewrite Hx. Qed.

Section HitsOfTable.
Variables (n : nat) (d : list (list Q)) (tol : Q).
Hypothesis table : distance_table n d.
Hypothesis tol_nonneg : 0 <= tol.

Lemma where_le_rows : forall i, In i (fst (where_le d tol)) -> (i < n)%nat.
Proof.
  intros i Hi. destruct table as (Hlen & _ & _).
  destruct (In_combine_fst _ _ _ (snd (where_le d tol)) i (where_le_lengths d tol) Hi)
    as (j & Hij).
  apply In_where_le in Hij. destruct Hij as (row & x & Hrow & _ & _).
  rewrite <- Hlen. apply nth_error_Some. congruence.
Qed.

Lemma where_le_cols : forall j, In j (snd (where_le d tol)) -> (j < n)%nat.
Proof.
  intros j Hj. destruct table as (_ & Hrows & _).
  destruct (In_combine_snd _ _ (fst (where_le d tol)) _ j (where_le_lengths d tol) Hj)
    as (i & Hij).
  apply In_where_le in Hij. destruct Hij as (row & x & Hrow & Hx & _).
  rewrite <- (Hrows row) by (eapply nth_error_In; eassumption).
  apply nth_error_Some. congruence.
Qed.

(** Every row has the hit of its diagonal entry. *)
Lemma where_le_count : (n <= length (snd (where_le d tol)))%nat.
Proof.
  destruct table as (Hlen & Hrows & Hdiag).
  unfold where_le. cbn [fst snd]. rewrite length_map.
  etransitivity; [| apply flat_map_length_ge].
  - unfold enumerate. rewrite length_combine, length_seq. lia.
  - intros [i row] Hin. apply In_enumerate in Hin.
    assert (Hi : (i < length row)%nat).
    { rewrite (Hrows row) by (eapply nth_error_In; eassumption).
      rewrite <- Hlen. apply nth_error_Some. congruence. }
    destruct (nth_error row i) as [x |] eqn:Hx;
      [| apply nth_error_None in Hx; lia].
    assert (Hhit : In (i, x) (filter (fun '(_, x) => Qle_bool x tol) (enumerate row))).
    { apply filter_In. split; [now apply In_enumerate |].
      apply Qle_bool_diag; [eapply Hdiag; eassumption | exact tol_nonneg]. }
    intros Hnil. apply (in_map (fun '(j, _) => (i, j))) in Hhit.
    rewrite Hnil in Hhit. contradiction.
Qed.

Lemma unique_incl : forall l i, In i (unique l) -> In i l.
Proof.
  intros l i Hi. unfold unique in Hi. apply filter_In in Hi.
  destruct Hi as [_ Hi]. now apply mem_In.
Qed.

Lemma pairs_fold_returns :
  forall rows pairs,
    (forall i, In i rows -> (i < n)%nat) ->
    (forall i j x, In (i, j, x) pairs -> (i < n)%nat /\ (j < n)%nat) ->
    exists pairs',
      foldM (fun pairs i =>
               j <- getitem (snd (where_le d tol)) i ;;
               if (j <=? i)%nat then Ok pairs
               else
                 row <- getitem d i ;;
                 dij <- getitem row j ;;
                 Ok (pairs ++ [(i, j, dij)]))
            rows pairs = Ok pairs'
      /\ forall i j x, In (i, j, x) pairs' -> (i < n)%nat /\ (j < n)%nat.
Proof.
  destruct table as (Hlen & Hrows & _).
  induction rows as [| i rows IH]; intros pairs Hrows_lt Hpairs; cbn [foldM].
  - exists pairs. auto.
  - assert (Hi : (i < n)%nat) by (apply Hrows_lt; now left).
    destruct (nth_error (snd (where_le d tol)) i) as [j |] eqn:Hj;
      [| apply nth_error_None in Hj; pose proof where_le_count; lia].
    unfold getitem at 1. rewrite Hj. cbn [bind].
    assert (Hjn : (j < n)%nat) by (eapply where_le_cols, nth_error_In; eassumption).
    destruct (j <=? i)%nat.
    + apply IH; [intros i' Hi'; apply Hrows_lt; now right | exact Hpairs].
    + destruct (nth_error d i) as [row |] eqn:Hrow;
        [| apply nth_error_None in Hrow; lia].
      unfold getitem at 1. rewrite Hrow. cbn [bind].
      destruct (nth_error row j) as [x |] eqn:Hx.
      2:{ apply nth_error_None in Hx.
          rewrite (Hrows row) in Hx by (eapply nth_error_In; eassumption). lia. }
      unfold getitem at 1. rewrite Hx. cbn [bind].
      apply IH; [intros i' Hi'; apply Hrows_lt; now right |].
      intros i' j' x' Hin. apply in_app_or in Hin.
      destruct Hin as [Hin | [Heq | []]]; [eapply Hpairs; eassumption |].
      injection Heq as <- <- <-. auto.
Qed.
End HitsOfTable.

Lemma append_at_returns :
  forall graph i x,
    (i < length graph)%nat -> exists graph', append_at graph i x = Ok graph'.
Proof.
  induction graph as [| l g IH]; intros i x Hi; simpl in *; [lia |].
  destruct i as [| i]; [eauto |].
  destruct (IH i x) as (g' & ->); [lia |]. simpl. eauto.
Qed.

Lemma graph_fold_returns :
  forall (pairs : list (nat * nat * Q)) graph,
    (forall i j x, In (i, j, x) pairs ->
                   (i < length graph)%nat /\ (j < length graph)%nat) ->
    exists graph',
      foldM (fun g '(pair0, pair1, _) =>
               g' <- append_at g pair0 pair1 ;; append_at g' pair1 pair0)
            pairs graph = Ok graph'.
Proof.
  induction pairs as [| [[i j] x] pairs IH]; intros graph Hb; simpl.
  - eauto.
  - destruct (Hb i j x) as [Hi Hj]; [now left |].
    destruct (append_at_returns graph i j Hi) as (g1 & Hg1). rewrite Hg1. cbn [bind].
    pose proof (append_at_spec _ _ _ _ Hg1) as (Hlen1 & _ & _).
    destruct (append_at_returns g1 j i) as (g2 & Hg2); [lia |]. rewrite Hg2. cbn [bind].
    pose proof (append_at_spec _ _ _ _ Hg2) as (Hlen2 & _ & _).
    apply IH. intros i' j' x' Hin. rewrite Hlen2, Hlen1. apply (Hb i' j' x'). now right.
Qed.

Lemma short_dist_of_matrix_returns :
  forall n d tol,
    distance_table n d -> 0 <= tol ->
    exists r, short_dist_of_matrix n d tol = Ok r.
Proof.
  intros n d tol Htable Htol. unfold short_dist_of_matrix.
  destruct (pairs_fold_returns n d tol Htable Htol (unique (fst (where_le d tol))) [])
    as (pairs & -> & Hpairs).
  - intros i Hi. apply (where_le_rows n d tol Htable). now apply unique_incl.
  - intros i j x [].
  - cbn [bind]. destruct pairs as [| p ps]; [eauto |].
    set (kept := filter _ (p :: ps)).
    destruct (graph_fold_returns kept (repeat [] n)) as (graph & ->).
    + intros i j x Hin. rewrite repeat_length. apply (Hpairs i j x).
      subst kept. apply filter_In in Hin. tauto.
    + cbn [bind]. eauto.
Qed.

Lemma components_loop_bounded :
  forall graph, well_formed graph ->
  forall fuel unseen sets out,
    (forall v, In v unseen -> (v < length graph)%nat) ->
    (forall s v, In s sets -> In v s -> (v < length graph)%nat) ->
    components_loop fuel graph unseen sets = Ok out ->
    forall s v, In s out -> In v s -> (v < length graph)%nat.
Proof.
  intros graph Hwf. induction fuel as [| fuel IH]; intros unseen sets out Hb Hsets Hrun;
    destruct unseen as [| u0 us];
    rewrite ?components_loop_nil, ?components_loop_step in Hrun;
    try discriminate.
  - injection Hrun as <-. exact Hsets.
  - injection Hrun as <-. exact Hsets.
  - assert (Hx : (last us u0 < length graph)%nat).
    { apply Hb. rewrite (split_last u0 us). apply in_or_app. right. simpl. auto. }
    destruct (add_neighbors_returns graph Hwf (S (length graph)) (last us u0) [])
      as (component & Hcomp & _ & Hbounded & _).
    + simpl. repeat constructor. intros [].
    + simpl. intros v [<- | []]. exact Hx.
    + exact Hx.
    + simpl. lia.
    + rewrite Hcomp in Hrun. cbn [bind] in Hrun.
      refine (IH _ _ _ _ _ Hrun).
      * intros v Hv. apply remove_seen_incl, removelast_incl in Hv. now apply Hb.
      * intros s v Hs Hv. apply in_app_or in Hs.
        destruct Hs as [Hs | [<- | []]]; [eapply Hsets; eassumption | now apply Hbounded].
Qed.

Lemma connected_components_bounded :
  forall graph groups,
    well_formed graph -> connected_components graph = Ok groups ->
    forall group v, In group groups -> In v group -> (v < length graph)%nat.
Proof.
  intros graph groups Hwf Hrun. unfold connected_components in Hrun.
  refine (components_loop_bounded graph Hwf _ _ _ _ _ _ Hrun).
  - intros v Hv. apply in_seq in Hv. lia.
  - intros s v [].
Qed.

Lemma select_returns :
  forall (A : Type) (coor : list A) group,
    (forall v, In v group -> (v < length coor)%nat) ->
    exists pts, select coor group = Ok pts.
Proof.
  intros A coor group Hb. unfold select.
  assert (Hloop : forall acc : list A,
             exists pts,
               foldM (fun acc i => p <- getitem coor i ;; Ok (acc ++ [p]))
                     group acc = Ok pts).
  { induction group as [| i group IH]; intros acc; simpl; [eauto |].
    destruct (nth_error coor i) as [p |] eqn:Hp.
    - unfold getitem. rewrite Hp. cbn [bind]. apply IH.
      intros v Hv. apply Hb. now right.
    - apply nth_error_None in Hp. specialize (Hb i (or_introl eq_refl)). lia. }
  apply Hloop.
Qed.

Lemma merged_returns :
  forall (A P : Type) (coor : list A) (center : list A -> P) groups acc,
    (forall group v, In group groups -> In v group -> (v < length coor)%nat) ->
    exists merged,
      foldM (fun merged group =>
               pts <- select coor group ;; Ok (merged ++ [center pts]))
            groups acc = Ok merged.
Proof.
  intros A P coor center groups.
  induction groups as [| g groups IH]; intros acc Hb; simpl; [eauto |].
  destruct (select_returns A coor g) as (pts & ->).
  - intros v Hv. apply (Hb g v); [now left | exact Hv].
  - cbn [bind]. apply IH. intros group v Hg Hv. apply (Hb group v); [now right | exact Hv].
Qed.

Section MergeReturns.
Context {Point Lattice Op : Type} {G : Geometry Point Lattice Op}.
Variable get_center : list Point -> Lattice -> list nat -> Point.
Variable lattice : Lattice.
Variable wyckoffs : list (list Op).
Variable w_symm_all : list (list (list Op)).
Variable tol : Q.
Variable PBC : list nat.

Hypothesis distance_matrix_table :
  forall pts, exists d,
      distance_matrix pts pts lattice PBC = Ok d /\ distance_table (length pts) d.
Hypothesis tol_nonneg : 0 <= tol.
Hypothesis wyckoffs_nonempty : wyckoffs <> [].

Lemma merge_round_returns :
  forall coor,
    exists r, merge_round get_center coor lattice wyckoffs w_symm_all tol PBC = Ok r.
Proof.
  intros coor. unfold merge_round, find_short_dist.
  destruct (distance_matrix_table coor) as (d & -> & Htable). cbn [bind].
  destruct (short_dist_of_matrix_returns _ d tol Htable tol_nonneg)
    as ([pairs graph] & Hshort).
  rewrite Hshort. cbn [bind].
  apply short_dist_of_matrix_graph in Hshort.
  destruct Hshort as (Hlen & _ & Hwf & _).
  destruct (0 <? length pairs)%nat; [| eauto].
  destruct wyckoffs as [| w ws] eqn:Hw; [contradiction | rewrite <- Hw].
  replace (getlast wyckoffs) with (Ok (last ws w)) by (rewrite Hw; reflexivity).
  cbn [bind].
  destruct (length (last ws w) <? length coor)%nat; [| eauto].
  destruct (connected_components_returns graph Hwf) as (groups & Hgroups).
  rewrite Hgroups. cbn [bind].
  destruct (merged_returns Point Point coor (fun pts => get_center pts lattice PBC) groups [])
    as (merged & ->).
  - intros group v Hg Hv. rewrite <- Hlen.
    eapply connected_components_bounded; eassumption.
  - cbn [bind]. destruct (check_wyckoff_position _ _ _ _); eauto.
Qed.

Lemma merge_coordinate_returns :
  forall fuel coor,
    (length coor <= fuel)%nat -> (1 <= fuel)%nat ->
    exists coor' index,
      merge_coordinate get_center fuel coor lattice wyckoffs w_symm_all tol PBC
      = Ok (coor', index).
Proof.
  induction fuel as [| fuel IH]; intros coor Hlen Hfuel; [lia |].
  simpl. destruct (merge_round_returns coor) as ([coor' index | merged] & Hround);
    rewrite Hround; cbn [bind]; [eauto |].
  apply merge_round_decreases in Hround. apply IH; lia.
Qed.
End MergeReturns.

(** C6.  A round of the loop of [merge_coordinate] that merges goes on
    with strictly fewer points.  For a non-empty orbit the loop comes to
    an end, returning or raising, within as many rounds as the orbit has
    points, whenever [distance_matrix] comes to an end; and when
    [distance_matrix] returns tables of distances, the tolerance is not
    negative and there is a Wyckoff position, it returns within as many
    rounds: the points with the index found, or with [False]. *)
Theorem merge_coordinate_terminates :
  forall (Point Lattice Op : Type) (G : Geometry Point Lattice Op)
         (get_center : list Point -> Lattice -> list nat -> Point)
         (lattice : Lattice) (wyckoffs : list (list Op))
         (w_symm_all : list (list (list Op))) (tol : Q) (PBC : list nat),
    (forall coor merged,
        merge_round get_center coor lattice wyckoffs w_symm_all tol PBC
        = Ok (Continue merged) ->
        (length merged < length coor)%nat)
    /\ ((forall c1 c2 l pbc, terminated (distance_matrix c1 c2 l pbc)) ->
        forall coor,
          coor <> [] ->
          terminated (merge_coordinate get_center (length coor) coor lattice
                        wyckoffs w_symm_all tol PBC))
    /\ ((forall pts, exists d,
             distance_matrix pts pts lattice PBC = Ok d
             /\ distance_table (length pts) d) ->
        0 <= tol -> wyckoffs <> [] ->
        forall coor,
          coor <> [] ->
          exists coor' index,
            merge_coordinate get_center (length coor) coor lattice
              wyckoffs w_symm_all tol PBC = Ok (coor', index)).
Proof.
  intros Point Lattice Op G get_center lattice wyckoffs w_symm_all tol PBC.
  split; [| split].
  - intros coor merged Hround.
    now apply merge_round_decreases in Hround.
  - intros Hdm coor Hne. apply merge_coordinate_enough; [exact Hdm | lia |].
    destruct coor; [contradiction | simpl; lia].
  - intros Htable Htol Hwyckoffs coor Hne.
    apply merge_coordinate_returns; auto.
    destruct coor; [contradiction | simpl; lia].
Qed.

Lemma axis_distance_diag : forall edge x, axis_distance edge x x == 0.
Proof.
  intros edge x. unfold axis_distance.
  assert (H0 : Qabs (x - x) == 0).
  { assert (Hx : x - x == 0) by ring. rewrite Hx. reflexivity. }
  assert (Hmin : Qmin (Qabs (x - x)) (Qmin (Qabs (x - x + 1)) (Qabs (x - x - 1))) == 0).
  { rewrite Q.min_l; [exact H0 |].
    rewrite H0. apply Q.min_glb; apply Qabs_nonneg. }
  rewrite Hmin. ring.
Qed.

Lemma axis_distance_table :
  forall (edge : Q) (pbc : list nat) (pts : list Q),
    exists d,
      @distance_matrix _ _ _ axis_placed pts pts edge pbc = Ok d
      /\ distance_table (length pts) d.
Proof.
  intros edge pbc pts. eexists. split; [reflexivity |].
  split; [now rewrite length_map |]. split.
  - intros row Hrow. apply in_map_iff in Hrow. destruct Hrow as (x & <- & _).
    now rewrite length_map.
  - intros i row x Hrow Hx.
    rewrite nth_error_map in Hrow.
    destruct (nth_error pts i) as [xi |] eqn:Hxi; [| discriminate].
    injection Hrow as <-.
    rewrite nth_error_map, Hxi in Hx. injection Hx as <-.
    apply axis_distance_diag.
Qed.

Lemma merge_coordinate_terminates_witness :
  (length merged_on_axis < length three_on_axis)%nat
  /\ terminated (@merge_coordinate _ _ _ axis_placed plain_mean
                   (length three_on_axis) three_on_axis 10 [[op_xyz]] []
                   (3 # 10) [1; 2; 3]%nat)
  /\ exists coor' index,
      @merge_coordinate _ _ _ axis_placed plain_mean
        (length three_on_axis) three_on_axis 10 [[op_xyz]] []
        (3 # 10) [1; 2; 3]%nat = Ok (coor', index).
Proof.
  destruct (merge_coordinate_terminates Q Q SymmOp axis_placed plain_mean 10
              [[op_xyz]] [] (3 # 10) [1; 2; 3]%nat) as (Hless & Hends & Hreturns).
  split; [| split].
  - apply (Hless three_on_axis). vm_compute. reflexivity.
  - apply Hends; [intros c1 c2 l pbc; exact I | discriminate].
  - apply Hreturns; try discriminate. apply axis_distance_table.
Defined.

(** ** [check_compatible] comes to an end *)

(** The subtraction loop of [check_compatible] comes to an end: each
    round takes at least one atom off [remaining]. *)
Lemma subtract_wp_terminated :
  forall fuel wp st remaining,
    (Z.to_nat remaining < fuel)%nat -> terminated (subtract_wp fuel wp st remaining).
Proof.
  induction fuel as [| fuel IH]; intros wp st remaining Hfuel; [lia |].
  simpl.
  destruct ((Z.of_nat (length wp) <=? remaining)%Z && negb (wp_in wp (removed_wyckoffs st)))
    eqn:Hcond; [| exact I].
  apply andb_prop in Hcond. destruct Hcond as [Hle _]. apply Z.leb_le in Hle.
  destruct wp as [| op wp]; [exact I |].
  cbn [getitem nth_error bind].
  assert (Hless : (Z.to_nat (remaining - Z.of_nat (length (op :: wp))) < fuel)%nat).
  { simpl length in *. lia. }
  destruct (allclose_zeros (rotation_matrix op)); now apply IH.
Qed.

Lemma check_compatible_terminated :
  forall wyckoffs_organized numIons,
    terminated (check_compatible wyckoffs_organized numIons).
Proof.
  intros organized numIons. unfold check_compatible.
  apply terminated_bind.
  - unfold N_site. apply foldM_terminated. intros acc x.
    apply terminated_bind; [apply getitem_terminated | intros; exact I].
  - intros n_site _. generalize {| has_freedom := false; removed_wyckoffs := [] |}.
    induction numIons as [| numIon rest IH]; intros st; cbn [compatible_loop].
    + destruct (has_freedom st); exact I.
    + apply terminated_bind; [apply getlast_terminated |]. intros smallest _.
      destruct (0 <? np_mod numIon (Z.of_nat smallest))%Z; [exact I |].
      apply terminated_bind; [apply getlast_terminated |]. intros group _.
      apply terminated_bind; [apply getlast_terminated |]. intros wp _.
      apply terminated_bind; [apply getitem_terminated |]. intros op _.
      destruct (ndarray_all (rotation_matrix op)); [apply IH |].
      apply terminated_bind.
      * apply foldM_terminated. intros acc x. apply foldM_terminated.
        intros [st' remaining] wp'. apply subtract_wp_terminated. lia.
      * intros [st' remaining] _. destruct (negb (remaining =? 0)%Z); [exact I | apply IH].
Qed.

(** ** What a valid crystal holds *)

Section DriverSites.
Context {Point Lattice CellPara : Type}.
Context {ES : ElementService} {G : Geometry Point Lattice SymmOp}.
Variable generate_lattice_for :
  random_crystal Point Lattice CellPara -> nat -> Q -> result (option CellPara).
Variable para2matrix_of : CellPara -> result Lattice.
Variable volume_differs : Q -> Lattice -> bool.
Variable rand_u : nat -> Q.
Variable rand_choice : nat -> nat.
Variable random_point : nat -> Point.
Variable operate : SymmOp -> Point -> Point.
Variable get_center : list Point -> Lattice -> list nat -> Point.
Variable Add_vacuum : Lattice -> list Point -> list nat -> Lattice * list Point.
Variable self : random_crystal Point Lattice CellPara.

Local Abbreviation cycle3 := (cycle3_loop rand_u rand_choice random_point operate get_center self).
Local Abbreviation per_species := (species_loop rand_u rand_choice random_point operate get_center self).
Local Abbreviation cycle2 := (cycle2_loop rand_u rand_choice random_point operate get_center self).
Local Abbreviation cycle1 :=
  (cycle1_loop generate_lattice_for para2matrix_of volume_differs rand_u
               rand_choice random_point operate get_center Add_vacuum self).

(** The loop over the attempts for one species appends atoms of that
    species only, counts them in [numIon_added], copies exactly when the
    count is reached, and otherwise reaches the count only by leaving
    everything as it was. *)
Lemma cycle3_loop_sites :
  forall cell k numIon specie tol attempts tmp added attempts' tmp' added' copied,
    cycle3 cell k numIon specie tol attempts tmp added
    = Ok (attempts', tmp', added', copied) ->
    exists m,
      snd tmp' = snd tmp ++ repeat specie m
      /\ length (fst tmp') = (length (fst tmp) + m)%nat
      /\ added' = (added + Z.of_nat m)%Z
      /\ (forall t, copied = Some t -> t = tmp' /\ added' = numIon)
      /\ (copied = None -> added' = numIon -> tmp' = tmp).
Proof.
  intros cell k; induction k as [| k IH]; intros until copied;
    cbn [cycle3_loop]; intros Hrun.
  - injection Hrun as <- <- <- <-. exists 0%nat. simpl.
    rewrite app_nil_r, Z.add_0_r, Nat.add_0_r.
    do 3 (split; [reflexivity |]). split; [discriminate | reflexivity].
  - destruct (choose_wyckoff _ _ _ _) as [[ops |] | | |]; cbn [bind] in Hrun;
      try discriminate; [| now apply IH in Hrun].
    destruct (merge_coordinate _ _ _ _ _ _ _ _) as [[coords_toadd [found |]] | | |];
      cbn [bind] in Hrun; try discriminate; [| now apply IH in Hrun].
    set (toadd := filtered_coords coords_toadd (PBC self)) in *.
    destruct (check_distance _ _ _ _ _ _ _) as [far | | |];
      cbn [bind] in Hrun; try discriminate.
    destruct far.
    + (* the orbit is added *)
      destruct (added + Z.of_nat (length toadd) =? numIon)%Z eqn:Hdone.
      * injection Hrun as <- <- <- <-. apply Z.eqb_eq in Hdone.
        exists (length toadd). cbn [fst snd]. rewrite length_app.
        do 3 (split; [reflexivity |]).
        split; [intros t [= <-]; auto | discriminate].
      * apply IH in Hrun. cbn [fst snd] in Hrun.
        destruct Hrun as (m & Hsites & Hlen & Hadded & Hcopied & Hnone).
        exists (length toadd + m)%nat.
        rewrite repeat_app, app_assoc, length_app in *.
        split; [exact Hsites |]. split; [lia |]. split; [lia |].
        split; [exact Hcopied |].
        intros Hc Hn. specialize (Hnone Hc Hn).
        (* reaching the count without a copy is impossible after an addition *)
        exfalso. apply Z.eqb_neq in Hdone.
        assert (Hm : m = 0%nat).
        { rewrite Hnone in Hlen. cbn [fst] in Hlen. rewrite length_app in Hlen. lia. }
        subst m. lia.
    + (* the orbit is too close *)
      destruct (added =? numIon)%Z eqn:Hdone.
      * injection Hrun as <- <- <- <-. apply Z.eqb_eq in Hdone.
        exists 0%nat. simpl. rewrite app_nil_r, Z.add_0_r, Nat.add_0_r.
        do 3 (split; [reflexivity |]).
        split; [intros t [= <-]; auto | discriminate].
      * now apply IH in Hrun.
Qed.

Lemma species_loop_sites :
  forall cell max3 todo attempts tmp total placed attempts' tmp' total',
    per_species cell max3 todo attempts tmp total placed
    = Ok (attempts', tmp', total', Some true) ->
    tmp = total ->
    total' = tmp'
    /\ snd tmp' = snd tmp ++ expected_sites todo
    /\ length (fst tmp') = (length (fst tmp) + length (expected_sites todo))%nat
    /\ Forall (fun '(numIon, _) => (0 <= numIon)%Z) todo.
Proof.
  intros cell max3 todo; induction todo as [| [numIon specie] todo IH];
    intros until total'; cbn [species_loop]; intros Hrun Hsame.
  - injection Hrun as <- <- <- _. simpl. rewrite app_nil_r, Nat.add_0_r. auto.
  - destruct (cycle3 _ _ _ _ _ _ _ _) as [[[[attempts1 tmp1] added1] copied] | | |] eqn:Hc3;
      cbn [bind] in Hrun; try discriminate.
    apply cycle3_loop_sites in Hc3.
    destruct Hc3 as (m & Hsites & Hlen & Hadded & Hcopied & Hnone).
    destruct (added1 =? numIon)%Z eqn:Hdone; cbn [negb] in Hrun; [| discriminate].
    apply Z.eqb_eq in Hdone.
    apply IH in Hrun.
    + destruct Hrun as (Htotal & Hsites' & Hlen' & Hpos).
      assert (Hm : m = Z.to_nat numIon) by lia.
      split; [exact Htotal |].
      cbn [expected_sites flat_map]. fold (expected_sites todo).
      rewrite Hsites', Hsites, Hlen', Hlen, length_app, repeat_length, Hm, <- app_assoc.
      split; [reflexivity |]. split; [lia |].
      constructor; [lia | exact Hpos].
    + destruct copied as [t |].
      * now destruct (Hcopied t eq_refl).
      * rewrite (Hnone eq_refl Hdone). exact Hsame.
Qed.

Lemma cycle2_loop_sites :
  forall cell max3 k attempts rounds attempts' rounds' total,
    cycle2 cell max3 k attempts rounds ([], []) = Ok (attempts', rounds', Some total) ->
    let todo := combine (numIons self) (species self) in
    snd total = expected_sites todo
    /\ length (fst total) = length (snd total)
    /\ Forall (fun '(numIon, _) => (0 <= numIon)%Z) todo.
Proof.
  intros cell max3 k; induction k as [| k IH]; intros until total;
    cbn [cycle2_loop]; intros Hrun; cbv zeta.
  - discriminate.
  - destruct (per_species _ _ _ _ _ _ _) as [[[[attempts1 tmp1] total1] placed] | | |] eqn:Hsp;
      cbn [bind] in Hrun; try discriminate.
    destruct placed as [[|] |]; try discriminate.
    + injection Hrun as <- <- <-.
      apply species_loop_sites in Hsp; [| reflexivity].
      destruct Hsp as (-> & Hsites & Hlen & Hpos). simpl in Hsites, Hlen.
      rewrite Hsites, Hlen. auto.
    + now apply IH in Hrun.
Qed.

Lemma cycle1_loop_sites :
  forall minvector max2 max3 k attempts lattices rounds g,
    cycle1 minvector max2 max3 k attempts lattices rounds = Ok g ->
    valid g = true ->
    let todo := combine (numIons self) (species self) in
    sites g = expected_sites todo
    /\ Forall (fun '(numIon, _) => (0 <= numIon)%Z) todo
    /\ exists last_round cell_para cell_matrix attempts0 rounds0 coordinates_total,
        lattice_attempts g = S last_round
        /\ generate_lattice_for self last_round minvector = Ok (Some cell_para)
        /\ para2matrix_of cell_para = Ok cell_matrix
        /\ volume_differs (volume self) cell_matrix = false
        /\ cycle2 cell_matrix max3 max2 attempts0 rounds0 ([], [])
           = Ok (numattempts g, structure_attempts g,
                 Some (coordinates_total, sites g))
        /\ length coordinates_total = length (sites g)
        /\ lattice g
           = Some (fst (Add_vacuum cell_matrix coordinates_total (PBC self)))
        /\ coordinates g
           = snd (Add_vacuum cell_matrix coordinates_total (PBC self)).
Proof.
  intros minvector max2 max3 k; induction k as [| k IH]; intros until g;
    cbn [cycle1_loop]; intros Hrun Hvalid; cbv zeta.
  - injection Hrun as <-. discriminate.
  - destruct (generate_lattice_for _ _ _) as [[cell_para |] | | |] eqn:Hgen;
      cbn [bind] in Hrun; try discriminate;
      [| injection Hrun as <-; discriminate].
    destruct (para2matrix_of cell_para) as [cell_matrix | | |] eqn:Hmat;
      cbn [bind] in Hrun; try discriminate.
    destruct (volume_differs _ _) eqn:Hvol; [discriminate |].
    destruct (cycle2 _ _ _ _ _ _) as [[[attempts1 rounds1] [[coords sts] |]] | | |] eqn:Hc2;
      cbn [bind] in Hrun; try discriminate; [| now apply IH in Hrun].
    pose proof Hc2 as Hc2'. apply cycle2_loop_sites in Hc2'.
    destruct Hc2' as (Hsites & Hlen & Hpos).
    cbn [fst snd] in *.
    destruct (Add_vacuum cell_matrix coords (PBC self)) as [final_lattice final_coor] eqn:Hvac.
    injection Hrun as <-.
    cbn [sites lattice coordinates numattempts lattice_attempts structure_attempts].
    split; [exact Hsites |]. split; [exact Hpos |].
    exists lattices, cell_para, cell_matrix, attempts, rounds, coords.
    rewrite Hvac. cbn [fst snd]. auto 10.
Qed.
End DriverSites.

(** X1.  A crystal that [generate_crystal] declares valid lists its
    sites species by species, in the order given, with exactly
    [numIons[i]] atoms of [species[i]], and no count is negative.  Its
    lattice and coordinates are what [Add_vacuum] returns for the
    lattice matrix of the last lattice attempt and the coordinates that
    the structure loop returned for that matrix, together with the
    sites: the attempt is number [lattice_attempts], its parameters are
    those that the lattice generator returned for the minimum vector
    length of the driver, its matrix is [para2matrix] of them and has
    passed the volume check, and the coordinates are as many as the
    sites. *)
Theorem generate_crystal_sites :
  forall (Point Lattice CellPara : Type) (ES : ElementService)
         (G : Geometry Point Lattice SymmOp)
         generate_lattice_for para2matrix_of volume_differs rand_u
         rand_choice random_point operate get_center Add_vacuum
         (self : random_crystal Point Lattice CellPara)
         (max1_arg max2_arg max3_arg : option nat) g,
    generate_crystal generate_lattice_for para2matrix_of volume_differs
      rand_u rand_choice random_point operate get_center Add_vacuum self
      max1_arg max2_arg max3_arg = Ok g ->
    valid g = true ->
    let todo := combine (numIons self) (species self) in
    sites g = expected_sites todo
    /\ Forall (fun '(numIon, _) => (0 <= numIon)%Z) todo
    /\ exists degrees widest last_round cell_para cell_matrix attempts0 rounds0
              coordinates_total,
        check_compatible (wyckoffs_organized self) (numIons self) = Ok degrees
        /\ max_diameter self = Ok widest
        /\ lattice_attempts g = S last_round
        /\ generate_lattice_for self last_round (Qmax widest 1) = Ok (Some cell_para)
        /\ para2matrix_of cell_para = Ok cell_matrix
        /\ volume_differs (volume self) cell_matrix = false
        /\ cycle2_loop rand_u rand_choice random_point operate get_center self
             cell_matrix
             (snd (budgets degrees max1_arg max2_arg max3_arg))
             (snd (fst (budgets degrees max1_arg max2_arg max3_arg)))
             attempts0 rounds0 ([], [])
           = Ok (numattempts g, structure_attempts g,
                 Some (coordinates_total, sites g))
        /\ length coordinates_total = length (sites g)
        /\ lattice g
           = Some (fst (Add_vacuum cell_matrix coordinates_total (PBC self)))
        /\ coordinates g
           = snd (Add_vacuum cell_matrix coordinates_total (PBC self)).
Proof.
  intros until g. intros Hrun Hvalid.
  unfold generate_crystal in Hrun.
  destruct (check_compatible _ _) as [degrees | | |] eqn:Hdeg; cbn [bind] in Hrun;
    try discriminate.
  assert (Hcycle : exists widest,
             max_diameter self = Ok widest
             /\ cycle1_loop generate_lattice_for para2matrix_of volume_differs
                  rand_u rand_choice random_point operate get_center Add_vacuum
                  self (Qmax widest 1)
                  (snd (fst (budgets degrees max1_arg max2_arg max3_arg)))
                  (snd (budgets degrees max1_arg max2_arg max3_arg))
                  (fst (fst (budgets degrees max1_arg max2_arg max3_arg)))
                  0 0 0 = Ok g).
  { destruct (budgets degrees max1_arg max2_arg max3_arg) as [[m1 m2] m3].
    destruct degrees as [[] | n | s];
      try (injection Hrun as <-; discriminate);
      destruct (max_diameter self) as [widest | | |]; cbn [bind] in Hrun;
      try discriminate; exists widest; split;
      solve [reflexivity | exact Hrun]. }
  destruct Hcycle as (widest & Hwidest & Hc).
  destruct (cycle1_loop_sites _ _ _ _ _ _ _ _ _ _ _ _ _ _ _ _ _ _ Hc Hvalid)
    as (Hsites & Hpos & last_round & cell_para & cell_matrix & attempts0
        & rounds0 & coordinates_total & Hrest).
  split; [exact Hsites |]. split; [exact Hpos |].
  exists degrees, widest, last_round, cell_para, cell_matrix, attempts0,
    rounds0, coordinates_total.
  split; [reflexivity |]. split; [exact Hwidest |]. exact Hrest.
Qed.

(** On [axis_carbon] the lattice and the coordinates of the crystal are
    those of the first lattice attempt. *)
Lemma generate_crystal_sites_witness :
  exists g,
    axis_carbon_run = Ok g
    /\ sites g = ["C"; "C"; "C"]%string
    /\ lattice g = Some 10 /\ coordinates g = [22 # 80; 0; 0]
    /\ sites g = expected_sites (combine (numIons axis_carbon) (species axis_carbon)).
Proof.
  assert (Hrun : axis_carbon_run
                 = Ok {| valid := true; lattice := Some 10;
                         coordinates := [22 # 80; 0; 0];
                         sites := ["C"; "C"; "C"]%string; numattempts := 2;
                         lattice_attempts := 1; structure_attempts := 1 |})
    by (vm_compute; reflexivity).
  eexists. split; [exact Hrun |]. do 3 (split; [reflexivity |]).
  exact (proj1 (generate_crystal_sites _ _ _ _ _ _ _ _ _ _ _ _ _ _ _
                  None None None _ Hrun eq_refl)).
Defined.

(** ** [connected_components] returns the connected components *)

Lemma connected_trans :
  forall graph u v w,
    connected graph u v -> connected graph v w -> connected graph u w.
Proof.
  intros graph u v w Huv. induction Huv as [u | u x v Hux Hxv IH]; intros Hvw.
  - exact Hvw.
  - eapply connected_step; [exact Hux | now apply IH].
Qed.

Lemma connected_sym :
  forall graph, symmetric_graph graph ->
  forall u v, connected graph u v -> connected graph v u.
Proof.
  intros graph Hsym u v Huv. induction Huv as [u | u x v Hux Hxv IH].
  - constructor.
  - eapply connected_trans; [exact IH |].
    eapply connected_step; [apply Hsym; exact Hux | constructor].
Qed.

Lemma closed_connected :
  forall graph group,
    closed_on graph group group ->
    forall u v, In u group -> connected graph u v -> In v group.
Proof.
  intros graph group Hclosed u v Hu Huv. induction Huv as [u | u x v Hux Hxv IH].
  - exact Hu.
  - apply IH. eapply Hclosed; eassumption.
Qed.

(** What [add_neighbors] appends can be reached from [el]. *)
Lemma add_neighbors_sound :
  forall fuel graph el seen seen',
    add_neighbors fuel graph el seen = Ok seen' ->
    exists ext,
      seen' = seen_or_start el seen ++ ext
      /\ forall v, In v ext -> connected graph el v.
Proof.
  induction fuel as [| fuel IH]; intros graph el seen seen' Hrun; simpl in Hrun.
  - discriminate.
  - fold (seen_or_start el seen) in Hrun.
    destruct (getitem graph el) as [nbrs | | |] eqn:Hget;
      cbn [bind] in Hrun; try discriminate.
    assert (Hloop : forall xs cur out,
               (forall w, In w xs -> adjacent graph el w) ->
               foldM (fun seen x =>
                        if mem x seen then Ok seen
                        else add_neighbors fuel graph x (seen ++ [x]))
                     xs cur = Ok out ->
               exists ext,
                 out = cur ++ ext /\ forall v, In v ext -> connected graph el v).
    { induction xs as [| x xs IHxs]; intros cur out Hadj Hfold; simpl in Hfold.
      - injection Hfold as <-. exists []. rewrite app_nil_r.
        split; [reflexivity | intros v []].
      - assert (Hxs : forall w, In w xs -> adjacent graph el w)
          by (intros w Hw; apply Hadj; now right).
        destruct (mem x cur) eqn:Hmem; cbn [bind] in Hfold.
        + now apply IHxs in Hfold.
        + destruct (add_neighbors fuel graph x (cur ++ [x])) as [s1 | | |] eqn:Hrec;
            cbn [bind] in Hfold; try discriminate.
          apply IH in Hrec. destruct Hrec as (e1 & -> & Hreach1).
          rewrite seen_or_start_app in *.
          apply IHxs in Hfold; [| exact Hxs].
          destruct Hfold as (e2 & -> & Hreach2).
          exists ([x] ++ e1 ++ e2).
          split; [now rewrite <- !app_assoc |].
          assert (Hx : adjacent graph el x) by (apply Hadj; now left).
          intros v Hv. rewrite !in_app_iff in Hv.
          destruct Hv as [[<- | []] | [Hv | Hv]].
          * eapply connected_step; [exact Hx | constructor].
          * eapply connected_step; [exact Hx | now apply Hreach1].
          * now apply Hreach2. }
    apply Hloop in Hrun; [exact Hrun |].
    intros w Hw. now apply (adjacent_getitem graph el nbrs w Hget).
Qed.

Lemma remove_first_NoDup :
  forall y l, NoDup l -> NoDup (remove_first y l) /\ ~ In y (remove_first y l).
Proof.
  intros y l Hnd. induction Hnd as [| x l Hx Hnd IH]; simpl.
  - split; [constructor | auto].
  - destruct (Nat.eqb y x) eqn:Heq.
    + apply Nat.eqb_eq in Heq. subst x. auto.
    + apply Nat.eqb_neq in Heq. destruct IH as [IHnd IHy]. split.
      * constructor; [| exact IHnd]. intros Hin. apply Hx.
        eapply remove_first_incl. eassumption.
      * intros [-> | Hin]; [now apply Heq | now apply IHy].
Qed.

Lemma remove_seen_NoDup :
  forall component unseen,
    NoDup unseen ->
    NoDup (remove_seen component unseen)
    /\ forall y, In y component -> ~ In y (remove_seen component unseen).
Proof.
  induction component as [| x component IH]; intros unseen Hnd.
  - split; [exact Hnd | intros y []].
  - change (remove_seen (x :: component) unseen)
      with (remove_seen component (if mem x unseen then remove_first x unseen else unseen)).
    destruct (mem x unseen) eqn:Hmem.
    + destruct (remove_first_NoDup x unseen Hnd) as [Hnd' Hx].
      destruct (IH _ Hnd') as [Hnd'' Hgone]. split; [exact Hnd'' |].
      intros y [<- | Hy]; [| now apply Hgone].
      intros Hin. apply Hx. eapply remove_seen_incl. eassumption.
    + destruct (IH _ Hnd) as [Hnd' Hgone]. split; [exact Hnd' |].
      intros y [<- | Hy]; [| now apply Hgone].
      intros Hin. apply mem_not_In in Hmem. apply Hmem.
      eapply remove_seen_incl. eassumption.
Qed.

Lemma removelast_NoDup :
  forall (u0 : nat) us,
    NoDup (u0 :: us) ->
    NoDup (removelast (u0 :: us)) /\ ~ In (last us u0) (removelast (u0 :: us)).
Proof.
  intros u0 us Hnd. rewrite (split_last u0 us) in Hnd.
  apply NoDup_remove in Hnd. rewrite app_nil_r in Hnd. exact Hnd.
Qed.

Lemma NoDup_app_disjoint :
  forall (l l' : list nat) a, NoDup (l ++ l') -> In a l -> In a l' -> False.
Proof.
  intros l l' a Hnd Hl Hl'. induction l as [| x l IH]; [contradiction |].
  simpl in Hnd. inversion Hnd as [| ? ? Hx Hnd']; subst.
  destruct Hl as [-> | Hl].
  - apply Hx. apply in_or_app. now right.
  - now apply IH.
Qed.

Lemma components_loop_invariant :
  forall graph,
    well_formed graph -> symmetric_graph graph ->
    forall fuel unseen sets out,
      components_invariant graph unseen sets ->
      components_loop fuel graph unseen sets = Ok out ->
      components_invariant graph [] out.
Proof.
  intros graph Hwf Hsym.
  induction fuel as [| fuel IH]; intros unseen sets out Hinv Hrun;
    destruct unseen as [| u0 us];
    rewrite ?components_loop_nil, ?components_loop_step in Hrun;
    try discriminate.
  - injection Hrun as <-. exact Hinv.
  - injection Hrun as <-. exact Hinv.
  - destruct Hinv as (Hnd & Hmem & Hclosed & Hroots).
    set (x := last us u0) in *. set (rest := removelast (u0 :: us)) in *.
    assert (Hxin : In x (u0 :: us)).
    { rewrite (split_last u0 us). apply in_or_app. right. simpl. auto. }
    assert (Hx : (x < length graph)%nat).
    { apply Hmem. apply in_or_app. now right. }
    destruct (add_neighbors_returns graph Hwf (S (length graph)) x [])
      as (component & Hcomp & Hndc & Hbounded & _).
    { simpl. repeat constructor. intros []. }
    { simpl. intros v [<- | []]. exact Hx. }
    { exact Hx. }
    { simpl. lia. }
    rewrite Hcomp in Hrun. cbn [bind] in Hrun.
    destruct (add_neighbors_component _ _ _ _ Hcomp) as (Hxc & Hcc).
    destruct (add_neighbors_sound _ _ _ _ _ Hcomp) as (ext & Hext & Hreach).
    simpl in Hext.
    assert (Hroot : forall v, In v component -> connected graph x v).
    { intros v Hv. rewrite Hext in Hv. destruct Hv as [<- | Hv];
        [constructor | now apply Hreach]. }
    assert (Hnd_unseen : NoDup (u0 :: us)) by (eapply NoDup_app_remove_l; exact Hnd).
    assert (Hnd_sets : NoDup (concat sets)) by (eapply NoDup_app_remove_r; exact Hnd).
    destruct (removelast_NoDup u0 us Hnd_unseen) as (Hnd_rest & _). fold rest in Hnd_rest.
    destruct (remove_seen_NoDup component rest Hnd_rest) as (Hnd_left & Hgone).
    assert (Hleft_unseen : forall v, In v (remove_seen component rest) -> In v (u0 :: us)).
    { intros v Hv. apply remove_seen_incl in Hv. now apply removelast_incl in Hv. }
    assert (Hfresh : forall v, In v (concat sets) -> ~ In v component).
    { intros v Hv Hvc. apply in_concat in Hv. destruct Hv as (s & Hs & Hvs).
      assert (Hxs : In x s).
      { apply (closed_connected graph s (Hclosed s Hs) v x Hvs).
        apply connected_sym; [exact Hsym | now apply Hroot]. }
      apply (NoDup_app_disjoint _ _ x Hnd); [| exact Hxin].
      apply in_concat. exists s. auto. }
    apply (IH _ _ _) in Hrun; [exact Hrun |].
    unfold components_invariant. rewrite concat_app. simpl concat. rewrite app_nil_r.
    split; [| split; [| split]].
    + rewrite <- app_assoc. apply NoDup_app; [exact Hnd_sets | |].
      * apply NoDup_app; [exact Hndc | exact Hnd_left |].
        intros v Hv. now apply Hgone.
      * intros v Hv Hin. apply in_app_or in Hin. destruct Hin as [Hin | Hin].
        -- now apply (Hfresh v).
        -- apply (NoDup_app_disjoint _ _ v Hnd Hv). now apply Hleft_unseen.
    + intros v. rewrite !in_app_iff. split.
      * intros [[Hv | Hv] | Hv].
        -- apply Hmem. apply in_or_app. now left.
        -- now apply Hbounded.
        -- apply Hmem. apply in_or_app. right. now apply Hleft_unseen.
      * intros Hv. apply Hmem in Hv. apply in_app_or in Hv.
        destruct Hv as [Hv | Hv]; [auto |].
        destruct (in_dec Nat.eq_dec v component) as [Hvc | Hvc]; [auto |].
        right. apply remove_seen_keeps; [exact Hvc |].
        destruct (popped u0 us v Hv) as [-> | Hr]; [contradiction | exact Hr].
    + intros s Hs. apply in_app_or in Hs.
      destruct Hs as [Hs | [<- | []]]; [now apply Hclosed | exact Hcc].
    + intros s Hs. apply in_app_or in Hs.
      destruct Hs as [Hs | [<- | []]]; [now apply Hroots |].
      exists x. auto.
Qed.

(** X2.  For a connectivity map that is symmetric and holds valid
    indices only, [connected_components] returns, and what it returns is
    a partition of the vertices: its components, put end to end, list
    every vertex once. *)
Theorem connected_components_partition :
  forall graph,
    well_formed graph -> symmetric_graph graph ->
    exists groups,
      connected_components graph = Ok groups
      /\ Permutation (concat groups) (seq 0 (length graph)).
Proof.
  intros graph Hwf Hsym.
  destruct (connected_components_returns graph Hwf) as (groups & Hrun).
  exists groups. split; [exact Hrun |].
  unfold connected_components in Hrun.
  apply (components_loop_invariant graph Hwf Hsym) in Hrun.
  - destruct Hrun as (Hnd & Hmem & _ & _). rewrite app_nil_r in *.
    apply NoDup_Permutation; [exact Hnd | apply seq_NoDup |].
    intros v. rewrite Hmem, in_seq. lia.
  - split; [| split; [| split]]; simpl.
    + apply seq_NoDup.
    + intros v. rewrite in_seq. lia.
    + intros s [].
    + intros s [].
Qed.

(** X3.  Under the same conditions, two vertices are in the same
    component exactly when a path of the connectivity map joins them. *)
Theorem connected_components_connected :
  forall graph groups,
    well_formed graph -> symmetric_graph graph ->
    connected_components graph = Ok groups ->
    forall group u v,
      In group groups -> In u group ->
      (In v group <-> connected graph u v).
Proof.
  intros graph groups Hwf Hsym Hrun group u v Hgroup Hu.
  unfold connected_components in Hrun.
  apply (components_loop_invariant graph Hwf Hsym) in Hrun.
  - destruct Hrun as (_ & _ & Hclosed & Hroots).
    destruct (Hroots group Hgroup) as (x & Hx & Hreach). split.
    + intros Hv. eapply connected_trans; [| now apply Hreach].
      apply connected_sym; [exact Hsym | now apply Hreach].
    + intros Huv. eapply closed_connected; [now apply Hclosed | exact Hu | exact Huv].
  - split; [| split; [| split]]; simpl.
    + apply seq_NoDup.
    + intros v'. rewrite in_seq. lia.
    + intros s [].
    + intros s [].
Qed.

Lemma well_formedb_sound :
  forall graph, well_formedb graph = true -> well_formed graph.
Proof.
  intros graph Hb i j (l & Hl & Hj). unfold well_formedb in Hb.
  rewrite forallb_forall in Hb. specialize (Hb l (nth_error_In _ _ Hl)).
  rewrite forallb_forall in Hb. now apply Nat.ltb_lt, Hb.
Qed.

Lemma symmetricb_sound :
  forall graph, symmetricb graph = true -> symmetric_graph graph.
Proof.
  intros graph Hb i j (l & Hl & Hj). unfold symmetricb in Hb.
  rewrite forallb_forall in Hb.
  specialize (Hb (i, l) (proj2 (In_enumerate _ graph i l) Hl)). cbn beta iota in Hb.
  rewrite forallb_forall in Hb. specialize (Hb j Hj).
  destruct (nth_error graph j) as [l' |] eqn:Hl'; [| discriminate].
  exists l'. split; [exact Hl' | now apply mem_In].
Qed.

Lemma connected_components_partition_witness :
  exists groups,
    connected_components one_edge = Ok groups
    /\ Permutation (concat groups) (seq 0 (length one_edge)).
Proof.
  apply connected_components_partition.
  - apply well_formedb_sound. vm_compute. reflexivity.
  - apply symmetricb_sound. vm_compute. reflexivity.
Defined.

Lemma connected_components_connected_witness :
  In 0%nat [1; 0]%nat <-> connected one_edge 1 0.
Proof.
  apply (connected_components_connected one_edge [[2]; [1; 0]]%nat).
  - apply well_formedb_sound. vm_compute. reflexivity.
  - apply symmetricb_sound. vm_compute. reflexivity.
  - vm_compute. reflexivity.
  - simpl. auto.
  - simpl. auto.
Defined.

(** ** What [find_short_dist] returns *)

Lemma graph_fold_edges :
  forall (pairs : list (nat * nat * Q)) graph graph',
    foldM (fun g '(pair0, pair1, _) =>
             g' <- append_at g pair0 pair1 ;; append_at g' pair1 pair0)
          pairs graph = Ok graph' ->
    forall u v,
      adjacent graph' u v
      <-> adjacent graph u v \/ exists x, In (u, v, x) pairs \/ In (v, u, x) pairs.
Proof.
  induction pairs as [| [[i j] x] pairs IH]; intros graph graph' Hrun u v;
    simpl in Hrun.
  - injection Hrun as <-. split; [auto |]. intros [H | (y & [[] | []])]. exact H.
  - destruct (append_at graph i j) as [g1 | | |] eqn:Hg1; cbn [bind] in Hrun;
      try discriminate.
    destruct (append_at g1 j i) as [g2 | | |] eqn:Hg2; cbn [bind] in Hrun;
      try discriminate.
    apply append_at_spec in Hg1. destruct Hg1 as (_ & _ & Hadj1).
    apply append_at_spec in Hg2. destruct Hg2 as (_ & _ & Hadj2).
    rewrite (IH _ _ Hrun), Hadj2, Hadj1. split.
    + intros [[[H | [-> ->]] | [-> ->]] | (y & [H | H])].
      * auto.
      * right. exists x. left. now left.
      * right. exists x. right. now left.
      * right. exists y. left. now right.
      * right. exists y. right. now right.
    + intros [H | (y & [[Heq | H] | [Heq | H]])].
      * auto.
      * injection Heq as -> -> _. auto.
      * right. exists y. auto.
      * injection Heq as -> -> _. auto.
      * right. exists y. auto.
Qed.

Lemma min_list_le :
  forall xs x y, In y (x :: xs) -> min_list x xs <= y.
Proof.
  unfold min_list. induction xs as [| z xs IH]; intros x y Hin; simpl.
  - destruct Hin as [<- | []]. apply Qle_refl.
  - destruct Hin as [<- | [<- | Hin]].
    + eapply Qle_trans; [apply IH; now left |]. apply Q.le_min_l.
    + eapply Qle_trans; [apply IH; now left |]. apply Q.le_min_r.
    + apply IH. now right.
Qed.

(** X4.  The two values that [find_short_dist] returns agree: the
    connectivity map has one list per point and its edges are the
    returned pairs, read in both directions; every pair [(i, j)] has
    [i < j] below the number of points; and no returned pair is more
    than 10^-3 longer than another. *)
Theorem find_short_dist_consistent :
  forall (Point Lattice Op : Type) (G : Geometry Point Lattice Op)
         (coor : list Point) (lattice : Lattice) (tol : Q) (PBC : list nat)
         pairs graph,
    find_short_dist coor lattice tol PBC = Ok (pairs, graph) ->
    length graph = length coor
    /\ (forall i j x, In (i, j, x) pairs -> (i < j < length coor)%nat)
    /\ (forall u v,
           adjacent graph u v
           <-> exists x, In (u, v, x) pairs \/ In (v, u, x) pairs)
    /\ (forall p q, In p pairs -> In q pairs ->
                    pair_dist p <= pair_dist q + (1 # 1000)).
Proof.
  intros Point Lattice Op G coor lattice tol PBC pairs graph Hrun.
  unfold find_short_dist in Hrun.
  destruct (distance_matrix coor coor lattice PBC) as [d | | |];
    cbn [bind] in Hrun; try discriminate.
  pose proof (short_dist_of_matrix_graph _ _ _ _ _ Hrun) as (Hlen & _ & Hwf & _).
  unfold short_dist_of_matrix in Hrun.
  destruct (foldM _ (unique _) []) as [raw | | |] eqn:Hraw;
    cbn [bind] in Hrun; try discriminate.
  destruct raw as [| p0 ps].
  - injection Hrun as <- <-.
    split; [exact Hlen |]. split; [intros i j x [] |]. split; [| intros p q []].
    intros u v. split.
    + intros Huv. now apply adjacent_repeat_nil in Huv.
    + intros (x & [[] | []]).
  - set (d_min := min_list (pair_dist p0) (map pair_dist ps) + (1 # 1000)) in *.
    set (kept := filter _ (p0 :: ps)) in *.
    destruct (foldM _ kept _) as [g | | |] eqn:Hg;
      cbn [bind] in Hrun; try discriminate.
    injection Hrun as <- <-.
    pose proof (graph_fold_edges _ _ _ Hg) as Hedges.
    assert (Hadj : forall u v,
               adjacent g u v <-> exists x, In (u, v, x) kept \/ In (v, u, x) kept).
    { intros u v. rewrite Hedges. split; [| auto].
      intros [H | H]; [now apply adjacent_repeat_nil in H | exact H]. }
    split; [exact Hlen |]. split; [| split; [exact Hadj |]].
    + intros i j x Hin.
      assert (Hij : (i < j)%nat).
      { eapply pairs_fold_ordered; [exact Hraw | intros ? ? ? [] |].
        subst kept. apply filter_In in Hin. apply Hin. }
      split; [exact Hij |]. rewrite <- Hlen. apply (Hwf i j).
      apply Hadj. exists x. now left.
    + intros p q Hp Hq. subst kept.
      apply filter_In in Hp, Hq. destruct Hp as [_ Hp], Hq as [Hq _].
      apply Qle_bool_iff in Hp. eapply Qle_trans; [exact Hp |].
      subst d_min. apply Qplus_le_l.
      apply min_list_le. change (pair_dist p0 :: map pair_dist ps)
        with (map pair_dist (p0 :: ps)). now apply in_map.
Qed.

Lemma find_short_dist_consistent_witness :
  length [[]; [2]; [1]]%nat = length three_on_axis.
Proof.
  assert (Hrun : @find_short_dist _ _ _ cubic_axis three_on_axis 10 (3 # 10) [1; 2; 3]%nat
                 = Ok ([(1, 2, 980 # 200)]%nat, [[]; [2]; [1]]%nat))
    by (vm_compute; reflexivity).
  exact (proj1 (find_short_dist_consistent _ _ _ _ _ _ _ _ _ _ Hrun)).
Defined.

Lemma enumerate_fst :
  forall (A : Type) (l : list A), map fst (enumerate l) = seq 0 (length l).
Proof.
  intros A l. unfold enumerate. generalize 0%nat.
  induction l as [| a l IH]; intros start; simpl; [reflexivity |].
  now rewrite IH.
Qed.

Lemma filter_all :
  forall (A : Type) (f : A -> bool) l,
    (forall a, In a l -> f a = true) -> filter f l = l.
Proof.
  intros A f l. induction l as [| a l IH]; intros Hall; simpl; [reflexivity |].
  rewrite (Hall a) by now left. rewrite IH; [reflexivity |].
  intros b Hb. apply Hall. now right.
Qed.

(** With every entry of the first row a hit, the columns of
    [np.where] start with that row's columns. *)
Lemma where_le_first_row :
  forall row d tol,
    (forall x, In x row -> Qle_bool x tol = true) ->
    exists rest, snd (where_le (row :: d) tol) = seq 0 (length row) ++ rest.
Proof.
  intros row d tol Hrow. unfold where_le, enumerate. cbn [fst snd length seq combine flat_map].
  rewrite map_app. eexists. f_equal.
  fold (enumerate row).
  rewrite filter_all.
  - rewrite map_map, <- (enumerate_fst Q row). apply map_ext. now intros [j x].
  - intros [j x] Hin. apply In_enumerate in Hin. apply Hrow.
    eapply nth_error_In. eassumption.
Qed.

Lemma pairs_fold_diagonal :
  forall (d : list (list Q)) cols rows,
    (forall i, In i rows -> nth_error cols i = Some i) ->
    foldM (fun pairs i =>
             j <- getitem cols i ;;
             if (j <=? i)%nat then Ok pairs
             else
               row <- getitem d i ;;
               dij <- getitem row j ;;
               Ok (pairs ++ [(i, j, dij)]))
          rows [] = Ok [].
Proof.
  intros d cols rows. induction rows as [| i rows IH]; intros Hcols; cbn [foldM].
  - reflexivity.
  - unfold getitem at 1. rewrite (Hcols i) by now left. cbn [bind].
    rewrite Nat.leb_refl. apply IH. intros i' Hi'. apply Hcols. now right.
Qed.

(** X5.  When the distance matrix is square and every entry of it,
    the diagonal included, is within the tolerance, [find_short_dist]
    returns no pair and a connectivity map without edges: row [i] is
    paired with the column of the [i]-th hit, which is [i] itself. *)
Theorem find_short_dist_all_close :
  forall (Point Lattice Op : Type) (G : Geometry Point Lattice Op)
         (coor : list Point) (lattice : Lattice) (tol : Q) (PBC : list nat) d,
    distance_matrix coor coor lattice PBC = Ok d ->
    length d = length coor ->
    (forall row, In row d ->
                 length row = length coor
                 /\ forall x, In x row -> Qle_bool x tol = true) ->
    find_short_dist coor lattice tol PBC = Ok ([], repeat [] (length coor)).
Proof.
  intros Point Lattice Op G coor lattice tol PBC d Hd Hlen Hrows.
  unfold find_short_dist. rewrite Hd. cbn [bind]. unfold short_dist_of_matrix.
  rewrite pairs_fold_diagonal; [reflexivity |].
  intros i Hi. apply unique_incl in Hi.
  destruct (In_combine_fst _ _ _ (snd (where_le d tol)) i (where_le_lengths d tol) Hi)
    as (j & Hij).
  apply In_where_le in Hij. destruct Hij as (row & x & Hrow & _ & _).
  assert (Hi_lt : (i < length coor)%nat).
  { rewrite <- Hlen. apply nth_error_Some. congruence. }
  destruct d as [| row0 d']; [simpl in Hlen; lia |].
  destruct (Hrows row0 (or_introl eq_refl)) as (Hlen0 & Hall0).
  destruct (where_le_first_row row0 d' tol Hall0) as (rest & ->).
  rewrite nth_error_app1 by (rewrite length_seq; lia).
  rewrite nth_error_seq. rewrite Hlen0.
  destruct (i <? length coor)%nat eqn:Hlt; [reflexivity |].
  apply Nat.ltb_ge in Hlt. lia.
Qed.

Lemma find_short_dist_all_close_witness :
  @find_short_dist _ _ _ cubic_axis three_coincident 10 (3 # 10) [1; 2; 3]%nat
  = Ok ([], repeat [] (length three_coincident)).
Proof.
  eapply find_short_dist_all_close.
  - reflexivity.
  - reflexivity.
  - intros row Hrow. vm_compute in Hrow.
    destruct Hrow as [<- | [<- | [<- | []]]];
      (split; [reflexivity |]);
      intros x Hx; vm_compute in Hx;
      destruct Hx as [<- | [<- | [<- | []]]]; reflexivity.
Defined.

(** ** What [merge_coordinate] returns *)

Section MergeReturned.
Context {Point Lattice Op : Type} {G : Geometry Point Lattice Op}.
Variable get_center : list Point -> Lattice -> list nat -> Point.
Variable lattice : Lattice.
Variable wyckoffs : list (list Op).
Variable w_symm_all : list (list (list Op)).
Variable tol : Q.
Variable PBC : list nat.

Lemma merge_round_cases :
  forall coor r,
    merge_round get_center coor lattice wyckoffs w_symm_all tol PBC = Ok r ->
    match r with
    | Return coor' index =>
      coor' = coor
      /\ (index = None
          \/ index = check_wyckoff_position coor wyckoffs w_symm_all PBC)
    | Continue merged =>
      check_wyckoff_position merged wyckoffs w_symm_all PBC <> None
    end.
Proof.
  intros coor r Hrun. unfold merge_round in Hrun.
  destruct (find_short_dist coor lattice tol PBC) as [[pairs graph] | | |];
    cbn [bind] in Hrun; try discriminate.
  destruct (0 <? length pairs)%nat.
  - destruct (getlast wyckoffs) as [smallest | | |]; cbn [bind] in Hrun;
      try discriminate.
    destruct (length smallest <? length coor)%nat.
    + destruct (connected_components graph) as [groups | | |]; cbn [bind] in Hrun;
        try discriminate.
      destruct (foldM _ groups []) as [merged | | |]; cbn [bind] in Hrun;
        try discriminate.
      destruct (check_wyckoff_position merged wyckoffs w_symm_all PBC) eqn:Hfound;
        injection Hrun as <-; [rewrite Hfound; discriminate | auto].
    + injection Hrun as <-. auto.
  - injection Hrun as <-. auto.
Qed.
End MergeReturned.

(** X6.  [merge_coordinate] never returns more points than it was
    given.  An index other than [False] is the answer of
    [check_wyckoff_position] for the points returned, and points
    returned after a merge are points that [check_wyckoff_position]
    recognised. *)
Theorem merge_coordinate_returned :
  forall (Point Lattice Op : Type) (G : Geometry Point Lattice Op)
         (get_center : list Point -> Lattice -> list nat -> Point)
         (lattice : Lattice) (wyckoffs : list (list Op))
         (w_symm_all : list (list (list Op))) (tol : Q) (PBC : list nat)
         (fuel : nat) (coor coor' : list Point) index,
    merge_coordinate get_center fuel coor lattice wyckoffs w_symm_all tol PBC
    = Ok (coor', index) ->
    (length coor' <= length coor)%nat
    /\ (forall found, index = Some found ->
                      check_wyckoff_position coor' wyckoffs w_symm_all PBC
                      = Some found)
    /\ (coor' = coor
        \/ check_wyckoff_position coor' wyckoffs w_symm_all PBC <> None).
Proof.
  intros Point Lattice Op G get_center lattice wyckoffs w_symm_all tol PBC fuel.
  induction fuel as [| fuel IH]; intros coor coor' index Hrun; simpl in Hrun;
    [discriminate |].
  destruct (merge_round get_center coor lattice wyckoffs w_symm_all tol PBC)
    as [[c idx | merged] | | |] eqn:Hround; cbn [bind] in Hrun; try discriminate.
  - injection Hrun as <- <-.
    apply merge_round_cases in Hround. destruct Hround as (-> & Hidx).
    split; [lia |]. split; [| auto].
    intros found Hfound. destruct Hidx as [-> | ->]; [discriminate | exact Hfound].
  - pose proof (merge_round_cases _ _ _ _ _ _ _ _ Hround) as Hrecognised.
    apply merge_round_decreases in Hround.
    apply IH in Hrun. destruct Hrun as (Hlen & Hfound & Hsame).
    split; [lia |]. split; [exact Hfound |].
    right. destruct Hsame as [-> | Hrec]; [exact Hrecognised | exact Hrec].
Qed.

Lemma merge_coordinate_returned_witness :
  (length merged_on_axis <= length three_on_axis)%nat.
Proof.
  assert (Hrun : @merge_coordinate _ _ _ axis_placed plain_mean 3 three_on_axis 10
                   [[op_xyz]] [] (3 # 10) [1; 2; 3]%nat
                 = Ok (merged_on_axis, Some (0%nat, 102 # 400)))
    by (vm_compute; reflexivity).
  exact (proj1 (merge_coordinate_returned _ _ _ _ _ _ _ _ _ _ _ _ _ _ Hrun)).
Defined.

(** ** [check_distance] on two sets of at least two points *)

Lemma filter_length_pos :
  forall (A : Type) (f : A -> bool) l,
    (0 < length (filter f l))%nat <-> exists x, In x l /\ f x = true.
Proof.
  intros A f l. split.
  - destruct (filter f l) as [| x rest] eqn:E; simpl; [lia |].
    intros _. exists x. apply filter_In. rewrite E. now left.
  - intros (x & Hin & Hx).
    assert (Hf : In x (filter f l)) by (apply filter_In; auto).
    destruct (filter f l); [destruct Hf | simpl; lia].
Qed.

(** An axis of two entries or more is not stretched. *)
Lemma stretched_long :
  forall (A : Type) (l : list A) i,
    (2 <= length l)%nat -> stretched l i = nth_error l i.
Proof.
  intros A [| x [| y l]] i Hlen; simpl in Hlen; try lia; reflexivity.
Qed.

Lemma stretched_cases :
  forall (A : Type) (l : list A) (n i : nat),
    (2 <= n)%nat -> (i < n)%nat -> length l = n \/ length l = 1%nat ->
    exists a, stretched l i = Some a.
Proof.
  intros A l n i Hn Hi [Hlen | Hlen].
  - rewrite stretched_long by lia.
    destruct (nth_error l i) as [a |] eqn:E; [now exists a |].
    apply nth_error_None in E. lia.
  - destruct l as [| x [| y l]]; simpl in Hlen; try lia. now exists x.
Qed.

(** Broadcasting against an axis of two entries or more. *)
Lemma broadcast_axis_fits :
  forall n m, (2 <= n)%nat -> m = n \/ m = 1%nat -> broadcast_axis n m = Some n.
Proof.
  intros n m Hn Hm. unfold broadcast_axis.
  destruct (n =? m)%nat eqn:E; [reflexivity |].
  apply Nat.eqb_neq in E.
  replace (n =? 1)%nat with false by (symmetry; apply Nat.eqb_neq; lia).
  replace (m =? 1)%nat with true by (symmetry; apply Nat.eqb_eq; lia).
  reflexivity.
Qed.

Lemma broadcast_axis_misfit :
  forall n m, (2 <= n)%nat -> ~ (m = n \/ m = 1%nat) -> broadcast_axis n m = None.
Proof.
  intros n m Hn Hm. unfold broadcast_axis.
  replace (n =? m)%nat with false by (symmetry; apply Nat.eqb_neq; lia).
  replace (n =? 1)%nat with false by (symmetry; apply Nat.eqb_neq; lia).
  replace (m =? 1)%nat with false by (symmetry; apply Nat.eqb_neq; lia).
  reflexivity.
Qed.

Lemma width_of_matrix :
  forall (d : list (list Q)) n,
    (2 <= length d)%nat -> Forall (fun row => length row = n) d ->
    length (hd [] d) = n.
Proof.
  intros [| row d] n Hlen Hrows; simpl in Hlen; [lia |].
  now inversion Hrows.
Qed.

(** The count of [check_distance] on a matrix of two rows and two
    columns or more. *)
Lemma count_below_fits :
  forall d tols1 tols2 rows columns,
    (2 <= rows)%nat -> (2 <= columns)%nat ->
    length d = rows -> Forall (fun row => length row = columns) d ->
    length tols1 = rows \/ length tols1 = 1%nat ->
    length tols2 = columns \/ length tols2 = 1%nat ->
    exists below,
      count_below d tols1 tols2 = Ok below
      /\ ((0 < below)%nat
          <-> exists i j row x a b,
                nth_error d i = Some row /\ nth_error row j = Some x
                /\ stretched tols1 i = Some a /\ stretched tols2 j = Some b
                /\ x < a + b).
Proof.
  intros d tols1 tols2 rows columns Hrows Hcolumns Hd Hwidth Ht1 Ht2.
  unfold count_below.
  rewrite (width_of_matrix d columns) by (rewrite ?Hd; assumption).
  rewrite Hd, (broadcast_axis_fits rows _ Hrows Ht1),
    (broadcast_axis_fits columns _ Hcolumns Ht2).
  eexists. split; [reflexivity |].
  rewrite filter_length_pos. rewrite Forall_forall in Hwidth.
  assert (Hlong : forall i, stretched d i = nth_error d i)
    by (intros i; apply stretched_long; lia).
  split.
  - intros ([i j] & _ & Hlt). rewrite Hlong in Hlt.
    destruct (nth_error d i) as [row |] eqn:Hrow; [| discriminate].
    destruct (stretched tols1 i) as [a |] eqn:Ha; [| discriminate].
    destruct (stretched tols2 j) as [b |] eqn:Hb; [| discriminate].
    rewrite stretched_long in Hlt
      by (rewrite (Hwidth row) by (eapply nth_error_In; eassumption); lia).
    destruct (nth_error row j) as [x |] eqn:Hx; [| discriminate].
    exists i, j, row, x, a, b. do 4 (split; [assumption |]).
    apply negb_true_iff in Hlt. apply Qnot_le_lt. intros Hle.
    apply Qle_bool_iff in Hle. congruence.
  - intros (i & j & row & x & a & b & Hrow & Hx & Ha & Hb & Hlt).
    assert (Hrow_len : length row = columns)
      by (apply Hwidth; eapply nth_error_In; eassumption).
    exists (i, j). split.
    + apply in_prod; apply in_seq.
      * assert (i < length d)%nat by (apply nth_error_Some; congruence). lia.
      * assert (j < length row)%nat by (apply nth_error_Some; congruence). lia.
    + rewrite Hlong, Hrow, Ha, Hb, stretched_long, Hx by lia.
      apply negb_true_iff. destruct (Qle_bool (a + b) x) eqn:E; [| reflexivity].
      apply Qle_bool_iff in E. apply Qle_not_lt in E. contradiction.
Qed.

Lemma count_below_misfit :
  forall d tols1 tols2 rows columns,
    (2 <= rows)%nat -> (2 <= columns)%nat ->
    length d = rows -> Forall (fun row => length row = columns) d ->
    ~ (length tols1 = rows \/ length tols1 = 1%nat)
    \/ ~ (length tols2 = columns \/ length tols2 = 1%nat) ->
    count_below d tols1 tols2 = Raise ValueError.
Proof.
  intros d tols1 tols2 rows columns Hrows Hcolumns Hd Hwidth Hmisfit.
  unfold count_below.
  rewrite (width_of_matrix d columns) by (rewrite ?Hd; assumption).
  rewrite Hd. destruct Hmisfit as [Hbad | Hbad].
  - now rewrite (broadcast_axis_misfit rows _ Hrows Hbad).
  - rewrite (broadcast_axis_misfit columns _ Hcolumns Hbad).
    destruct (broadcast_axis rows (length tols1)); reflexivity.
Qed.

(** X7.  Take at least two points on each side, tolerances that convert
    to [t1] and [t2], and a distance matrix [d] with one row per point
    of [coord1] and one column per point of [coord2].  When each list
    of tolerances has one entry per point, or a single entry, which
    numpy then uses for every point, [check_distance] returns [False]
    exactly when some distance [d[i][j]] lies strictly below the sum of
    the tolerances of [i] and [j], and [True] otherwise; [d_factor] has
    no part in the answer.  When a list of tolerances has another
    length, [check_distance] raises [ValueError]. *)
Theorem check_distance_below_tolerance :
  forall (Point Lattice Op : Type) (ES : ElementService)
         (G : Geometry Point Lattice Op)
         (coord1 coord2 : list Point) (tols1 tols2 : tolerances)
         (lattice : Lattice) (PBC : list nat) (d_factor : Q)
         (t1 t2 : list Q) (d : list (list Q)),
    (2 <= length coord1)%nat -> (2 <= length coord2)%nat ->
    convert_tols tols1 = Ok t1 -> convert_tols tols2 = Ok t2 ->
    distance_matrix coord1 coord2 lattice PBC = Ok d ->
    length d = length coord1 ->
    Forall (fun row => length row = length coord2) d ->
    ((length t1 = length coord1 \/ length t1 = 1%nat)
     /\ (length t2 = length coord2 \/ length t2 = 1%nat) ->
     exists answer,
       check_distance coord1 coord2 tols1 tols2 lattice PBC d_factor = Ok answer
       /\ (answer = false
           <-> exists i j row x a b,
                 nth_error d i = Some row /\ nth_error row j = Some x
                 /\ stretched t1 i = Some a /\ stretched t2 j = Some b
                 /\ x < a + b))
    /\ (~ (length t1 = length coord1 \/ length t1 = 1%nat)
        \/ ~ (length t2 = length coord2 \/ length t2 = 1%nat) ->
        check_distance coord1 coord2 tols1 tols2 lattice PBC d_factor
        = Raise ValueError).
Proof.
  intros Point Lattice Op ES G coord1 coord2 tols1 tols2 lattice PBC d_factor
         t1 t2 d Hlen1 Hlen2 Ht1 Ht2 Hd Hrows Hcols.
  unfold check_distance.
  replace (length coord1 <=? 1)%nat with false by (symmetry; apply Nat.leb_gt; lia).
  replace (length coord2 <=? 1)%nat with false by (symmetry; apply Nat.leb_gt; lia).
  cbn [orb]. rewrite Ht1, Ht2, Hd. cbn [bind].
  split.
  - intros [Hfit1 Hfit2].
    destruct (count_below_fits d t1 t2 _ _ Hlen1 Hlen2 Hrows Hcols Hfit1 Hfit2)
      as (below & -> & Hchar).
    cbn [bind]. destruct (0 <? below)%nat eqn:E.
    + exists false. split; [reflexivity |]. split; [intros _ | reflexivity].
      apply Hchar. now apply Nat.ltb_lt.
    + exists true. split; [reflexivity |]. split; [discriminate |].
      intros Hex. apply Hchar in Hex. apply Nat.ltb_lt in Hex. congruence.
  - intros Hmisfit.
    now rewrite (count_below_misfit d t1 t2 _ _ Hlen1 Hlen2 Hrows Hcols Hmisfit).
Qed.

(** Two atoms on each side, all four distances 0, and the one
    tolerance 1 given for the first side. *)
Lemma check_distance_below_tolerance_witness :
  @check_distance unit unit SymmOp carbon_table never_placed
    [tt; tt] [tt; tt] (Distances [1]) (Symbols ["C"; "C"]%string)
    tt [1; 2; 3]%nat 5
  = Ok false.
Proof.
  assert (Hcols : Forall (fun row : list Q => length row = length [tt; tt])
                         [[0; 0]; [0; 0]])
    by (repeat constructor).
  destruct (proj1 (check_distance_below_tolerance unit unit SymmOp carbon_table
                     never_placed [tt; tt] [tt; tt] (Distances [1])
                     (Symbols ["C"; "C"]%string) tt [1; 2; 3]%nat 5
                     [1] [76 # 100; 76 # 100] [[0; 0]; [0; 0]]
                     (le_n 2) (le_n 2) eq_refl eq_refl eq_refl eq_refl Hcols)
                  (conj (or_intror eq_refl) (or_introl eq_refl)))
    as (answer & Hrun & Hiff).
  rewrite Hrun. f_equal. apply Hiff.
  exists 1%nat, 0%nat, [0; 0], 0, 1, (76 # 100).
  split; [reflexivity |]. split; [reflexivity |].
  split; [reflexivity |]. split; [reflexivity |]. vm_compute. reflexivity.
Defined.

(** ** [verify_distances] *)

Section VerifyFacts.
Context {Point Lattice : Type} {ES : ElementService}.
Variable distance : Point -> Point -> Lattice -> list nat -> Q.
Variable species : list string.
Variable lattice : Lattice.
Variable factor : Q.
Variable PBC : list nat.

(** The test of the loop body on the atoms [i] and [j]. *)
Local Abbreviation too_close c1 c2 s1 s2 :=
  (distance c1 c2 lattice PBC
   < factor * (1 # 2) * (covalent_radius s1 + covalent_radius s2)).

Lemma verify_inner_spec :
  forall i specie1 c1 rest,
    (forall j c2, In (j, c2) rest -> (j < length species)%nat) ->
    exists answer,
      verify_inner distance species lattice factor PBC i specie1 c1 rest = Ok answer
      /\ (answer = false
          <-> exists j c2 specie2,
                In (j, c2) rest /\ (i < j)%nat
                /\ nth_error species j = Some specie2
                /\ too_close c1 c2 specie1 specie2).
Proof.
  intros i specie1 c1 rest. induction rest as [| [j c2] rest IH]; intros Hsp.
  - exists true. split; [reflexivity |].
    split; [discriminate | intros (j & c2 & s2 & [] & _)].
  - destruct IH as (answer & Hrun & Hiff).
    { intros j' c2' Hin. apply (Hsp j' c2'). now right. }
    cbn [verify_inner]. destruct (i <? j)%nat eqn:Hij.
    + apply Nat.ltb_lt in Hij.
      assert (Hj : (j < length species)%nat) by (apply (Hsp j c2); now left).
      apply nth_error_Some in Hj.
      unfold getitem. destruct (nth_error species j) as [specie2 |] eqn:Hs2;
        [| congruence]. cbn [bind].
      destruct (Qle_bool _ _) eqn:Hle; cbn [negb].
      * exists answer. split; [exact Hrun |]. rewrite Hiff. split.
        -- intros (j' & c2' & s2' & Hin & Hlt & Hs & Hclose).
           exists j', c2', s2'. split; [now right | auto].
        -- intros (j' & c2' & s2' & [[= <- <-] | Hin] & Hlt & Hs & Hclose).
           ++ rewrite Hs2 in Hs. injection Hs as <-.
              apply Qle_bool_iff in Hle. apply Qle_not_lt in Hle. contradiction.
           ++ exists j', c2', s2'. auto.
      * exists false. split; [reflexivity |]. split; [intros _ | reflexivity].
        exists j, c2, specie2. split; [now left |]. split; [exact Hij |].
        split; [exact Hs2 |].
        apply Qnot_le_lt. intros H. apply Qle_bool_iff in H. congruence.
    + apply Nat.ltb_ge in Hij.
      exists answer. split; [exact Hrun |]. rewrite Hiff. split.
      * intros (j' & c2' & s2' & Hin & Hlt & Hs & Hclose).
        exists j', c2', s2'. split; [now right | auto].
      * intros (j' & c2' & s2' & [[= <- <-] | Hin] & Hlt & Hs & Hclose); [lia |].
        exists j', c2', s2'. auto.
Qed.

Lemma verify_outer_spec :
  forall coordinates todo,
    (forall j c2, In (j, c2) coordinates -> (j < length species)%nat) ->
    (forall i c1, In (i, c1) todo -> (i < length species)%nat) ->
    exists answer,
      verify_outer distance species lattice factor PBC coordinates todo = Ok answer
      /\ (answer = false
          <-> exists i c1 specie1 j c2 specie2,
                In (i, c1) todo /\ In (j, c2) coordinates /\ (i < j)%nat
                /\ nth_error species i = Some specie1
                /\ nth_error species j = Some specie2
                /\ too_close c1 c2 specie1 specie2).
Proof.
  intros coordinates todo Hall. induction todo as [| [i c1] todo IH]; intros Hsp.
  - exists true. split; [reflexivity |].
    split; [discriminate | intros (i & c1 & s1 & j & c2 & s2 & [] & _)].
  - destruct IH as (answer & Hrun & Hiff).
    { intros i' c1' Hin. apply (Hsp i' c1'). now right. }
    cbn [verify_outer].
    assert (Hi : (i < length species)%nat) by (apply (Hsp i c1); now left).
    apply nth_error_Some in Hi.
    unfold getitem. destruct (nth_error species i) as [specie1 |] eqn:Hs1;
      [| congruence]. cbn [bind].
    destruct (verify_inner_spec i specie1 c1 coordinates Hall)
      as (far & Hinner & Hfar).
    rewrite Hinner. cbn [bind]. destruct far.
    + exists answer. split; [exact Hrun |]. rewrite Hiff. split.
      * intros (i' & c1' & s1' & j & c2 & s2 & Hin & Hrest).
        exists i', c1', s1', j, c2, s2. split; [now right | exact Hrest].
      * intros (i' & c1' & s1' & j & c2 & s2 & [[= <- <-] | Hin] & Hj & Hlt & Hs & Hs2 & Hclose).
        -- rewrite Hs1 in Hs. injection Hs as <-.
           assert (true = false); [| discriminate].
           apply Hfar. exists j, c2, s2. auto.
        -- exists i', c1', s1', j, c2, s2. auto 10.
    + exists false. split; [reflexivity |]. split; [intros _ | reflexivity].
      destruct (proj1 Hfar eq_refl) as (j & c2 & s2 & Hin & Hlt & Hs2 & Hclose).
      exists i, c1, specie1, j, c2, s2. split; [now left | auto 10].
Qed.

Lemma verify_inner_not_true :
  forall i specie1 c1 rest j c2,
    In (j, c2) rest -> (i < j)%nat -> (length species <= j)%nat ->
    verify_inner distance species lattice factor PBC i specie1 c1 rest = Ok false
    \/ verify_inner distance species lattice factor PBC i specie1 c1 rest
       = Raise IndexError.
Proof.
  intros i specie1 c1 rest j c2. induction rest as [| [j' c2'] rest IH];
    intros Hin Hlt Hlen; [destruct Hin |].
  cbn [verify_inner]. destruct Hin as [[= -> ->] | Hin].
  - replace (i <? j)%nat with true by (symmetry; now apply Nat.ltb_lt).
    apply nth_error_None in Hlen. unfold getitem. rewrite Hlen. now right.
  - destruct (i <? j')%nat; [| now apply IH].
    unfold getitem. destruct (nth_error species j'); cbn [bind]; [| now right].
    destruct (negb _); [now left | now apply IH].
Qed.

Lemma verify_inner_outcomes :
  forall i specie1 c1 rest,
    (exists answer,
       verify_inner distance species lattice factor PBC i specie1 c1 rest = Ok answer)
    \/ verify_inner distance species lattice factor PBC i specie1 c1 rest
       = Raise IndexError.
Proof.
  intros i specie1 c1 rest. induction rest as [| [j c2] rest IH].
  - left. now exists true.
  - cbn [verify_inner]. destruct (i <? j)%nat; [| exact IH].
    unfold getitem. destruct (nth_error species j); cbn [bind]; [| now right].
    destruct (negb _); [left; now exists false | exact IH].
Qed.

Lemma verify_outer_not_true :
  forall coordinates todo i c1,
    In (i, c1) todo -> (length species <= i)%nat ->
    verify_outer distance species lattice factor PBC coordinates todo = Ok false
    \/ verify_outer distance species lattice factor PBC coordinates todo
       = Raise IndexError.
Proof.
  intros coordinates todo i c1. induction todo as [| [i' c1'] todo IH];
    intros Hin Hlen; [destruct Hin |].
  cbn [verify_outer]. destruct Hin as [[= -> ->] | Hin].
  - apply nth_error_None in Hlen. unfold getitem. rewrite Hlen. now right.
  - unfold getitem. destruct (nth_error species i') as [specie1 |]; cbn [bind];
      [| now right].
    destruct (verify_inner_outcomes i' specie1 c1' coordinates) as [[far ->] | ->];
      cbn [bind]; [| now right].
    destruct far; [now apply IH | now left].
Qed.
End VerifyFacts.

(** X8.  Given a symbol for every atom, [verify_distances] returns
    [False] exactly when two atoms [i < j] lie closer than [factor]
    times half the sum of their covalent radii, and [True]
    otherwise. *)
Theorem verify_distances_pairs :
  forall (Point Lattice : Type) (ES : ElementService)
         (distance : Point -> Point -> Lattice -> list nat -> Q)
         (coordinates : list Point) (species : list string) (lattice : Lattice)
         (factor : Q) (PBC : list nat),
    (length coordinates <= length species)%nat ->
    exists answer,
      verify_distances distance coordinates species lattice factor PBC = Ok answer
      /\ (answer = false
          <-> exists i j c1 c2 specie1 specie2,
                (i < j)%nat
                /\ nth_error coordinates i = Some c1
                /\ nth_error coordinates j = Some c2
                /\ nth_error species i = Some specie1
                /\ nth_error species j = Some specie2
                /\ distance c1 c2 lattice PBC
                   < factor * (1 # 2)
                     * (covalent_radius specie1 + covalent_radius specie2)).
Proof.
  intros Point Lattice ES distance coordinates species lattice factor PBC Hlen.
  assert (Hsp : forall i c, In (i, c) (enumerate coordinates)
                            -> (i < length species)%nat).
  { intros i c Hin. apply In_enumerate in Hin.
    assert (i < length coordinates)%nat by (apply nth_error_Some; congruence). lia. }
  destruct (verify_outer_spec distance species lattice factor PBC
              (enumerate coordinates) (enumerate coordinates) Hsp Hsp)
    as (answer & Hrun & Hiff).
  exists answer. split; [exact Hrun |]. rewrite Hiff. split.
  - intros (i & c1 & s1 & j & c2 & s2 & Hi & Hj & Hlt & Hs1 & Hs2 & Hclose).
    apply In_enumerate in Hi, Hj. exists i, j, c1, c2, s1, s2. auto 10.
  - intros (i & j & c1 & c2 & s1 & s2 & Hlt & Hi & Hj & Hs1 & Hs2 & Hclose).
    apply In_enumerate in Hi, Hj. exists i, c1, s1, j, c2, s2. auto 10.
Qed.

(** Two carbon atoms 2.5 apart are far enough; the answer is [True]. *)
Lemma verify_distances_pairs_witness :
  @verify_distances Q Q carbon_table (fun c1 c2 edge _ => axis_distance edge c1 c2)
    carbon_pair ["C"; "C"]%string 5 1 [1; 2; 3]%nat
  = Ok true.
Proof.
  destruct (verify_distances_pairs Q Q carbon_table
              (fun c1 c2 edge _ => axis_distance edge c1 c2)
              carbon_pair ["C"; "C"]%string 5 1 [1; 2; 3]%nat (le_n 2))
    as (answer & Hrun & Hiff).
  rewrite Hrun. f_equal. destruct answer; [reflexivity |].
  vm_compute in Hrun. discriminate Hrun.
Defined.

(** X9.  With fewer symbols than atoms [verify_distances] never
    returns [True]: it returns [False] for a pair met before the
    missing symbol is read, or raises [IndexError]. *)
Theorem verify_distances_missing_species :
  forall (Point Lattice : Type) (ES : ElementService)
         (distance : Point -> Point -> Lattice -> list nat -> Q)
         (coordinates : list Point) (species : list string) (lattice : Lattice)
         (factor : Q) (PBC : list nat),
    (length species < length coordinates)%nat ->
    verify_distances distance coordinates species lattice factor PBC = Ok false
    \/ verify_distances distance coordinates species lattice factor PBC
       = Raise IndexError.
Proof.
  intros Point Lattice ES distance coordinates species lattice factor PBC Hlen.
  destruct (nth_error coordinates (length species)) as [c |] eqn:Hc;
    [| apply nth_error_None in Hc; lia].
  apply In_enumerate in Hc.
  exact (verify_outer_not_true distance species lattice factor PBC
           (enumerate coordinates) (enumerate coordinates) _ _ Hc (le_n _)).
Qed.

Lemma verify_distances_missing_species_witness :
  @verify_distances Q Q carbon_table (fun c1 c2 edge _ => axis_distance edge c1 c2)
    carbon_pair ["C"]%string 5 1 [1; 2; 3]%nat
  = Raise IndexError.
Proof.
  destruct (verify_distances_missing_species Q Q carbon_table
              (fun c1 c2 edge _ => axis_distance edge c1 c2)
              carbon_pair ["C"]%string 5 1 [1; 2; 3]%nat (le_n 2))
    as [Hrun | Hrun]; [| exact Hrun].
  vm_compute in Hrun. discriminate Hrun.
Defined.

(** ** [choose_wyckoff] *)

Lemma choose_In :
  forall (A : Type) (r : nat) (l : list A),
    l <> [] -> exists a, choose r l = Ok a /\ In a l.
Proof.
  intros A r l Hl. unfold choose, getitem.
  assert (Hlt : (r mod length l < length l)%nat).
  { apply Nat.mod_upper_bound. destruct l; [congruence | simpl; lia]. }
  destruct (nth_error l (r mod length l)) as [a |] eqn:E.
  - exists a. split; [reflexivity |]. eapply nth_error_In. eassumption.
  - apply nth_error_None in E. lia.
Qed.

Lemma fits_head :
  forall (Op : Type) (wyckoff : list (list Op)) number,
    wyckoff <> [] ->
    exists wp0,
      hd_error wyckoff = Some wp0
      /\ fits wyckoff number = Ok (Z.of_nat (length wp0) <=? number)%Z.
Proof.
  intros Op [| wp0 wyckoff] number Hne; [congruence |].
  exists wp0. split; reflexivity.
Qed.

(** The positions collected by the second branch. *)
Lemma good_wyckoff_spec :
  forall (Op : Type) (number : Z) (wyckoffs : list (list (list Op))) good,
    Forall (fun wyckoff => wyckoff <> []) wyckoffs ->
    exists good',
      foldM (fun good wyckoff =>
               ok <- fits wyckoff number ;;
               Ok (if ok then good ++ wyckoff else good)) wyckoffs good
      = Ok (good ++ good')
      /\ (forall w, In w good' ->
                    exists wyckoff wp0,
                      In wyckoff wyckoffs /\ In w wyckoff
                      /\ hd_error wyckoff = Some wp0
                      /\ (Z.of_nat (length wp0) <= number)%Z)
      /\ (good' = [] ->
          forall wyckoff wp0,
            In wyckoff wyckoffs -> hd_error wyckoff = Some wp0 ->
            (number < Z.of_nat (length wp0))%Z).
Proof.
  intros Op number wyckoffs. induction wyckoffs as [| wyckoff wyckoffs IH];
    intros good Hne.
  - exists []. rewrite app_nil_r. split; [reflexivity |].
    split; [intros w [] | intros _ wyckoff wp0 []].
  - inversion Hne as [| ? ? Hhead Htail]; subst.
    destruct (fits_head Op wyckoff number Hhead) as (wp0 & Hwp0 & Hfits).
    cbn [foldM]. rewrite Hfits. cbn [bind].
    destruct (Z.of_nat (length wp0) <=? number)%Z eqn:Hle.
    + apply Z.leb_le in Hle.
      destruct (IH (good ++ wyckoff) Htail) as (good' & Hrun & Hin & Hnone).
      exists (wyckoff ++ good'). rewrite app_assoc. split; [exact Hrun |]. split.
      * intros w Hw. apply in_app_or in Hw. destruct Hw as [Hw | Hw].
        -- exists wyckoff, wp0. split; [now left | auto].
        -- destruct (Hin w Hw) as (wy & wp & Hwy & Hrest).
           exists wy, wp. split; [now right | exact Hrest].
      * intros Hempty. apply app_eq_nil in Hempty. destruct Hempty as [-> _].
        congruence.
    + apply Z.leb_gt in Hle.
      destruct (IH good Htail) as (good' & Hrun & Hin & Hnone).
      exists good'. split; [exact Hrun |]. split.
      * intros w Hw. destruct (Hin w Hw) as (wy & wp & Hwy & Hrest).
        exists wy, wp. split; [now right | exact Hrest].
      * intros Hempty wy wp [<- | Hwy] Hwp.
        -- rewrite Hwp0 in Hwp. injection Hwp as <-. exact Hle.
        -- exact (Hnone Hempty wy wp Hwy Hwp).
Qed.

(** X10.  When no group of [wyckoffs] is empty, [choose_wyckoff]
    returns, whatever the random draws.  A position it returns belongs
    to a group whose first position has at most [number] operations;
    it returns [False] only when the first position of every group has
    more than [number] operations. *)
Theorem choose_wyckoff_fits :
  forall (Op : Type) (u : Q) (r : nat) (wyckoffs : list (list (list Op)))
         (number : Z),
    Forall (fun wyckoff => wyckoff <> []) wyckoffs ->
    exists answer,
      choose_wyckoff u r wyckoffs number = Ok answer
      /\ match answer with
         | Some w =>
           exists wyckoff wp0,
             In wyckoff wyckoffs /\ In w wyckoff
             /\ hd_error wyckoff = Some wp0
             /\ (Z.of_nat (length wp0) <= number)%Z
         | None =>
           forall wyckoff wp0,
             In wyckoff wyckoffs -> hd_error wyckoff = Some wp0 ->
             (number < Z.of_nat (length wp0))%Z
         end.
Proof.
  intros Op u r wyckoffs number Hne. unfold choose_wyckoff.
  destruct (negb (Qle_bool u (1 # 2))).
  - (* choose from high to low *)
    induction wyckoffs as [| wyckoff wyckoffs IH].
    + exists None. split; [reflexivity | intros wyckoff wp0 []].
    + inversion Hne as [| ? ? Hhead Htail]; subst.
      destruct (fits_head Op wyckoff number Hhead) as (wp0 & Hwp0 & Hfits).
      rewrite Hfits. cbn [bind].
      destruct (Z.of_nat (length wp0) <=? number)%Z eqn:Hle.
      * apply Z.leb_le in Hle.
        destruct (choose_In _ r wyckoff Hhead) as (w & Hw & Hin).
        rewrite Hw. cbn [bind]. exists (Some w). split; [reflexivity |].
        exists wyckoff, wp0. split; [now left | auto].
      * apply Z.leb_gt in Hle.
        destruct (IH Htail) as (answer & Hrun & Hanswer).
        exists answer. split; [exact Hrun |]. destruct answer as [w |].
        -- destruct Hanswer as (wy & wp & Hwy & Hrest).
           exists wy, wp. split; [now right | exact Hrest].
        -- intros wy wp [<- | Hwy] Hwp.
           ++ rewrite Hwp0 in Hwp. injection Hwp as <-. exact Hle.
           ++ exact (Hanswer wy wp Hwy Hwp).
  - destruct (good_wyckoff_spec Op number wyckoffs [] Hne)
      as (good & Hrun & Hin & Hnone).
    rewrite Hrun. cbn [bind app].
    destruct good as [| w0 good].
    + exists None. split; [reflexivity |]. exact (Hnone eq_refl).
    + destruct (choose_In _ r (w0 :: good)) as (w & Hw & Hw_in); [discriminate |].
      rewrite Hw. cbn [bind]. exists (Some w). split; [reflexivity |].
      exact (Hin w Hw_in).
Qed.

(** One atom left, the draws 0.3 and 7: the only position that fits. *)
Lemma choose_wyckoff_fits_witness :
  choose_wyckoff (3 # 10) 7 two_groups 1 = Ok (Some [5%nat]).
Proof.
  assert (Hne : Forall (fun wyckoff : list (list nat) => wyckoff <> []) two_groups)
    by (repeat constructor; discriminate).
  destruct (choose_wyckoff_fits nat (3 # 10) 7 two_groups 1 Hne)
    as (answer & Hrun & _).
  rewrite Hrun. vm_compute in Hrun. injection Hrun as <-. reflexivity.
Defined.

(** ** What [check_compatible] answers *)

Lemma returns_bind :
  forall (A B : Type) (P : A -> Prop) (Q : B -> Prop) (r : result A)
         (k : A -> result B),
    returns_or_index_error P r ->
    (forall a, P a -> returns_or_index_error Q (k a)) ->
    returns_or_index_error Q (bind r k).
Proof.
  intros A B P Q [a | [| | |] | |] k Hr Hk; simpl in *; auto.
Qed.

Lemma returns_foldM :
  forall (S X : Type) (P : S -> Prop) (body : S -> X -> result S) xs s,
    P s ->
    (forall s x, P s -> returns_or_index_error P (body s x)) ->
    returns_or_index_error P (foldM body xs s).
Proof.
  intros S X P body xs. induction xs as [| x xs IH]; intros s Hs Hbody; simpl.
  - exact Hs.
  - apply (returns_bind _ _ P P); [now apply Hbody |]. intros s' Hs'. now apply IH.
Qed.

Lemma returns_getitem :
  forall (A : Type) (l : list A) i,
    returns_or_index_error (fun _ => True) (getitem l i).
Proof. intros A l i. unfold getitem. destruct (nth_error l i); exact I. Qed.

Lemma returns_getlast :
  forall (A : Type) (l : list A),
    returns_or_index_error (fun _ => True) (getlast l).
Proof. intros A [| a l]; exact I. Qed.

Lemma returns_subtract_wp :
  forall fuel wp st remaining,
    (Z.to_nat remaining < fuel)%nat ->
    returns_or_index_error (fun _ => True) (subtract_wp fuel wp st remaining).
Proof.
  induction fuel as [| fuel IH]; intros wp st remaining Hfuel; [lia |].
  simpl.
  destruct ((Z.of_nat (length wp) <=? remaining)%Z && negb (wp_in wp (removed_wyckoffs st)))
    eqn:Hcond; [| exact I].
  apply andb_prop in Hcond. destruct Hcond as [Hle _]. apply Z.leb_le in Hle.
  destruct wp as [| op wp]; [exact I |].
  cbn [getitem nth_error bind].
  assert (Hless : (Z.to_nat (remaining - Z.of_nat (length (op :: wp))) < fuel)%nat).
  { simpl length in *. lia. }
  destruct (allclose_zeros (rotation_matrix op)); now apply IH.
Qed.

(** X11.  [check_compatible] comes to an end for every table of Wyckoff
    positions and every list of counts: its [while] loop terminates.
    It returns [True], [False] or [0], or raises [IndexError] (on an
    empty table, group or position). *)
Theorem check_compatible_outcome :
  forall (wyckoffs_organized : list (list (list SymmOp))) (numIons : list Z),
    check_compatible wyckoffs_organized numIons = Raise IndexError
    \/ exists answer,
         check_compatible wyckoffs_organized numIons = Ok answer
         /\ (answer = PyBool true \/ answer = PyBool false \/ answer = PyInt 0).
Proof.
  intros organized numIons.
  set (three := fun answer => answer = PyBool true \/ answer = PyBool false
                              \/ answer = PyInt 0%Z).
  assert (Hrun : returns_or_index_error three (check_compatible organized numIons)).
  { unfold check_compatible.
    apply (returns_bind _ _ (fun _ => True)).
    - unfold N_site. apply returns_foldM; [exact I |]. intros acc x _.
      apply (returns_bind _ _ (fun _ => True)); [apply returns_getitem |].
      intros; exact I.
    - intros n_site _. generalize {| has_freedom := false; removed_wyckoffs := [] |}.
      induction numIons as [| numIon rest IH]; intros st; cbn [compatible_loop].
      + destruct (has_freedom st); simpl; unfold three; auto.
      + apply (returns_bind _ _ (fun _ => True)); [apply returns_getlast |].
        intros smallest _.
        destruct (0 <? np_mod numIon (Z.of_nat smallest))%Z;
          [simpl; unfold three; auto |].
        apply (returns_bind _ _ (fun _ => True)); [apply returns_getlast |].
        intros group _.
        apply (returns_bind _ _ (fun _ => True)); [apply returns_getlast |].
        intros wp _.
        apply (returns_bind _ _ (fun _ => True)); [apply returns_getitem |].
        intros op _.
        destruct (ndarray_all (rotation_matrix op)); [apply IH |].
        apply (returns_bind _ _ (fun _ => True)).
        * apply returns_foldM; [exact I |]. intros acc x _.
          apply returns_foldM; [exact I |].
          intros [st' remaining] wp' _. apply returns_subtract_wp. lia.
        * intros [st' remaining] _.
          destruct (negb (remaining =? 0)%Z); [simpl; unfold three; auto | apply IH]. }
  destruct (check_compatible organized numIons) as [answer | [| | |] | |];
    simpl in Hrun; try contradiction.
  - right. exists answer. split; [reflexivity | exact Hrun].
  - now left.
Qed.

Lemma N_site_heads :
  forall (organized : list (list (list SymmOp))) acc n_site,
    foldM (fun acc x => wp0 <- getitem x 0%nat ;; Ok (acc ++ [length wp0]))
          organized acc = Ok n_site ->
    n_site = acc ++ map (fun x => length (hd [] x)) organized
    /\ Forall (fun x => x <> []) organized.
Proof.
  induction organized as [| x organized IH]; intros acc n_site Hrun.
  - injection Hrun as <-. rewrite app_nil_r. auto.
  - cbn [foldM] in Hrun. destruct x as [| wp0 x]; [discriminate |].
    cbn [getitem nth_error bind] in Hrun.
    apply IH in Hrun. destruct Hrun as (-> & Hne).
    rewrite <- app_assoc. split; [reflexivity |].
    constructor; [discriminate | exact Hne].
Qed.

Lemma last_map :
  forall (A B : Type) (f : A -> B) (l : list A) a,
    last (map f l) (f a) = f (last l a).
Proof.
  intros A B f l. induction l as [| y l IH]; intros a; [reflexivity |].
  simpl map. rewrite !last_cons. apply IH.
Qed.

Lemma last_In : forall (A : Type) (l : list A) a, In (last l a) (a :: l).
Proof.
  intros A l. induction l as [| y l IH]; intros a; [now left |].
  rewrite last_cons. right. apply IH.
Qed.

Lemma getlast_map :
  forall (A B : Type) (f : A -> B) (l : list A) b,
    getlast (map f l) = Ok b -> exists a, getlast l = Ok a /\ b = f a.
Proof.
  intros A B f [| a l] b; [discriminate |].
  simpl. intros [= <-]. exists (last l a). split; [reflexivity | apply last_map].
Qed.

Lemma np_mod_nonneg : forall a b, (0 <= np_mod a (Z.of_nat b))%Z.
Proof.
  intros a b. unfold np_mod. destruct (Z.of_nat b =? 0)%Z eqn:E; [lia |].
  apply Z.eqb_neq in E. apply Z.mod_pos_bound. lia.
Qed.

Lemma compatible_loop_multiples :
  forall organized n_site numIons st answer,
    compatible_loop organized n_site numIons st = Ok answer ->
    answer <> PyBool false ->
    forall numIon, In numIon numIons ->
      exists smallest,
        getlast n_site = Ok smallest
        /\ np_mod numIon (Z.of_nat smallest) = 0%Z.
Proof.
  intros organized n_site numIons.
  induction numIons as [| numIon rest IH]; intros st answer Hrun Hanswer n Hin;
    [destruct Hin |].
  cbn [compatible_loop] in Hrun.
  destruct (getlast n_site) as [smallest | | |]; cbn [bind] in Hrun;
    try discriminate.
  destruct (0 <? np_mod numIon (Z.of_nat smallest))%Z eqn:Hmod.
  { injection Hrun as <-. congruence. }
  apply Z.ltb_ge in Hmod. pose proof (np_mod_nonneg numIon smallest) as Hpos.
  assert (Hhere : np_mod numIon (Z.of_nat smallest) = 0%Z) by lia.
  assert (Hrest : forall st', compatible_loop organized n_site rest st' = Ok answer ->
                              exists smallest',
                                Ok smallest = Ok smallest'
                                /\ np_mod n (Z.of_nat smallest') = 0%Z).
  { intros st' Hrun'. destruct Hin as [<- | Hin].
    - exists smallest. auto.
    - exact (IH st' answer Hrun' Hanswer n Hin). }
  destruct (getlast organized) as [group | | |]; cbn [bind] in Hrun;
    try discriminate.
  destruct (getlast group) as [wp | | |]; cbn [bind] in Hrun; try discriminate.
  destruct (getitem wp 0) as [op | | |]; cbn [bind] in Hrun; try discriminate.
  destruct (ndarray_all (rotation_matrix op)); [exact (Hrest _ Hrun) |].
  destruct (foldM _ organized (st, numIon)) as [[st' remaining] | | |];
    cbn [bind] in Hrun; try discriminate.
  destruct (negb (remaining =? 0)%Z).
  - injection Hrun as <-. congruence.
  - exact (Hrest _ Hrun).
Qed.

(** X12.  An answer of [check_compatible] other than [False] is given
    only when every count is a multiple of the size of the first
    position of the last group of the table. *)
Theorem check_compatible_multiples :
  forall (wyckoffs_organized : list (list (list SymmOp))) (numIons : list Z)
         (answer : pyval),
    check_compatible wyckoffs_organized numIons = Ok answer ->
    answer <> PyBool false ->
    forall numIon, In numIon numIons ->
      exists group wp0,
        getlast wyckoffs_organized = Ok group
        /\ hd_error group = Some wp0
        /\ (wp0 <> [] -> (numIon mod Z.of_nat (length wp0) = 0)%Z).
Proof.
  intros organized numIons answer Hrun Hanswer numIon Hin.
  unfold check_compatible in Hrun.
  destruct (N_site organized) as [n_site | | |] eqn:Hsites; cbn [bind] in Hrun;
    try discriminate.
  apply N_site_heads in Hsites. destruct Hsites as (-> & Hne). cbn [app] in Hrun.
  destruct (compatible_loop_multiples _ _ _ _ _ Hrun Hanswer numIon Hin)
    as (smallest & Hlast & Hmod).
  apply getlast_map in Hlast. destruct Hlast as (group & Hgroup & ->).
  assert (Hin_group : In group organized).
  { destruct organized as [| x l]; [discriminate |]. injection Hgroup as <-.
    apply last_In. }
  rewrite Forall_forall in Hne. specialize (Hne group Hin_group).
  destruct group as [| wp0 group]; [congruence |].
  exists (wp0 :: group), wp0. split; [exact Hgroup |]. split; [reflexivity |].
  intros Hwp0. cbn [hd] in Hmod. unfold np_mod in Hmod.
  destruct (Z.of_nat (length wp0) =? 0)%Z eqn:E; [| exact Hmod].
  apply Z.eqb_eq in E. destruct wp0; [congruence | simpl in E; lia].
Qed.

Lemma check_compatible_multiples_witness :
  exists group wp0,
    getlast sg199_organized = Ok group
    /\ hd_error group = Some wp0
    /\ (wp0 <> [] -> (24 mod Z.of_nat (length wp0) = 0)%Z).
Proof.
  assert (Hrun : check_compatible sg199_organized [24%Z] = Ok (PyBool true))
    by (vm_compute; reflexivity).
  refine (check_compatible_multiples sg199_organized [24%Z] _ Hrun _ 24%Z _).
  - discriminate.
  - now left.
Defined.

Lemma compatible_loop_freedom :
  forall organized n_site group wp op smallest numIons st,
    getlast n_site = Ok smallest ->
    getlast organized = Ok group ->
    getlast group = Ok wp ->
    getitem wp 0 = Ok op ->
    ndarray_all (rotation_matrix op) = true ->
    Forall (fun numIon => np_mod numIon (Z.of_nat smallest) = 0%Z) numIons ->
    (numIons <> [] \/ has_freedom st = true) ->
    compatible_loop organized n_site numIons st = Ok (PyBool true).
Proof.
  intros organized n_site group wp op smallest numIons.
  induction numIons as [| numIon rest IH];
    intros st Hsmallest Hgroup Hwp Hop Hall Hmult Hfree.
  - destruct Hfree as [Hne | Hfree]; [congruence |].
    cbn [compatible_loop]. now rewrite Hfree.
  - inversion Hmult as [| ? ? Hhere Hrest]; subst.
    cbn [compatible_loop]. rewrite Hsmallest. cbn [bind]. rewrite Hhere.
    cbn [Z.ltb Z.compare]. rewrite Hgroup. cbn [bind]. rewrite Hwp. cbn [bind].
    rewrite Hop. cbn [bind]. rewrite Hall.
    apply IH; auto.
Qed.

(** X13.  When the first operation of the last position of the last
    group has no zero entry in its rotation matrix, [check_compatible]
    returns [True] for every non-empty list of counts that are
    multiples of the size of the first position of that group. *)
Theorem check_compatible_no_zero_entry :
  forall (wyckoffs_organized : list (list (list SymmOp))) (numIons : list Z)
         group wp0 wp op,
    Forall (fun x => x <> []) wyckoffs_organized ->
    getlast wyckoffs_organized = Ok group ->
    hd_error group = Some wp0 ->
    getlast group = Ok wp ->
    getitem wp 0 = Ok op ->
    ndarray_all (rotation_matrix op) = true ->
    wp0 <> [] ->
    numIons <> [] ->
    Forall (fun numIon => (numIon mod Z.of_nat (length wp0) = 0)%Z) numIons ->
    check_compatible wyckoffs_organized numIons = Ok (PyBool true).
Proof.
  intros organized numIons group wp0 wp op Hne Hgroup Hwp0 Hwp Hop Hall Hsize
         Hions Hmult.
  unfold check_compatible.
  assert (Hsites : N_site organized
                   = Ok (map (fun x => length (hd [] x)) organized)).
  { assert (Hloop : forall acc,
              foldM (fun acc x => wp0 <- getitem x 0%nat ;; Ok (acc ++ [length wp0]))
                    organized acc
              = Ok (acc ++ map (fun x => length (hd [] x)) organized)).
    { clear - Hne. induction Hne as [| x l Hx Hl IH]; intros acc.
      - now rewrite app_nil_r.
      - destruct x as [| w x]; [congruence |]. cbn [foldM getitem nth_error bind].
        rewrite IH, <- app_assoc. reflexivity. }
    exact (Hloop []). }
  rewrite Hsites. cbn [bind].
  assert (Hsmallest : getlast (map (fun x => length (hd [] x)) organized)
                      = Ok (length wp0)).
  { destruct organized as [| x l]; [discriminate |]. injection Hgroup as Hgroup.
    simpl. f_equal.
    rewrite (last_map _ _ (fun x => length (hd [] x))), Hgroup.
    destruct group; [discriminate |]. now injection Hwp0 as ->. }
  apply (compatible_loop_freedom organized _ group wp op (length wp0));
    auto.
  eapply Forall_impl; [| exact Hmult].
  intros numIon Hmod. unfold np_mod.
  destruct (Z.of_nat (length wp0) =? 0)%Z eqn:E; [reflexivity | exact Hmod].
Qed.

Lemma check_compatible_no_zero_entry_witness :
  check_compatible one_position [4%Z; 6%Z] = Ok (PyBool true).
Proof.
  apply (check_compatible_no_zero_entry one_position [4%Z; 6%Z]
           [[op_sum; op_sum]] [op_sum; op_sum] [op_sum; op_sum] op_sum).
  - repeat constructor. discriminate.
  - reflexivity.
  - reflexivity.
  - reflexivity.
  - reflexivity.
  - reflexivity.
  - discriminate.
  - discriminate.
  - repeat constructor.
Defined.

(** ** [gaussian] *)

Section GaussianFacts.
Local Open Scope R_scope.
Variable normal : R -> R -> nat -> R.

Lemma gaussian_loop_first :
  forall min max ratio center fuel n x,
    gaussian_loop normal min max ratio center fuel n = Ok x ->
    exists k, (k < fuel)%nat
              /\ x = normal ratio center (n + k)
              /\ min < x < max
              /\ forall m, (m < k)%nat ->
                           ~ min < normal ratio center (n + m) < max.
Proof.
  intros min max ratio center fuel.
  induction fuel as [| fuel IH]; intros n x Hrun; [discriminate |].
  cbn [gaussian_loop] in Hrun.
  destruct (Rltb ratio 0); [discriminate |].
  destruct (Rltb min (normal ratio center n) && Rltb (normal ratio center n) max)
    eqn:Hin.
  - injection Hrun as <-. apply andb_prop in Hin. destruct Hin as [Hlo Hhi].
    apply Rltb_true in Hlo, Hhi.
    exists 0%nat. rewrite Nat.add_0_r.
    split; [lia |]. split; [reflexivity |]. split; [lra |]. intros m Hm. lia.
  - apply IH in Hrun. destruct Hrun as (k & Hk & Hx & Hrange & Hfirst).
    exists (S k). rewrite Nat.add_succ_r. split; [lia |]. split; [exact Hx |].
    split; [exact Hrange |]. intros [| m] Hm.
    + rewrite Nat.add_0_r. intros [Hlo Hhi].
      apply Rltb_intro in Hlo, Hhi. rewrite Hlo, Hhi in Hin. discriminate.
    + rewrite Nat.add_succ_r. apply Hfirst. lia.
Qed.

Lemma gaussian_loop_found :
  forall min max ratio center fuel n k,
    0 <= ratio -> (k < fuel)%nat ->
    min < normal ratio center (n + k) < max ->
    (forall m, (m < k)%nat -> ~ min < normal ratio center (n + m) < max) ->
    gaussian_loop normal min max ratio center fuel n
    = Ok (normal ratio center (n + k)).
Proof.
  intros min max ratio center fuel.
  induction fuel as [| fuel IH]; intros n k Hratio Hk Hrange Hfirst; [lia |].
  cbn [gaussian_loop].
  replace (Rltb ratio 0) with false
    by (unfold Rltb; destruct (Rlt_dec ratio 0); [lra | reflexivity]).
  destruct k as [| k].
  - rewrite Nat.add_0_r in *. destruct Hrange as [Hlo Hhi].
    now rewrite (Rltb_intro _ _ Hlo), (Rltb_intro _ _ Hhi).
  - destruct (Rltb min (normal ratio center n) && Rltb (normal ratio center n) max)
      eqn:Hin.
    + exfalso. apply (Hfirst 0%nat); [lia |]. rewrite Nat.add_0_r.
      apply andb_prop in Hin. destruct Hin as [Hlo Hhi].
      apply Rltb_true in Hlo, Hhi. lra.
    + rewrite Nat.add_succ_r in *. rewrite <- Nat.add_succ_l. apply IH.
      * exact Hratio.
      * lia.
      * rewrite Nat.add_succ_l. exact Hrange.
      * intros m Hm. rewrite Nat.add_succ_l, <- Nat.add_succ_r. apply Hfirst. lia.
Qed.

Lemma gaussian_loop_never :
  forall min max ratio center fuel n,
    0 <= ratio -> max <= min ->
    gaussian_loop normal min max ratio center fuel n = OutOfFuel.
Proof.
  intros min max ratio center fuel.
  induction fuel as [| fuel IH]; intros n Hratio Hempty; [reflexivity |].
  cbn [gaussian_loop].
  replace (Rltb ratio 0) with false
    by (unfold Rltb; destruct (Rlt_dec ratio 0); [lra | reflexivity]).
  destruct (Rltb min (normal ratio center n) && Rltb (normal ratio center n) max)
    eqn:Hin; [| now apply IH].
  apply andb_prop in Hin. destruct Hin as [Hlo Hhi].
  apply Rltb_true in Hlo, Hhi. lra.
Qed.
End GaussianFacts.

(** X14.  For a positive [sigma], [gaussian] returns [x] within [fuel]
    rounds exactly when [x] is the first draw strictly between [min]
    and [max] and it comes within these rounds; the draws are made with
    centre [(max+min)/2] and scale [|max-min|/(2 sigma)]. *)
Theorem gaussian_first_in_range :
  forall (normal : R -> R -> nat -> R) (fuel : nat) (min max sigma x : R),
    (0 < sigma)%R ->
    let sample n := normal (Rabs (max - min) * (1 / 2) / sigma)%R
                         ((max + min) * (1 / 2))%R n in
    gaussian normal fuel min max sigma = Ok x
    <-> exists k, (k < fuel)%nat
                  /\ x = sample k
                  /\ (min < x < max)%R
                  /\ forall m, (m < k)%nat -> ~ (min < sample m < max)%R.
Proof.
  intros normal fuel min max sigma x Hsigma sample. subst sample. cbv beta.
  unfold gaussian. rewrite fdiv_ok by lra. cbn [bind]. split.
  - intros Hrun. apply gaussian_loop_first in Hrun. exact Hrun.
  - intros (k & Hk & -> & Hrange & Hfirst).
    apply (gaussian_loop_found normal min max _ _ fuel 0 k).
    + apply Rmult_le_pos; [| apply Rlt_le, Rinv_0_lt_compat; exact Hsigma].
      apply Rmult_le_pos; [apply Rabs_pos | lra].
    + exact Hk.
    + exact Hrange.
    + exact Hfirst.
Qed.

(** Between 0 and 6 with the default [sigma] the third draw, the
    centre, is the first in range. *)
Lemma gaussian_first_in_range_witness :
  gaussian third_draw 5 0 6 3 = Ok ((6 + 0) * (1 / 2))%R.
Proof.
  assert (Hsigma : (0 < 3)%R) by lra.
  apply (proj2 (gaussian_first_in_range third_draw 5 0 6 3 _ Hsigma)).
  exists 2%nat. unfold third_draw.
  replace (Rabs (6 - 0)) with 6%R by (rewrite Rabs_right; lra).
  split; [lia |]. split; [reflexivity |]. split; [lra |].
  intros [| [| m]] Hm; [lra | lra | lia].
Defined.

(** X15.  With [max <= min] and a positive [sigma], [gaussian] never
    returns: no draw lies strictly between [min] and [max], and the
    loop has no other exit. *)
Theorem gaussian_empty_range :
  forall (normal : R -> R -> nat -> R) (fuel : nat) (min max sigma : R),
    (0 < sigma)%R -> (max <= min)%R ->
    gaussian normal fuel min max sigma = OutOfFuel.
Proof.
  intros normal fuel min max sigma Hsigma Hempty.
  unfold gaussian. rewrite fdiv_ok by lra. cbn [bind].
  apply gaussian_loop_never; [| exact Hempty].
  apply Rmult_le_pos; [| apply Rlt_le, Rinv_0_lt_compat; exact Hsigma].
  apply Rmult_le_pos; [apply Rabs_pos | lra].
Qed.

Lemma gaussian_empty_range_witness :
  gaussian third_draw 100 2 1 3 = OutOfFuel.
Proof.
  apply gaussian_empty_range; lra.
Defined.

(** ** [estimate_volume] *)

Section EstimateVolumeFacts.
Context {ES : ElementService}.
Local Open Scope R_scope.

Lemma cube_le : forall x y, 0 <= x -> x <= y -> x ^ 3 <= y ^ 3.
Proof. intros x y Hx Hxy. apply pow_incr. lra. Qed.

Lemma estimate_fold_between :
  forall (rand_u : R -> R -> nat -> R) (todo : list (nat * (Z * string)))
         (low mid high : R),
    (forall a b n, a <= b -> a <= rand_u a b n <= b) ->
    Forall (fun '(_, (numIon, specie)) =>
              (0 <= numIon)%Z
              /\ 0 <= Q2R (covalent_radius specie) <= Q2R (vdw_radius specie))
           todo ->
    low <= mid <= high ->
    let step (draw : R -> R -> nat -> R) :=
      fun volume '(n, (numIon, specie)) =>
        volume + IZR numIon * 4 / 3 * PI
                 * draw (Q2R (covalent_radius specie)) (Q2R (vdw_radius specie)) n ^ 3 in
    fold_left (step (fun a _ _ => a)) todo low
    <= fold_left (step rand_u) todo mid
    <= fold_left (step (fun _ b _ => b)) todo high.
Proof.
  intros rand_u todo low mid high Hdraw Htodo Hacc step. subst step.
  revert low mid high Hacc.
  induction Htodo as [| [n [numIon specie]] todo [Hion [Hcov Hvdw]] Hrest IH];
    intros low mid high Hacc; [exact Hacc |].
  cbn [fold_left]. apply IH.
  pose proof (Hdraw _ _ n Hvdw) as [Hlo Hhi].
  set (r := rand_u (Q2R (covalent_radius specie)) (Q2R (vdw_radius specie)) n) in *.
  assert (Hr : 0 <= r) by lra.
  pose proof (cube_le _ _ Hcov Hlo) as Hlow.
  pose proof (cube_le _ _ Hr Hhi) as Hhigh.
  assert (Hk : 0 <= IZR numIon * 4 / 3 * PI).
  { pose proof PI_RGT_0. apply IZR_le in Hion.
    apply Rmult_le_pos; [| lra]. lra. }
  split; nra.
Qed.
End EstimateVolumeFacts.

(** X16.  For counts that are not negative, covalent radii between 0
    and the van der Waals radii, a factor that is not negative and
    draws of [rand_u(a, b)] that lie between [a] and [b], the volume
    that [estimate_volume] returns lies between the volume it gives to
    spheres of the covalent radii and the volume it gives to spheres of
    the van der Waals radii. *)
Theorem estimate_volume_between :
  forall (ES : ElementService) (rand_u : R -> R -> nat -> R)
         (numIons : list Z) (species : list string) (factor : R),
    (forall a b n, (a <= b)%R -> (a <= rand_u a b n <= b)%R) ->
    Forall (fun numIon => (0 <= numIon)%Z) numIons ->
    Forall (fun specie =>
              (0 <= Q2R (covalent_radius specie) <= Q2R (vdw_radius specie))%R)
           species ->
    (0 <= factor)%R ->
    (estimate_volume (fun a _ _ => a) numIons species factor
     <= estimate_volume rand_u numIons species factor
     <= estimate_volume (fun _ b _ => b) numIons species factor)%R.
Proof.
  intros ES rand_u numIons species factor Hdraw Hions Hradii Hfactor.
  unfold estimate_volume.
  assert (Htodo : Forall (fun '(_, (numIon, specie)) =>
                            (0 <= numIon)%Z
                            /\ (0 <= Q2R (covalent_radius specie)
                                <= Q2R (vdw_radius specie))%R)
                         (enumerate (combine numIons species))).
  { apply Forall_forall. intros [n [numIon specie]] Hin.
    apply In_enumerate in Hin. apply nth_error_In in Hin.
    rewrite Forall_forall in Hions, Hradii. split.
    - apply Hions. eapply in_combine_l. eassumption.
    - apply Hradii. eapply in_combine_r. eassumption. }
  pose proof (estimate_fold_between rand_u _ 0%R 0%R 0%R Hdraw Htodo
                (conj (Rle_refl 0) (Rle_refl 0))) as [Hlow Hhigh].
  cbv zeta in Hlow, Hhigh.
  split; apply Rmult_le_compat_l; assumption.
Qed.

(** Four carbon atoms, the draw half-way between the two radii. *)
Lemma estimate_volume_between_witness :
  (@estimate_volume carbon_table (fun a _ _ => a) [4%Z] ["C"%string] 1
   <= @estimate_volume carbon_table (fun a b _ => (a + b) / 2) [4%Z] ["C"%string] 1
   <= @estimate_volume carbon_table (fun _ b _ => b) [4%Z] ["C"%string] 1)%R.
Proof.
  apply (estimate_volume_between carbon_table (fun a b _ => ((a + b) / 2)%R)).
  - intros a b n Hab. lra.
  - repeat constructor. discriminate.
  - repeat constructor; unfold Q2R; simpl; lra.
  - lra.
Defined.

(** ** The upper format of [para2matrix] *)

Section UpperFormat.
Local Open Scope R_scope.

Lemma gram_swap : forall alpha beta gamma, gram gamma beta alpha = gram alpha beta gamma.
Proof. intros. unfold gram. ring. Qed.

Lemma para2matrix_upper :
  forall a b c alpha beta gamma,
    sin alpha <> 0 ->
    para2matrix (a, b, c, alpha, beta, gamma) true upper
    = (m00 <- math_sqrt (a ^ 2 * gram alpha beta gamma / sin alpha ^ 2) ;;
       Ok ((m00, a * (cos gamma - cos beta * cos alpha) / sin alpha, a * cos beta),
           (0, b * sin alpha, b * cos alpha), (0, 0, c))).
Proof.
  intros a b c alpha beta gamma Hsin.
  unfold para2matrix. rewrite (fdiv_ok _ _ Hsin). cbn [bind].
  pose proof (lower_radicand_gram a b a gamma beta alpha Hsin) as Hrad.
  unfold lower_radicand in Hrad. rewrite gram_swap in Hrad.
  now rewrite Hrad.
Qed.
End UpperFormat.

(** X17.  For a positive edge [a] and a positive [sin alpha],
    [para2matrix] in the upper format raises the math domain error
    exactly when the Gram determinant [1 - cos^2 alpha - cos^2 beta -
    cos^2 gamma + 2 cos alpha cos beta cos gamma] is negative;
    otherwise it returns an upper-triangular matrix whose determinant
    is the cell volume [a b c sqrt(Gram determinant)]. *)
Theorem para2matrix_upper_volume :
  forall a b c alpha beta gamma : R,
    (0 < a)%R -> (0 < sin alpha)%R ->
    let p := (a, b, c, alpha, beta, gamma) in
    (para2matrix p true upper = Raise ValueError
     <-> (gram alpha beta gamma < 0)%R)
    /\ ((0 <= gram alpha beta gamma)%R ->
        exists M,
          para2matrix p true upper = Ok M
          /\ upper_triangular M
          /\ det3 M = (a * b * c * sqrt (gram alpha beta gamma))%R).
Proof.
  intros a b c alpha beta gamma Ha Hsin p. subst p.
  assert (Hsin0 : sin alpha <> 0%R) by lra.
  rewrite (para2matrix_upper a b c alpha beta gamma Hsin0).
  assert (Hscale : (0 < a ^ 2 / sin alpha ^ 2)%R).
  { apply Rmult_lt_0_compat; [nra |]. apply Rinv_0_lt_compat. nra. }
  assert (Hrad : (a ^ 2 * gram alpha beta gamma / sin alpha ^ 2
                  = a ^ 2 / sin alpha ^ 2 * gram alpha beta gamma)%R)
    by (field; exact Hsin0).
  split; [split |].
  - intros Herr.
    destruct (Rlt_dec (gram alpha beta gamma) 0) as [Hneg | Hpos]; [exact Hneg |].
    rewrite math_sqrt_ok in Herr; [discriminate Herr |].
    rewrite Hrad. apply Rmult_le_pos; lra.
  - intros Hneg. rewrite math_sqrt_error; [reflexivity |].
    rewrite Hrad. nra.
  - intros Hgram. rewrite math_sqrt_ok by (rewrite Hrad; apply Rmult_le_pos; lra).
    cbn [bind]. eexists. split; [reflexivity |].
    split; [unfold upper_triangular; auto |].
    assert (Hsq : sqrt (a ^ 2 * gram alpha beta gamma / sin alpha ^ 2)
                  = (a * sqrt (gram alpha beta gamma) / sin alpha)%R).
    { apply sqrt_lem_1.
      - rewrite Hrad. apply Rmult_le_pos; lra.
      - apply Rmult_le_pos; [apply Rmult_le_pos; [lra | apply sqrt_pos] |].
        apply Rlt_le, Rinv_0_lt_compat. exact Hsin.
      - pose proof (sqrt_sqrt _ Hgram) as Hss.
        set (g := sqrt (gram alpha beta gamma)) in *.
        rewrite <- Hss. field. exact Hsin0. }
    unfold det3. rewrite Hsq. field. exact Hsin0.
Qed.

Lemma para2matrix_upper_volume_witness :
  exists M,
    para2matrix (2, 3, 4, PI / 2, PI / 2, PI / 2)%R true upper = Ok M
    /\ upper_triangular M
    /\ det3 M = (2 * 3 * 4 * sqrt (gram (PI / 2) (PI / 2) (PI / 2)))%R.
Proof.
  assert (Ha : (0 < 2)%R) by lra.
  assert (Hsin : (0 < sin (PI / 2))%R) by (rewrite sin_PI2; lra).
  apply (proj2 (para2matrix_upper_volume 2 3 4 (PI / 2) (PI / 2) (PI / 2) Ha Hsin)).
  unfold gram. rewrite cos_PI2. lra.
Defined.

(** ** The crystal systems of [generate_lattice] *)

(** X18.  The parameters that [generate_lattice] returns obey the
    crystal system of the space group: [alpha] is a right angle from
    group 3 on and [beta] from group 16 on; [gamma] is a right angle
    from group 3 on except in groups 143 to 194, where it is
    [2 pi / 3]; [a = b] from group 75 on and [a = b = c] from group 195
    on. *)
Theorem generate_lattice_crystal_system :
  forall (sg : Z) (volume minvec minangle max_ratio : R) (maxattempts : nat)
         (draws : nat -> draw) (a b c alpha beta gamma : R),
    generate_lattice sg volume minvec minangle max_ratio maxattempts draws
    = Ok (Some (a, b, c, alpha, beta, gamma)) ->
    ((3 <= sg)%Z -> alpha = (PI / 2)%R)
    /\ ((16 <= sg)%Z -> beta = (PI / 2)%R)
    /\ ((3 <= sg <= 142 \/ 195 <= sg)%Z -> gamma = (PI / 2)%R)
    /\ ((143 <= sg <= 194)%Z -> gamma = (PI / 3 * 2)%R)
    /\ ((75 <= sg)%Z -> a = b)
    /\ ((195 <= sg)%Z -> b = c).
Proof.
  intros sg volume minvec minangle max_ratio maxattempts draws
         a b c alpha beta gamma Hrun.
  apply generate_lattice_some in Hrun. destruct Hrun as (k & Hsample & _).
  unfold sample_para in Hsample.
  destruct (sg <=? 2)%Z eqn:H2;
    [apply Z.leb_le in H2; repeat split; intros; lia | apply Z.leb_gt in H2].
  destruct (sg <=? 15)%Z eqn:H15; [apply Z.leb_le in H15 | apply Z.leb_gt in H15].
  { bind_inv. repeat split; intros; solve [reflexivity | lia]. }
  destruct (sg <=? 74)%Z eqn:H74; [apply Z.leb_le in H74 | apply Z.leb_gt in H74].
  { bind_inv. repeat split; intros; solve [reflexivity | lia]. }
  destruct (sg <=? 142)%Z eqn:H142; [apply Z.leb_le in H142 | apply Z.leb_gt in H142].
  { unfold square_base in Hsample. destruct (vec (draws k)) as [[v0 v1] v2].
    bind_inv. repeat split; intros; solve [reflexivity | lia]. }
  destruct (sg <=? 194)%Z eqn:H194; [apply Z.leb_le in H194 | apply Z.leb_gt in H194].
  { unfold square_base in Hsample. destruct (vec (draws k)) as [[v0 v1] v2].
    bind_inv. repeat split; intros; solve [reflexivity | lia]. }
  bind_inv. repeat split; intros; solve [reflexivity | lia].
Qed.

(** The cubic cell of volume 1 in group 230. *)
Lemma generate_lattice_crystal_system_witness :
  ((3 <= 230)%Z -> PI / 2 = PI / 2)%R
  /\ ((16 <= 230)%Z -> PI / 2 = PI / 2)%R
  /\ ((3 <= 230 <= 142 \/ 195 <= 230)%Z -> PI / 2 = PI / 2)%R
  /\ ((143 <= 230 <= 194)%Z -> PI / 2 = PI / 3 * 2)%R
  /\ ((75 <= 230)%Z -> 1 = 1)%R
  /\ ((195 <= 230)%Z -> 1 = 1)%R.
Proof.
  exact (generate_lattice_crystal_system 230 1 (/ 2) (PI / 6) 10 100
           (fun _ => {| shear := zeros3; vec := (1, 1, 1); gauss := 0 |})
           1 1 1 (PI / 2) (PI / 2) (PI / 2) (generate_lattice_unit_cube _))%R.
Defined.

(** ** [generate_lattice_2D] and [generate_lattice_1D] *)

Section LayerFacts.
Local Open Scope R_scope.

Lemma gram_right_left :
  forall alpha, gram alpha (PI / 2) (PI / 2) = sin alpha ^ 2.
Proof.
  intros alpha. unfold gram. rewrite cos_PI2.
  pose proof (sin2_cos2' alpha). nra.
Qed.

Lemma gram_right_last :
  forall gamma, gram (PI / 2) (PI / 2) gamma = sin gamma ^ 2.
Proof.
  intros gamma. unfold gram. rewrite cos_PI2.
  pose proof (sin2_cos2' gamma). nra.
Qed.

Lemma gram_right_angles : gram (PI / 2) (PI / 2) (PI / 2) = 1.
Proof. rewrite gram_right_last, sin_PI2. ring. Qed.

Lemma split_area_product :
  forall ab a b x y,
    split_area ab a b = Ok (x, y) -> 0 <= ab -> x * y = ab.
Proof.
  intros ab a b x y Hrun Hab. unfold split_area in Hrun. bind_inv.
  apply fdiv_inv in E, E1. apply math_sqrt_inv in E0, E2.
  destruct E as [Hb ->], E1 as [Hratio ->], E0 as [Hx ->], E2 as [Hy ->].
  rewrite <- sqrt_mult by assumption.
  assert (Ha : a <> 0).
  { intros Ha. apply Hratio. rewrite Ha. field. exact Hb. }
  replace (ab * (a / b) * (ab / (a / b))) with (ab * ab)
    by (field; split; assumption).
  now apply sqrt_square.
Qed.

Lemma triclinic_layer_volume :
  forall volume thickness1 d a b c alpha beta gamma,
    triclinic_layer volume thickness1 d = Ok (a, b, c, alpha, beta, gamma) ->
    0 <= volume -> 0 < c ->
    0 <= gram alpha beta gamma
    /\ a * b * c * sqrt (gram alpha beta gamma) = volume.
Proof.
  intros volume thickness1 d a b c alpha beta gamma Hrun Hvol Hc.
  unfold triclinic_layer in Hrun. bind_inv.
  apply math_sqrt_inv in E0. apply fdiv_inv in E1, E2.
  destruct E0 as [Hgram ->], E1 as [Hx ->], E2 as [Hcx ->].
  fold (gram alpha beta gamma) in *.
  split; [exact Hgram |].
  set (x := sqrt (gram alpha beta gamma)) in *.
  assert (Hxpos : 0 < x) by (pose proof (sqrt_pos (gram alpha beta gamma)); fold x in H; lra).
  assert (Ht : 0 < thickness1).
  { apply Rmult_lt_reg_r with (r := / x); [now apply Rinv_0_lt_compat |].
    rewrite Rmult_0_l. exact Hc. }
  assert (Hab : 0 <= volume / (thickness1 / x * x)).
  { replace (thickness1 / x * x) with thickness1 by (field; exact Hx).
    apply Rmult_le_pos; [exact Hvol |]. apply Rlt_le, Rinv_0_lt_compat. exact Ht. }
  apply split_area_product in E3; [| exact Hab].
  rewrite E3. field. split; lra.
Qed.

Lemma monoclinic_layer_volume :
  forall volume thickness1 a b abc0 abc1 ab angle,
    fdiv volume (thickness1 * sin angle) = Ok ab ->
    split_area ab a b = Ok (abc0, abc1) ->
    0 <= volume -> 0 < thickness1 -> 0 < angle < PI ->
    0 <= sin angle ^ 2
    /\ abc0 * abc1 * thickness1 * sqrt (sin angle ^ 2) = volume.
Proof.
  intros volume thickness1 a b abc0 abc1 ab angle Hab Hsplit Hvol Ht Hangle.
  assert (Hsin : 0 < sin angle) by (apply sin_gt_0; lra).
  apply fdiv_inv in Hab. destruct Hab as [Hx ->].
  split; [nra |].
  rewrite sqrt_pow2_pos by lra.
  apply split_area_product in Hsplit.
  - rewrite Hsplit. field. split; lra.
  - apply Rmult_le_pos; [exact Hvol |]. apply Rlt_le, Rinv_0_lt_compat. nra.
Qed.

Lemma orthorhombic_layer_volume :
  forall volume thickness1 d a b c alpha beta gamma,
    orthorhombic_layer volume thickness1 d = Ok (a, b, c, alpha, beta, gamma) ->
    0 <= gram alpha beta gamma
    /\ a * b * c * sqrt (gram alpha beta gamma) = volume.
Proof.
  intros volume thickness1 d a b c alpha beta gamma Hrun.
  unfold orthorhombic_layer in Hrun. destruct (vec d) as [[vec0 vec1] vec2].
  bind_inv.
  apply fdiv_inv in E, E0. apply math_sqrt_inv in E1.
  destruct E as [Hvec ->], E0 as [Hden ->], E1 as [Hrad ->].
  rewrite gram_right_angles, sqrt_1. split; [lra |].
  set (ratio := Rabs (vec0 / vec1)) in *.
  pose proof (sqrt_sqrt _ Hrad) as Hss.
  set (s := sqrt (volume / (c * ratio))) in *.
  replace (s * ratio * s * c * 1) with (s * s * (c * ratio)) by ring.
  rewrite Hss. field.
  split; intros H0; apply Hden; rewrite H0; ring.
Qed.

Lemma tetragonal_layer_volume :
  forall volume thickness1 a b c alpha beta gamma,
    tetragonal_layer volume thickness1 = Ok (a, b, c, alpha, beta, gamma) ->
    0 <= gram alpha beta gamma
    /\ a * b * c * sqrt (gram alpha beta gamma) = volume.
Proof.
  intros volume thickness1 a b c alpha beta gamma Hrun.
  unfold tetragonal_layer in Hrun. bind_inv.
  apply fdiv_inv in E. apply math_sqrt_inv in E0.
  destruct E as [Ht ->], E0 as [Hrad ->].
  rewrite gram_right_angles, sqrt_1. split; [lra |].
  rewrite Rmult_1_r, sqrt_sqrt by exact Hrad. field. exact Ht.
Qed.

Lemma hexagonal_layer_volume :
  forall volume thickness1 a b c alpha beta gamma,
    hexagonal_layer volume thickness1 = Ok (a, b, c, alpha, beta, gamma) ->
    0 <= gram alpha beta gamma
    /\ a * b * c * sqrt (gram alpha beta gamma) = volume.
Proof.
  intros volume thickness1 a b c alpha beta gamma Hrun.
  unfold hexagonal_layer in Hrun. bind_inv.
  apply fdiv_inv in E, E0. apply math_sqrt_inv in E1.
  destruct E as [Hx ->], E0 as [Ht ->], E1 as [Hrad ->].
  rewrite gram_hexagonal.
  assert (H3 : 0 <= sqrt 3 / 2) by (pose proof (sqrt_pos 3); lra).
  split; [nra |].
  rewrite sqrt_pow2_pos by exact H3.
  rewrite sqrt_sqrt by exact Hrad.
  assert (Hs3 : sqrt 3 <> 0) by (intros H0; apply Hx; rewrite H0; field).
  field. split; assumption.
Qed.

Lemma sample_para_2D_volume :
  forall num volume thickness d a b c alpha beta gamma,
    sample_para_2D num volume thickness d = Ok (a, b, c, alpha, beta, gamma) ->
    (num <= 80)%Z -> 0 <= volume -> 0 < c ->
    0 < alpha < PI -> 0 < gamma < PI ->
    0 <= gram alpha beta gamma
    /\ a * b * c * sqrt (gram alpha beta gamma) = volume.
Proof.
  intros num volume thickness d a b c alpha beta gamma Hrun Hnum Hvol Hc Halpha Hgamma.
  unfold sample_para_2D in Hrun.
  destruct (match thickness with
            | None => chosen_thickness volume (thickness_vector d)
            | Some t => Ok t
            end) as [thickness1 | | |]; cbn [bind] in Hrun; try discriminate.
  destruct (num <=? 2)%Z.
  { now apply (triclinic_layer_volume volume thickness1 (others d)). }
  destruct (num <=? 18)%Z.
  { destruct (vec (others d)) as [[a0 b0] c0].
    destruct (num <? 8)%Z.
    - destruct (fdiv volume (thickness1 * sin (gauss (others d)))) as [ab | | |] eqn:Hab;
        cbn [bind] in Hrun; try discriminate.
      destruct (split_area ab a0 b0) as [[abc0 abc1] | | |] eqn:Hsplit;
        cbn [bind] in Hrun; try discriminate.
      injection Hrun as <- <- <- <- <- <-.
      rewrite gram_right_last.
      exact (monoclinic_layer_volume _ _ _ _ _ _ _ _ Hab Hsplit Hvol Hc Hgamma).
    - destruct (fdiv volume (thickness1 * sin (gauss (others d)))) as [ab | | |] eqn:Hab;
        cbn [bind] in Hrun; try discriminate.
      destruct (split_area ab a0 b0) as [[abc0 abc1] | | |] eqn:Hsplit;
        cbn [bind] in Hrun; try discriminate.
      injection Hrun as <- <- <- <- <- <-.
      rewrite gram_right_left.
      exact (monoclinic_layer_volume _ _ _ _ _ _ _ _ Hab Hsplit Hvol Hc Halpha). }
  destruct (num <=? 48)%Z.
  { now apply (orthorhombic_layer_volume volume thickness1 (others d)). }
  destruct (num <=? 64)%Z.
  { now apply (tetragonal_layer_volume volume thickness1). }
  destruct (num <=? 80)%Z eqn:H80; [| apply Z.leb_gt in H80; lia].
  now apply (hexagonal_layer_volume volume thickness1).
Qed.

Lemma sample_para_1D_volume :
  forall num volume area d a b c alpha beta gamma,
    sample_para_1D num volume area d = Ok (a, b, c, alpha, beta, gamma) ->
    (num <= 75)%Z -> 0 <= volume -> 0 < c ->
    0 < gamma < PI ->
    0 <= gram alpha beta gamma
    /\ a * b * c * sqrt (gram alpha beta gamma) = volume.
Proof.
  intros num volume area d a b c alpha beta gamma Hrun Hnum Hvol Hc Hgamma.
  unfold sample_para_1D in Hrun.
  destruct (match area with
            | None => chosen_thickness volume (thickness_vector d)
            | Some area => fdiv volume area
            end) as [thickness1 | | |]; cbn [bind] in Hrun; try discriminate.
  destruct (num <=? 2)%Z.
  { now apply (triclinic_layer_volume volume thickness1 (others d)). }
  destruct (num <=? 12)%Z.
  { destruct (vec (others d)) as [[a0 b0] c0].
    pose proof PI_RGT_0 as Hpi.
    destruct (num <? 8)%Z.
    - destruct (fdiv volume (thickness1 * sin (PI / 2))) as [ab | | |] eqn:Hab;
        cbn [bind] in Hrun; try discriminate.
      destruct (split_area ab a0 b0) as [[abc0 abc1] | | |] eqn:Hsplit;
        cbn [bind] in Hrun; try discriminate.
      injection Hrun as <- <- <- <- <- <-.
      rewrite gram_right_last.
      apply (monoclinic_layer_volume _ _ _ _ _ _ _ _ Hab Hsplit Hvol Hc). lra.
    - destruct (fdiv volume (thickness1 * sin (gauss (others d)))) as [ab | | |] eqn:Hab;
        cbn [bind] in Hrun; try discriminate.
      destruct (split_area ab a0 b0) as [[abc0 abc1] | | |] eqn:Hsplit;
        cbn [bind] in Hrun; try discriminate.
      injection Hrun as <- <- <- <- <- <-.
      rewrite gram_right_last.
      exact (monoclinic_layer_volume _ _ _ _ _ _ _ _ Hab Hsplit Hvol Hc Hgamma). }
  destruct (num <=? 22)%Z.
  { now apply (orthorhombic_layer_volume volume thickness1 (others d)). }
  destruct (num <=? 41)%Z.
  { now apply (tetragonal_layer_volume volume thickness1). }
  destruct (num <=? 75)%Z eqn:H75; [| apply Z.leb_gt in H75; lia].
  now apply (hexagonal_layer_volume volume thickness1).
Qed.

Lemma sampling_loop_some :
  forall sample minvec minangle max_ratio draws left n p,
    sampling_loop sample minvec minangle max_ratio draws left n = Ok (Some p) ->
    exists k,
      sample (draws k) = Ok p
      /\ meets_requirements p minvec minangle max_ratio = Ok true.
Proof.
  intros sample minvec minangle max_ratio draws left.
  induction left as [| left IH]; intros n p Hrun; simpl in Hrun.
  - discriminate.
  - bind_inv.
    + exists n. split; assumption.
    + eapply IH. eassumption.
Qed.

(** What the acceptance test gives for the conversion into a matrix. *)
Lemma accepted_layer_det :
  forall a b c alpha beta gamma volume minvec minangle max_ratio,
    0 < minvec -> 0 <= minangle ->
    meets_requirements (a, b, c, alpha, beta, gamma) minvec minangle max_ratio
    = Ok true ->
    (0 < c -> 0 < alpha < PI -> 0 < gamma < PI ->
     0 <= gram alpha beta gamma
     /\ a * b * c * sqrt (gram alpha beta gamma) = volume) ->
    accepted (a, b, c, alpha, beta, gamma) minvec minangle max_ratio
    /\ exists M,
         para2matrix (a, b, c, alpha, beta, gamma) true lower = Ok M
         /\ det3 M = volume.
Proof.
  intros a b c alpha beta gamma volume minvec minangle max_ratio
         Hvec Hangle Hgood Hvolume.
  apply meets_requirements_inv in Hgood.
  destruct Hgood as ((Ha & Hb & Hc) & Hsmall & (Halpha & Hbeta & Hgamma)
                     & Hr1 & Hr2 & Hr3 & Hr4 & Hr5 & Hr6).
  split.
  - unfold accepted. unfold smallvec in Hsmall.
    repeat split; try lra; tauto.
  - destruct Hvolume as (Hgram & Hvol); [lra | lra | lra |].
    destruct (det3_lower a b c alpha beta gamma) as (M & HM & Hdet);
      [lra | apply sin_gt_0; lra | exact Hgram |].
    exists M. split; [exact HM | now rewrite Hdet].
Qed.

(** A square layer cell of volume 2 and thickness 2 passes at the
    first round. *)
Lemma square_cell_accepted :
  meets_requirements (1, 1, 2, PI / 2, PI / 2, PI / 2) (/ 2) (PI / 6) 10 = Ok true.
Proof.
  pose proof PI_RGT_0 as Hpi.
  unfold meets_requirements, smallvec.
  rewrite fdiv_ok by lra. cbn [bind].
  rewrite !Rmax_same, cos_PI2.
  replace (Rmin (1 * 0) (Rmin (1 * 0) (2 * 0))) with 0
    by (rewrite !Rmult_0_r, !Rmin_same; reflexivity).
  repeat (rewrite Rltb_intro by lra). reflexivity.
Qed.

Lemma generate_lattice_2D_square :
  generate_lattice_2D 60 2 (Some 2) (/ 2) (PI / 6) 10 100 unit_draws
  = Ok (Some (1, 1, 2, PI / 2, PI / 2, PI / 2)).
Proof.
  unfold generate_lattice_2D. cbn [sampling_loop].
  unfold sample_para_2D. cbn [bind Z.leb Z.compare Pos.compare Pos.compare_cont].
  unfold tetragonal_layer. rewrite fdiv_ok by lra. cbn [bind].
  replace (2 / 2) with 1 by field.
  rewrite math_sqrt_ok by lra. rewrite sqrt_1. cbn [bind].
  rewrite square_cell_accepted. reflexivity.
Qed.

Lemma generate_lattice_1D_square :
  generate_lattice_1D 30 2 (Some 1) (/ 2) (PI / 6) 10 100 unit_draws
  = Ok (Some (1, 1, 2, PI / 2, PI / 2, PI / 2)).
Proof.
  unfold generate_lattice_1D. cbn [sampling_loop].
  unfold sample_para_1D. rewrite fdiv_ok by lra.
  cbn [bind Z.leb Z.compare Pos.compare Pos.compare_cont].
  unfold tetragonal_layer. replace (2 / 1) with 2 by field.
  rewrite fdiv_ok by lra. cbn [bind].
  replace (2 / 2) with 1 by field.
  rewrite math_sqrt_ok by lra. rewrite sqrt_1. cbn [bind].
  rewrite square_cell_accepted. reflexivity.
Qed.

Lemma generate_lattice_1D_rod5 :
  generate_lattice_1D 5 2 (Some 1) (/ 2) (PI / 6) 10 100 unit_draws
  = Ok (Some (1, 1, 2, PI / 2, PI / 2, PI / 2)).
Proof.
  unfold generate_lattice_1D. cbn [sampling_loop].
  unfold sample_para_1D. rewrite fdiv_ok by lra.
  cbn [bind Z.leb Z.ltb Z.compare Pos.compare Pos.compare_cont
       unit_draws others vec].
  replace (2 / 1) with 2 by field. rewrite sin_PI2.
  rewrite fdiv_ok by lra. cbn [bind].
  replace (2 / (2 * 1)) with 1 by field.
  unfold split_area. rewrite fdiv_ok by lra. cbn [bind].
  replace (1 / 1) with 1 by field. rewrite Rmult_1_r.
  rewrite math_sqrt_ok by lra. rewrite sqrt_1. cbn [bind].
  rewrite fdiv_ok by lra. cbn [bind]. replace (1 / 1) with 1 by field.
  rewrite math_sqrt_ok by lra. rewrite sqrt_1. cbn [bind].
  rewrite square_cell_accepted. reflexivity.
Qed.
End LayerFacts.

(** X19.  For a layer group (1 to 80), a volume that is not negative, a
    positive [minvec] and a [minangle] that is not negative, the
    parameters that [generate_lattice_2D] returns pass the acceptance
    test and convert without error into a matrix whose determinant is
    the volume asked for; from group 3 on a thickness that was given is
    the third edge. *)
Theorem generate_lattice_2D_volume :
  forall (num : Z) (volume : R) (thickness : option R)
         (minvec minangle max_ratio : R) (maxattempts : nat)
         (draws : nat -> layer_draw) (a b c alpha beta gamma : R),
    (num <= 80)%Z -> (0 <= volume)%R -> (0 < minvec)%R -> (0 <= minangle)%R ->
    generate_lattice_2D num volume thickness minvec minangle max_ratio
      maxattempts draws = Ok (Some (a, b, c, alpha, beta, gamma)) ->
    accepted (a, b, c, alpha, beta, gamma) minvec minangle max_ratio
    /\ (exists M,
          para2matrix (a, b, c, alpha, beta, gamma) true lower = Ok M
          /\ det3 M = volume)
    /\ (forall given, (3 <= num)%Z -> thickness = Some given -> c = given).
Proof.
  intros num volume thickness minvec minangle max_ratio maxattempts draws
         a b c alpha beta gamma Hnum Hvol Hvec Hangle Hrun.
  unfold generate_lattice_2D in Hrun.
  destruct maxattempts as [| m]; [discriminate |].
  apply sampling_loop_some in Hrun. destruct Hrun as (k & Hsample & Hgood).
  destruct (accepted_layer_det a b c alpha beta gamma volume minvec minangle
              max_ratio Hvec Hangle Hgood) as (Hacc & HM).
  { intros Hc Halpha Hgamma.
    exact (sample_para_2D_volume _ _ _ _ _ _ _ _ _ _ Hsample Hnum Hvol Hc
             Halpha Hgamma). }
  split; [exact Hacc |]. split; [exact HM |].
  intros given H3 ->. unfold sample_para_2D in Hsample. cbn [bind] in Hsample.
  replace (num <=? 2)%Z with false in Hsample by (symmetry; apply Z.leb_gt; lia).
  destruct (num <=? 18)%Z.
  { destruct (vec (others (draws k))) as [[a0 b0] c0].
    destruct (num <? 8)%Z; bind_inv; reflexivity. }
  destruct (num <=? 48)%Z.
  { unfold orthorhombic_layer in Hsample.
    destruct (vec (others (draws k))) as [[vec0 vec1] vec2].
    bind_inv. reflexivity. }
  destruct (num <=? 64)%Z.
  { unfold tetragonal_layer in Hsample. bind_inv. reflexivity. }
  destruct (num <=? 80)%Z.
  { unfold hexagonal_layer in Hsample. bind_inv. reflexivity. }
  injection Hsample as <- <- <- <- <- <-. reflexivity.
Qed.

Lemma generate_lattice_2D_volume_witness :
  exists M,
    para2matrix (1, 1, 2, PI / 2, PI / 2, PI / 2)%R true lower = Ok M
    /\ det3 M = 2%R.
Proof.
  pose proof PI_RGT_0 as Hpi.
  refine (proj1 (proj2 (generate_lattice_2D_volume 60 2 (Some 2%R) (/ 2) (PI / 6) 10
                          100 unit_draws 1 1 2 (PI / 2) (PI / 2) (PI / 2)
                          _ _ _ _ generate_lattice_2D_square))); [lia | lra ..].
Defined.

(** X20.  For a rod group (1 to 75), a volume that is not negative, a
    positive [minvec] and a [minangle] that is not negative, the
    parameters that [generate_lattice_1D] returns pass the acceptance
    test and convert without error into a matrix whose determinant is
    the volume asked for; from group 3 on, with an area given, the
    third edge is the volume divided by the area. *)
Theorem generate_lattice_1D_volume :
  forall (num : Z) (volume : R) (area : option R)
         (minvec minangle max_ratio : R) (maxattempts : nat)
         (draws : nat -> layer_draw) (a b c alpha beta gamma : R),
    (num <= 75)%Z -> (0 <= volume)%R -> (0 < minvec)%R -> (0 <= minangle)%R ->
    generate_lattice_1D num volume area minvec minangle max_ratio
      maxattempts draws = Ok (Some (a, b, c, alpha, beta, gamma)) ->
    accepted (a, b, c, alpha, beta, gamma) minvec minangle max_ratio
    /\ (exists M,
          para2matrix (a, b, c, alpha, beta, gamma) true lower = Ok M
          /\ det3 M = volume)
    /\ (forall given, (3 <= num)%Z -> area = Some given ->
                      c = (volume / given)%R).
Proof.
  intros num volume area minvec minangle max_ratio maxattempts draws
         a b c alpha beta gamma Hnum Hvol Hvec Hangle Hrun.
  unfold generate_lattice_1D in Hrun.
  destruct maxattempts as [| m]; [discriminate |].
  apply sampling_loop_some in Hrun. destruct Hrun as (k & Hsample & Hgood).
  destruct (accepted_layer_det a b c alpha beta gamma volume minvec minangle
              max_ratio Hvec Hangle Hgood) as (Hacc & HM).
  { intros Hc Halpha Hgamma.
    exact (sample_para_1D_volume _ _ _ _ _ _ _ _ _ _ Hsample Hnum Hvol Hc Hgamma). }
  split; [exact Hacc |]. split; [exact HM |].
  intros given H3 ->. unfold sample_para_1D in Hsample.
  destruct (fdiv volume given) as [thickness1 | | |] eqn:Hdiv;
    cbn [bind] in Hsample; try discriminate.
  apply fdiv_inv in Hdiv. destruct Hdiv as [_ ->].
  replace (num <=? 2)%Z with false in Hsample by (symmetry; apply Z.leb_gt; lia).
  destruct (num <=? 12)%Z.
  { destruct (vec (others (draws k))) as [[a0 b0] c0].
    destruct (num <? 8)%Z; bind_inv; reflexivity. }
  destruct (num <=? 22)%Z.
  { unfold orthorhombic_layer in Hsample.
    destruct (vec (others (draws k))) as [[vec0 vec1] vec2].
    bind_inv. reflexivity. }
  destruct (num <=? 41)%Z.
  { unfold tetragonal_layer in Hsample. bind_inv. reflexivity. }
  destruct (num <=? 75)%Z.
  { unfold hexagonal_layer in Hsample. bind_inv. reflexivity. }
  injection Hsample as <- <- <- <- <- <-. reflexivity.
Qed.

Lemma generate_lattice_1D_volume_witness :
  exists M,
    para2matrix (1, 1, 2, PI / 2, PI / 2, PI / 2)%R true lower = Ok M
    /\ det3 M = 2%R.
Proof.
  pose proof PI_RGT_0 as Hpi.
  refine (proj1 (proj2 (generate_lattice_1D_volume 30 2 (Some 1%R) (/ 2) (PI / 6) 10
                          100 unit_draws 1 1 2 (PI / 2) (PI / 2) (PI / 2)
                          _ _ _ _ generate_lattice_1D_square))); [lia | lra ..].
Defined.

(** X21.  For the rod groups 3 to 7 every angle that
    [generate_lattice_1D] returns is a right angle: the angle drawn for
    the unique axis a is never used. *)
Theorem generate_lattice_1D_right_angles :
  forall (num : Z) (volume : R) (area : option R)
         (minvec minangle max_ratio : R) (maxattempts : nat)
         (draws : nat -> layer_draw) (a b c alpha beta gamma : R),
    (3 <= num <= 7)%Z ->
    generate_lattice_1D num volume area minvec minangle max_ratio
      maxattempts draws = Ok (Some (a, b, c, alpha, beta, gamma)) ->
    alpha = (PI / 2)%R /\ beta = (PI / 2)%R /\ gamma = (PI / 2)%R.
Proof.
  intros num volume area minvec minangle max_ratio maxattempts draws
         a b c alpha beta gamma Hnum Hrun.
  unfold generate_lattice_1D in Hrun.
  destruct maxattempts as [| m]; [discriminate |].
  apply sampling_loop_some in Hrun. destruct Hrun as (k & Hsample & _).
  unfold sample_para_1D in Hsample.
  destruct (match area with
            | None => chosen_thickness volume (thickness_vector (draws k))
            | Some area => fdiv volume area
            end) as [thickness1 | | |]; cbn [bind] in Hsample; try discriminate.
  replace (num <=? 2)%Z with false in Hsample by (symmetry; apply Z.leb_gt; lia).
  replace (num <=? 12)%Z with true in Hsample by (symmetry; apply Z.leb_le; lia).
  replace (num <? 8)%Z with true in Hsample by (symmetry; apply Z.ltb_lt; lia).
  destruct (vec (others (draws k))) as [[a0 b0] c0].
  bind_inv. auto.
Qed.

(** Rod group 5 with the angle [2 pi / 5] drawn. *)
Lemma generate_lattice_1D_right_angles_witness :
  (PI / 2 = PI / 2 /\ PI / 2 = PI / 2 /\ PI / 2 = PI / 2)%R
  /\ gauss (others (unit_draws 0)) = (2 * (PI / 5))%R.
Proof.
  split; [| reflexivity].
  refine (generate_lattice_1D_right_angles 5 2 (Some 1%R) (/ 2) (PI / 6) 10 100
            unit_draws 1 1 2 (PI / 2) (PI / 2) (PI / 2) _
            generate_lattice_1D_rod5). lia.
Defined.

(** ** [Add_vacuum] *)

Section AddVacuumFacts.
Local Open Scope R_scope.

Lemma np_linalg_inv_right :
  forall m inverse y,
    np_linalg_inv m = Some inverse ->
    vec_dot_mat (vec_dot_mat y inverse) m = y.
Proof.
  intros [[[[m00 m01] m02] [[m10 m11] m12]] [[m20 m21] m22]] inverse
         [[y0 y1] y2] Hinv.
  unfold np_linalg_inv in Hinv. cbv zeta in Hinv.
  match type of Hinv with
  | context [Req_dec_T ?d 0] => destruct (Req_dec_T d 0) as [| Hdet]
  end; [discriminate |].
  injection Hinv as <-. unfold det3 in *. unfold vec_dot_mat.
  repeat f_equal; field; exact Hdet.
Qed.

Lemma np_linalg_inv_left :
  forall m inverse x,
    np_linalg_inv m = Some inverse ->
    vec_dot_mat (vec_dot_mat x m) inverse = x.
Proof.
  intros [[[[m00 m01] m02] [[m10 m11] m12]] [[m20 m21] m22]] inverse
         [[x0 x1] x2] Hinv.
  unfold np_linalg_inv in Hinv. cbv zeta in Hinv.
  match type of Hinv with
  | context [Req_dec_T ?d 0] => destruct (Req_dec_T d 0) as [| Hdet]
  end; [discriminate |].
  injection Hinv as <-. unfold det3 in *. unfold vec_dot_mat.
  repeat f_equal; field; exact Hdet.
Qed.

Lemma add_vacuum_row_periodic :
  forall a PBC vacuum row row',
    add_vacuum_row a PBC vacuum row = Some row' -> In a PBC -> row' = row.
Proof.
  intros a PBC vacuum row row' Hrow Hin. unfold add_vacuum_row in Hrow.
  apply mem_In in Hin. rewrite Hin in Hrow. congruence.
Qed.

Lemma add_vacuum_row_lengthened :
  forall a PBC vacuum row row',
    add_vacuum_row a PBC vacuum row = Some row' -> ~ In a PBC -> 0 <= vacuum ->
    norm row <> 0
    /\ row' = (let '(u0, u1, u2) := row in
               let k := 1 + vacuum / norm row in (k * u0, k * u1, k * u2))
    /\ norm row' = norm row + vacuum.
Proof.
  intros a PBC vacuum [[u0 u1] u2] row' Hrow Hout Hvac.
  unfold add_vacuum_row in Hrow.
  destruct (mem a PBC) eqn:Hmem; [apply mem_In in Hmem; contradiction |].
  destruct (Req_dec_T (norm (u0, u1, u2)) 0) as [| Hn]; [discriminate |].
  injection Hrow as <-.
  set (n := norm (u0, u1, u2)) in *.
  assert (Hnpos : 0 < n).
  { pose proof (sqrt_pos (dot (u0, u1, u2) (u0, u1, u2))) as Hpos.
    fold (norm (u0, u1, u2)) in Hpos. fold n in Hpos. lra. }
  split; [exact Hn |]. split.
  - cbv beta iota zeta.
    apply f_equal2; [apply f_equal2 |]; field; exact Hn.
  - assert (Hk : 0 <= 1 + vacuum / n).
    { assert (0 <= vacuum / n);
        [apply Rmult_le_pos; [exact Hvac | apply Rlt_le, Rinv_0_lt_compat; exact Hnpos] | lra]. }
    unfold norm at 1. unfold dot.
    replace ((u0 + u0 / n * vacuum) * (u0 + u0 / n * vacuum)
             + (u1 + u1 / n * vacuum) * (u1 + u1 / n * vacuum)
             + (u2 + u2 / n * vacuum) * (u2 + u2 / n * vacuum))
      with ((1 + vacuum / n) * (1 + vacuum / n) * (u0 * u0 + u1 * u1 + u2 * u2))
      by (field; exact Hn).
    rewrite sqrt_mult; [| nra | nra].
    rewrite sqrt_square by exact Hk.
    change (sqrt (u0 * u0 + u1 * u1 + u2 * u2)) with n.
    field. exact Hn.
Qed.

Lemma Add_vacuum_inv :
  forall lattice coor vacuum PBC lattice' coor',
    Vacuum.Add_vacuum lattice coor vacuum PBC = Padded lattice' coor' ->
    exists inverse,
      np_linalg_inv lattice' = Some inverse
      /\ coor' = np_dot (np_dot coor lattice) inverse
      /\ Forall2 (fun '(a, row) '(a', row') =>
                    a = a' /\ add_vacuum_row a PBC vacuum row = Some row')
                 (axes lattice) (axes lattice').
Proof.
  intros [[row1 row2] row3] coor vacuum PBC lattice' coor' Hrun.
  unfold Vacuum.Add_vacuum in Hrun.
  destruct (add_vacuum_row 1 PBC vacuum row1) as [row1' |] eqn:H1; [| discriminate].
  destruct (add_vacuum_row 2 PBC vacuum row2) as [row2' |] eqn:H2; [| discriminate].
  destruct (add_vacuum_row 3 PBC vacuum row3) as [row3' |] eqn:H3; [| discriminate].
  destruct (np_linalg_inv (row1', row2', row3')) as [inverse |] eqn:Hinv;
    [| discriminate].
  injection Hrun as <- <-. exists inverse.
  split; [exact Hinv |]. split; [reflexivity |].
  unfold axes. repeat constructor; assumption.
Qed.
(** A slab periodic along its first two axes. *)
Lemma Add_vacuum_slab :
  Vacuum.Add_vacuum slab slab_atom 10 [1; 2]%nat = Padded padded_slab padded_atom.
Proof.
  assert (Hnorm : norm (0, 0, 4) = 4).
  { unfold norm, dot. replace (0 * 0 + 0 * 0 + 4 * 4) with (4 * 4) by ring.
    apply sqrt_square. lra. }
  unfold Vacuum.Add_vacuum, slab, add_vacuum_row.
  cbn [mem existsb Nat.eqb orb]. rewrite Hnorm.
  destruct (Req_dec_T 4 0) as [H40 | _]; [lra |].
  replace (0 + 0 / 4 * 10) with 0 by field.
  replace (4 + 4 / 4 * 10) with 14 by field.
  unfold np_linalg_inv. cbv zeta.
  match goal with
  | |- context [Req_dec_T ?d 0] => destruct (Req_dec_T d 0) as [Hdet | Hdet]
  end.
  - exfalso. unfold det3 in Hdet. lra.
  - unfold padded_slab, padded_atom, slab_atom, np_dot, vec_dot_mat, det3.
    cbn [map]. f_equal. f_equal.
    apply f_equal2; [apply f_equal2 |]; field.
Qed.
End AddVacuumFacts.

(** X22.  The coordinates that [Add_vacuum] returns describe, in the
    lattice it returns, the positions that the coordinates given
    describe in the lattice given: the absolute positions of the atoms
    do not move. *)
Theorem Add_vacuum_positions :
  forall (lattice : mat3) (coor : list vec3) (vacuum : R) (PBC : list nat)
         (lattice' : mat3) (coor' : list vec3),
    Vacuum.Add_vacuum lattice coor vacuum PBC = Padded lattice' coor' ->
    np_dot coor' lattice' = np_dot coor lattice
    /\ length coor' = length coor.
Proof.
  intros lattice coor vacuum PBC lattice' coor' Hrun.
  apply Add_vacuum_inv in Hrun. destruct Hrun as (inverse & Hinv & -> & _).
  unfold np_dot. rewrite !map_map, !length_map. split; [| reflexivity].
  apply map_ext. intros x. exact (np_linalg_inv_right _ _ _ Hinv).
Qed.

Lemma Add_vacuum_positions_witness :
  np_dot padded_atom padded_slab = np_dot slab_atom slab
  /\ length padded_atom = length slab_atom.
Proof.
  exact (Add_vacuum_positions slab slab_atom 10 [1; 2]%nat _ _ Add_vacuum_slab).
Defined.

(** X23.  [Add_vacuum] leaves the lattice vectors of the periodic axes
    as they are.  For a vacuum that is not negative it multiplies the
    vector of an axis that is not periodic by [1 + vacuum / length], so
    the vector keeps its direction and is longer by [vacuum]. *)
Theorem Add_vacuum_rows :
  forall (lattice : mat3) (coor : list vec3) (vacuum : R) (PBC : list nat)
         (lattice' : mat3) (coor' : list vec3),
    Vacuum.Add_vacuum lattice coor vacuum PBC = Padded lattice' coor' ->
    (0 <= vacuum)%R ->
    Forall2 (fun '(a, row) '(_, row') =>
               (In a PBC -> row' = row)
               /\ (~ In a PBC ->
                   row' = (let '(u0, u1, u2) := row in
                           let k := (1 + vacuum / norm row)%R in
                           (k * u0, k * u1, k * u2)%R)
                   /\ norm row' = (norm row + vacuum)%R))
            (axes lattice) (axes lattice').
Proof.
  intros lattice coor vacuum PBC lattice' coor' Hrun Hvac.
  apply Add_vacuum_inv in Hrun. destruct Hrun as (inverse & _ & _ & Hrows).
  eapply Forall2_impl; [| exact Hrows].
  intros [a row] [a' row'] [<- Hrow]. split.
  - intros Hin. exact (add_vacuum_row_periodic _ _ _ _ _ Hrow Hin).
  - intros Hout.
    exact (proj2 (add_vacuum_row_lengthened _ _ _ _ _ Hrow Hout Hvac)).
Qed.

Lemma Add_vacuum_rows_witness :
  norm (0, 0, 14)%R = (norm (0, 0, 4)%R + 10)%R.
Proof.
  assert (Hvac : (0 <= 10)%R) by lra.
  pose proof (Add_vacuum_rows slab slab_atom 10 [1; 2]%nat _ _ Add_vacuum_slab Hvac)
    as Hrows.
  assert (Hout : ~ In 3%nat [1; 2]%nat)
    by (simpl; intros [H | [H | []]]; discriminate).
  unfold axes, slab, padded_slab in Hrows.
  inversion Hrows as [| x1 y1 l1 l1' _ Hrows2]; subst.
  inversion Hrows2 as [| x2 y2 l2 l2' _ Hrows3]; subst.
  inversion Hrows3 as [| x3 y3 l3 l3' Hthird _]; subst.
  cbv beta iota in Hthird. destruct Hthird as [_ Hthird].
  exact (proj2 (Hthird Hout)).
Defined.

(** X24.  For a crystal periodic along its three axes [Add_vacuum]
    returns the lattice and the coordinates it was given, when the
    lattice is not singular. *)
Theorem Add_vacuum_periodic :
  forall (lattice : mat3) (coor : list vec3) (vacuum : R) (PBC : list nat),
    In 1%nat PBC -> In 2%nat PBC -> In 3%nat PBC ->
    det3 lattice <> 0%R ->
    Vacuum.Add_vacuum lattice coor vacuum PBC = Padded lattice coor.
Proof.
  intros [[row1 row2] row3] coor vacuum PBC H1 H2 H3 Hdet.
  unfold Vacuum.Add_vacuum, add_vacuum_row.
  apply mem_In in H1, H2, H3. rewrite H1, H2, H3.
  destruct (np_linalg_inv (row1, row2, row3)) as [inverse |] eqn:Hinv.
  - f_equal. unfold np_dot. rewrite map_map.
    rewrite <- (map_id coor) at 2. apply map_ext. intros x.
    exact (np_linalg_inv_left _ _ _ Hinv).
  - exfalso. unfold np_linalg_inv in Hinv.
    destruct row1 as [[m00 m01] m02], row2 as [[m10 m11] m12],
             row3 as [[m20 m21] m22].
    cbv zeta in Hinv.
    match type of Hinv with
    | context [Req_dec_T ?d 0] => destruct (Req_dec_T d 0)
    end; [contradiction | discriminate].
Qed.

Lemma Add_vacuum_periodic_witness :
  Vacuum.Add_vacuum slab slab_atom 10 [1; 2; 3]%nat = Padded slab slab_atom.
Proof.
  apply Add_vacuum_periodic; simpl; auto.
  unfold slab, det3. lra.
Defined.

(** ** From a matrix to its parameters and back *)

Section Canonical.
Local Open Scope R_scope.

Lemma cauchy_schwarz : forall u v, dot u v ^ 2 <= dot u u * dot v v.
Proof.
  intros [[u0 u1] u2] [[v0 v1] v2]. unfold dot.
  assert (E : (u0 * u0 + u1 * u1 + u2 * u2) * (v0 * v0 + v1 * v1 + v2 * v2)
              - (u0 * v0 + u1 * v1 + u2 * v2) ^ 2
              = (u0 * v1 - u1 * v0) ^ 2 + (u0 * v2 - u2 * v0) ^ 2
                + (u1 * v2 - u2 * v1) ^ 2) by ring.
  pose proof (pow2_ge_0 (u0 * v1 - u1 * v0)).
  pose proof (pow2_ge_0 (u0 * v2 - u2 * v0)).
  pose proof (pow2_ge_0 (u1 * v2 - u2 * v1)).
  lra.
Qed.

Lemma dot_nonneg : forall u, 0 <= dot u u.
Proof. intros [[u0 u1] u2]. unfold dot. nra. Qed.

Lemma norm_sq : forall u, norm u * norm u = dot u u.
Proof. intros u. unfold norm. apply sqrt_sqrt. apply dot_nonneg. Qed.

Lemma cosine_bounds :
  forall u v, norm u * norm v <> 0 ->
              -1 <= dot u v / (norm u * norm v) <= 1.
Proof.
  intros u v Hn.
  pose proof (cauchy_schwarz u v) as Hcs.
  rewrite <- (norm_sq u), <- (norm_sq v) in Hcs.
  assert (Hu : 0 <= norm u) by apply sqrt_pos.
  assert (Hv : 0 <= norm v) by apply sqrt_pos.
  set (n := norm u * norm v) in *.
  assert (Hpos : 0 < n) by (assert (0 <= n) by (unfold n; nra); lra).
  assert (Hsq : dot u v ^ 2 <= n ^ 2) by (unfold n; nra).
  assert (Hd : - n <= dot u v <= n) by (split; nra).
  assert (Hinv : 0 < / n) by now apply Rinv_0_lt_compat.
  assert (Hone : n * / n = 1) by (apply Rinv_r; lra).
  unfold Rdiv. split; nra.
Qed.

(** [angle] answers for every pair of vectors that are not zero. *)
Lemma angle_total :
  forall u v, norm u * norm v <> 0 ->
              angle u v = Ok (acos (dot u v / (norm u * norm v))).
Proof.
  intros u v Hn. unfold angle. rewrite fdiv_ok by exact Hn. cbn [bind].
  pose proof (cosine_bounds u v Hn) as [Hlo Hhi].
  unfold math_acos.
  destruct (Rlt_dec _ (-1)); [lra |]. destruct (Rlt_dec 1 _); [lra |]. reflexivity.
Qed.

Lemma norm_pos : forall u, dot u u <> 0 -> 0 < norm u.
Proof.
  intros u Hu. unfold norm. apply sqrt_lt_R0.
  pose proof (dot_nonneg u). lra.
Qed.
End Canonical.

(** X25.  A lower-triangular matrix with a positive diagonal is the
    matrix of its own parameters: [matrix2para] succeeds on it and
    [para2matrix], in the lower format, gives the matrix back. *)
Theorem para2matrix_matrix2para :
  forall a b1 b2 c1 c2 c3 : R,
    (0 < a)%R -> (0 < b2)%R -> (0 < c3)%R ->
    let M := ((a, 0, 0), (b1, b2, 0), (c1, c2, c3))%R in
    exists p,
      matrix2para M true = Ok p
      /\ para2matrix p true lower = Ok M.
Proof.
  intros a b1 b2 c1 c2 c3 Ha Hb2 Hc3 M. subst M.
  set (row0 := (a, 0, 0)%R). set (row1 := (b1, b2, 0)%R).
  set (row2 := (c1, c2, c3)%R).
  assert (N0 : norm row0 = a) by (apply norm_row0; lra).
  assert (P1 : (0 < norm row1)%R) by (apply norm_pos; unfold row1, dot; nra).
  assert (P2 : (0 < norm row2)%R) by (apply norm_pos; unfold row2, dot; nra).
  assert (S1 : (norm row1 * norm row1 = b1 * b1 + b2 * b2)%R)
    by (rewrite norm_sq; unfold row1, dot; ring).
  assert (S2 : (norm row2 * norm row2 = c1 * c1 + c2 * c2 + c3 * c3)%R)
    by (rewrite norm_sq; unfold row2, dot; ring).
  assert (D12 : dot row1 row2 = (b1 * c1 + b2 * c2)%R) by (unfold row1, row2, dot; ring).
  assert (D02 : dot row0 row2 = (a * c1)%R) by (unfold row0, row2, dot; ring).
  assert (D01 : dot row0 row1 = (a * b1)%R) by (unfold row0, row1, dot; ring).
  set (nb := norm row1) in *. set (nc := norm row2) in *.
  assert (A : angle row1 row2 = Ok (acos ((b1 * c1 + b2 * c2) / (nb * nc)))).
  { rewrite <- D12. apply angle_total. fold nb nc. nra. }
  assert (B : angle row0 row2 = Ok (acos (a * c1 / (a * nc)))).
  { pose proof (angle_total row0 row2) as Hb. fold nc in Hb.
    rewrite D02, N0 in Hb. apply Hb. nra. }
  assert (C : angle row0 row1 = Ok (acos (a * b1 / (a * nb)))).
  { pose proof (angle_total row0 row1) as Hb. fold nb in Hb.
    rewrite D01, N0 in Hb. apply Hb. nra. }
  assert (BA : (-1 <= (b1 * c1 + b2 * c2) / (nb * nc) <= 1)%R).
  { rewrite <- D12. apply cosine_bounds. fold nb nc. nra. }
  assert (BB : (-1 <= a * c1 / (a * nc) <= 1)%R).
  { pose proof (cosine_bounds row0 row2) as Hb. fold nc in Hb.
    rewrite D02, N0 in Hb. apply Hb. nra. }
  assert (BC : (-1 <= a * b1 / (a * nb) <= 1)%R).
  { pose proof (cosine_bounds row0 row1) as Hb. fold nb in Hb.
    rewrite D01, N0 in Hb. apply Hb. nra. }
  eexists. split.
  - unfold matrix2para. fold row0 row1 row2. rewrite A, B, C. cbn [bind].
    rewrite N0. reflexivity.
  - assert (Hcg : cos (acos (a * b1 / (a * nb))) = (b1 / nb)%R).
    { rewrite cos_acos by exact BC. field. lra. }
    assert (Hcb : cos (acos (a * c1 / (a * nc))) = (c1 / nc)%R).
    { rewrite cos_acos by exact BB. field. lra. }
    assert (Hca : cos (acos ((b1 * c1 + b2 * c2) / (nb * nc)))
                  = ((b1 * c1 + b2 * c2) / (nb * nc))%R)
      by (apply cos_acos; exact BA).
    assert (Hsg : sin (acos (a * b1 / (a * nb))) = (b2 / nb)%R).
    { rewrite sin_acos by exact BC. apply sqrt_lem_1.
      - unfold Rsqr.
        replace (a * b1 / (a * nb) * (a * b1 / (a * nb)))%R
          with ((a * b1 / (a * nb)) ^ 2)%R by ring.
        assert ((a * b1 / (a * nb)) ^ 2 <= 1)%R; [| lra].
        replace 1%R with (1 ^ 2)%R by ring. apply pow_maj_Rabs.
        apply Rabs_le. exact BC.
      - apply Rmult_le_pos; [lra |]. apply Rlt_le, Rinv_0_lt_compat. exact P1.
      - unfold Rsqr.
        assert (E : (b2 * b2 = nb * nb - b1 * b1)%R) by lra.
        replace (b2 / nb * (b2 / nb))%R with (b2 * b2 / (nb * nb))%R
          by (field; lra).
        rewrite E. field. split; lra. }
    unfold para2matrix.
    rewrite Hcg, Hcb, Hca, Hsg.
    rewrite fdiv_ok by (apply Rgt_not_eq; apply Rmult_lt_0_compat;
                        [lra | now apply Rinv_0_lt_compat]).
    cbn [bind]. fold nb nc.
    assert (Hc2 : (nc * ((b1 * c1 + b2 * c2) / (nb * nc) - c1 / nc * (b1 / nb))
                   / (b2 / nb) = c2)%R) by (field; repeat split; lra).
    rewrite Hc2.
    assert (Hc1 : (nc * (c1 / nc) = c1)%R) by (field; lra).
    rewrite Hc1.
    replace (nc ^ 2 - c1 ^ 2 - c2 ^ 2)%R with (c3 * c3)%R
      by (replace (nc ^ 2)%R with (nc * nc)%R by ring; rewrite S2; ring).
    rewrite math_sqrt_ok by nra. cbn [bind].
    rewrite sqrt_square by lra.
    unfold row0, row1, row2.
    replace (nb * (b1 / nb))%R with b1 by (field; lra).
    replace (nb * (b2 / nb))%R with b2 by (field; lra).
    reflexivity.
Qed.

Lemma para2matrix_matrix2para_witness :
  exists p,
    matrix2para ((2, 0, 0), (1, 3, 0), (1, 1, 4))%R true = Ok p
    /\ para2matrix p true lower = Ok ((2, 0, 0), (1, 3, 0), (1, 1, 4))%R.
Proof.
  apply (para2matrix_matrix2para 2 1 3 1 1 4); lra.
Defined.

(** X26.  On a matrix with no zero row [matrix2para] succeeds: the
    three lengths are positive, the three angles lie between 0 and pi,
    and the cell volume of the parameters, [a b c sqrt(Gram
    determinant)], is the absolute value of the determinant of the
    matrix. *)
Theorem matrix2para_volume :
  forall row0 row1 row2 : vec3,
    dot row0 row0 <> 0%R -> dot row1 row1 <> 0%R -> dot row2 row2 <> 0%R ->
    exists a b c alpha beta gamma,
      matrix2para (row0, row1, row2) true = Ok (a, b, c, alpha, beta, gamma)
      /\ (0 < a /\ 0 < b /\ 0 < c)%R
      /\ (0 <= alpha <= PI /\ 0 <= beta <= PI /\ 0 <= gamma <= PI)%R
      /\ (0 <= gram alpha beta gamma)%R
      /\ (a * b * c * sqrt (gram alpha beta gamma)
          = Rabs (det3 (row0, row1, row2)))%R.
Proof.
  intros row0 row1 row2 H0 H1 H2.
  pose proof (norm_pos row0 H0) as P0.
  pose proof (norm_pos row1 H1) as P1.
  pose proof (norm_pos row2 H2) as P2.
  pose proof (norm_sq row0) as S0.
  pose proof (norm_sq row1) as S1.
  pose proof (norm_sq row2) as S2.
  set (n0 := norm row0) in *. set (n1 := norm row1) in *. set (n2 := norm row2) in *.
  assert (N12 : (n1 * n2 <> 0)%R) by nra.
  assert (N02 : (n0 * n2 <> 0)%R) by nra.
  assert (N01 : (n0 * n1 <> 0)%R) by nra.
  pose proof (angle_total row1 row2 N12) as A.
  pose proof (angle_total row0 row2 N02) as B.
  pose proof (angle_total row0 row1 N01) as C.
  pose proof (cosine_bounds row1 row2 N12) as BA.
  pose proof (cosine_bounds row0 row2 N02) as BB.
  pose proof (cosine_bounds row0 row1 N01) as BC.
  fold n0 n1 n2 in A, B, C, BA, BB, BC.
  set (alpha := acos (dot row1 row2 / (n1 * n2))) in *.
  set (beta := acos (dot row0 row2 / (n0 * n2))) in *.
  set (gamma := acos (dot row0 row1 / (n0 * n1))) in *.
  assert (G : ((n0 * n1 * n2) ^ 2 * gram alpha beta gamma
               = det3 (row0, row1, row2) ^ 2)%R).
  { unfold gram, alpha, beta, gamma. rewrite !cos_acos by assumption.
    replace ((n0 * n1 * n2) ^ 2
             * (1 - (dot row1 row2 / (n1 * n2)) ^ 2
                - (dot row0 row2 / (n0 * n2)) ^ 2
                - (dot row0 row1 / (n0 * n1)) ^ 2
                + 2 * (dot row1 row2 / (n1 * n2) * (dot row0 row2 / (n0 * n2))
                       * (dot row0 row1 / (n0 * n1)))))%R
      with ((n0 * n0) * (n1 * n1) * (n2 * n2)
            - (n0 * n0) * dot row1 row2 ^ 2
            - (n1 * n1) * dot row0 row2 ^ 2
            - (n2 * n2) * dot row0 row1 ^ 2
            + 2 * (dot row1 row2 * dot row0 row2 * dot row0 row1))%R
      by (field; repeat split; lra).
    rewrite S0, S1, S2.
    destruct row0 as [[x0 x1] x2], row1 as [[y0 y1] y2], row2 as [[z0 z1] z2].
    unfold dot, det3. ring. }
  assert (Hscale : (0 < (n0 * n1 * n2) ^ 2)%R).
  { apply pow_lt. apply Rmult_lt_0_compat; [apply Rmult_lt_0_compat |]; assumption. }
  assert (Hgram : (0 <= gram alpha beta gamma)%R).
  { pose proof (pow2_ge_0 (det3 (row0, row1, row2))) as Hdet.
    rewrite <- G in Hdet.
    destruct (Rle_dec 0 (gram alpha beta gamma)) as [Hge | Hlt]; [exact Hge |].
    exfalso. apply Rnot_le_lt in Hlt.
    pose proof (Rmult_lt_0_compat _ _ Hscale (Ropp_0_gt_lt_contravar _ Hlt)).
    lra. }
  exists n0, n1, n2, alpha, beta, gamma.
  split.
  { unfold matrix2para. fold n0 n1 n2. rewrite A, B, C. reflexivity. }
  split; [auto |].
  split; [unfold alpha, beta, gamma; repeat split; apply acos_bound |].
  split; [exact Hgram |].
  rewrite <- sqrt_Rsqr_abs. unfold Rsqr.
  replace (det3 (row0, row1, row2) * det3 (row0, row1, row2))%R
    with (det3 (row0, row1, row2) ^ 2)%R by ring.
  rewrite <- G. rewrite sqrt_mult; [| lra | exact Hgram].
  rewrite sqrt_pow2; [reflexivity |].
  apply Rlt_le. apply Rmult_lt_0_compat; [apply Rmult_lt_0_compat |]; assumption.
Qed.

Lemma matrix2para_volume_witness :
  exists a b c alpha beta gamma,
    matrix2para ((2, 0, 0), (1, 3, 0), (1, 1, 4))%R true
    = Ok (a, b, c, alpha, beta, gamma)
    /\ (0 < a /\ 0 < b /\ 0 < c)%R
    /\ (0 <= alpha <= PI /\ 0 <= beta <= PI /\ 0 <= gamma <= PI)%R
    /\ (0 <= gram alpha beta gamma)%R
    /\ (a * b * c * sqrt (gram alpha beta gamma)
        = Rabs (det3 ((2, 0, 0), (1, 3, 0), (1, 1, 4))))%R.
Proof.
  apply matrix2para_volume; unfold dot; lra.
Defined.

(** ** [generate_lattice] on the cubic groups *)

Section Cubic.
Local Open Scope R_scope.

Lemma Rltb_refute : forall x y, ~ x < y -> Rltb x y = false.
Proof. intros x y H. unfold Rltb. destruct (Rlt_dec x y); [contradiction | reflexivity]. Qed.

Lemma sample_para_cubic :
  forall sg volume d,
    (195 <= sg)%Z -> 0 <= volume ->
    sample_para sg volume d
    = Ok (np_cbrt volume, np_cbrt volume, np_cbrt volume, PI / 2, PI / 2, PI / 2).
Proof.
  intros sg volume d Hsg Hvol. unfold sample_para.
  replace (sg <=? 2)%Z with false by (symmetry; apply Z.leb_gt; lia).
  replace (sg <=? 15)%Z with false by (symmetry; apply Z.leb_gt; lia).
  replace (sg <=? 74)%Z with false by (symmetry; apply Z.leb_gt; lia).
  replace (sg <=? 142)%Z with false by (symmetry; apply Z.leb_gt; lia).
  replace (sg <=? 194)%Z with false by (symmetry; apply Z.leb_gt; lia).
  unfold pow_third. destruct (Rlt_dec volume 0); [lra | reflexivity].
Qed.

Lemma cube_accepted :
  forall s minvec minangle max_ratio,
    0 < minvec -> minangle < PI / 2 -> 1 < max_ratio ->
    meets_requirements (s, s, s, PI / 2, PI / 2, PI / 2) minvec minangle max_ratio
    = Ok (Rltb minvec s).
Proof.
  intros s minvec minangle max_ratio Hvec Hangle Hratio.
  unfold meets_requirements, smallvec.
  rewrite fdiv_ok by nra. cbn [bind].
  rewrite !Rmax_same, cos_PI2, !Rmult_0_r, !Rmin_same.
  destruct (Rlt_dec minvec s) as [Hlt | Hge].
  - rewrite (Rltb_intro _ _ Hlt).
    assert (Hmax : s < s * s * s / minvec ^ 2).
    { apply Rmult_lt_reg_r with (r := minvec ^ 2); [nra |].
      replace (s * s * s / minvec ^ 2 * minvec ^ 2) with (s * s * s)
        by (field; lra).
      assert (Hs : 0 < s) by lra.
      assert (Hsq : minvec * minvec < s * s) by nra.
      pose proof (Rmult_lt_0_compat s (s * s - minvec * minvec) Hs) as Hprod.
      lra. }
    assert (Hone : s / s = 1) by (field; lra).
    rewrite Hone.
    rewrite (Rltb_intro minvec (s * s * s / minvec ^ 2)) by lra.
    repeat (rewrite Rltb_intro by lra). reflexivity.
  - rewrite (Rltb_refute _ _ Hge).
    destruct (Rltb minvec (s * s * s / minvec ^ 2)); reflexivity.
Qed.

Lemma lattice_loop_cubic :
  forall sg volume minvec minangle max_ratio draws left n,
    (195 <= sg)%Z -> 0 <= volume ->
    0 < minvec -> minangle < PI / 2 -> 1 < max_ratio -> (0 < left)%nat ->
    lattice_loop sg volume minvec minangle max_ratio draws left n
    = Ok (if Rltb minvec (np_cbrt volume)
          then Some (np_cbrt volume, np_cbrt volume, np_cbrt volume,
                     PI / 2, PI / 2, PI / 2)
          else None).
Proof.
  intros sg volume minvec minangle max_ratio draws left.
  induction left as [| left IH]; intros n Hsg Hvol Hvec Hangle Hratio Hleft; [lia |].
  cbn [lattice_loop]. rewrite sample_para_cubic by assumption. cbn [bind].
  rewrite cube_accepted by assumption. cbn [bind].
  destruct (Rltb minvec (np_cbrt volume)) eqn:Hs; [reflexivity |].
  destruct left as [| left']; [reflexivity |].
  rewrite IH by (assumption || lia). try rewrite Hs. reflexivity.
Qed.
End Cubic.

(** X27.  On a cubic group (195 and above) the answer of
    [generate_lattice] does not depend on the random draws: for a
    volume that is not negative, a positive [minvec], [minangle] below
    a right angle, [max_ratio] above 1 and at least one attempt, it
    returns the cube of edge [cbrt(volume)] when that edge exceeds
    [minvec], and nothing otherwise. *)
Theorem generate_lattice_cubic :
  forall (sg : Z) (volume minvec minangle max_ratio : R) (maxattempts : nat)
         (draws : nat -> draw),
    (195 <= sg)%Z -> (0 <= volume)%R -> (0 < minvec)%R ->
    (minangle < PI / 2)%R -> (1 < max_ratio)%R -> (0 < maxattempts)%nat ->
    let s := np_cbrt volume in
    (minvec < s ->
     generate_lattice sg volume minvec minangle max_ratio maxattempts draws
     = Ok (Some (s, s, s, PI / 2, PI / 2, PI / 2)))%R
    /\ (s <= minvec ->
        generate_lattice sg volume minvec minangle max_ratio maxattempts draws
        = Ok None)%R.
Proof.
  intros sg volume minvec minangle max_ratio maxattempts draws
         Hsg Hvol Hvec Hangle Hratio Hattempts s. subst s.
  unfold generate_lattice. destruct maxattempts as [| m]; [lia |].
  rewrite lattice_loop_cubic by assumption.
  split; intros Hs.
  - now rewrite (Rltb_intro _ _ Hs).
  - rewrite Rltb_refute; [reflexivity | lra].
Qed.

(** Volume 1 and [minvec] 2, the default of the driver: no lattice. *)
Lemma generate_lattice_cubic_witness :
  generate_lattice 230 1 2 (PI / 6) 10 100
    (fun _ => {| shear := zeros3; vec := (1, 1, 1)%R; gauss := 0%R |})
  = Ok None.
Proof.
  pose proof PI_RGT_0 as Hpi.
  refine (proj2 (generate_lattice_cubic 230 1 2 (PI / 6) 10 100 _ _ _ _ _ _ _) _);
    try lra; try lia.
  rewrite np_cbrt_1. lra.
Defined.
